(** * The MCP client pool of openclaw-mcp-adapter

    A shallow embedding of [src/mcp-client.ts] (class [McpClientPool]) and of
    the [ServerConfig] record of [src/config.ts], followed by the properties
    of the connection lifecycle and of the credential refresh that the
    specification states.

    Conventions of the embedding.
    - A JavaScript string is a sequence of UTF-16 code units.  The
      development covers the strings whose code units are below 256, as
      values of [string]; on these [toLowerCase] and [trim] are exactly the
      functions defined here.  [JSON.parse] turns such a text into strings
      of any code units, by the escapes of its string literals; a string
      that comes out of it, and so a token, is a list of code units.
    - A JavaScript number is a binary64 floating-point number, a value of
      [float], with its arithmetic and its [NaN].
    - Objects with identity (protocol sessions, transports) live in a store
      and are named by their index.
    - Everything outside the class (the SDK session and transports, the child
      process of the token command, the clock) is an environment [Env] whose
      answers may depend on everything that happened before. *)

From Stdlib Require Import ZArith Ascii String Lia PrimFloat.
From stdpp Require Import base decidable option list strings gmap pretty.

Set Warnings "-register-all".

Local Open Scope Z_scope.

(** ** Strings *)

Module JsString.

(** White space and line terminators of ECMAScript, below code unit 256:
    TAB, LF, VT, FF, CR, SP and NBSP.  This is what [trim] strips. *)
Definition isWhiteSpace (c : ascii) : bool :=
  match c with
  | "009" | "010" | "011" | "012" | "013" | " " | "160" => true
  | _ => false
  end%char.

Definition isLF (c : ascii) : bool := Ascii.eqb c "010".
Definition isCR (c : ascii) : bool := Ascii.eqb c "013".

Fixpoint trimStart (s : string) : string :=
  match s with
  | EmptyString => EmptyString
  | String c s' => if isWhiteSpace c then trimStart s' else s
  end.

Fixpoint trimEnd (s : string) : string :=
  match s with
  | EmptyString => EmptyString
  | String c s' =>
      match trimEnd s' with
      | EmptyString => if isWhiteSpace c then EmptyString else String c EmptyString
      | t => String c t
      end
  end.

(** [s.trim()] *)
Definition trim (s : string) : string := trimEnd (trimStart s).

(** Every code unit of [s] is white space. *)
Fixpoint blank (s : string) : bool :=
  match s with
  | EmptyString => true
  | String c s' => isWhiteSpace c && blank s'
  end.

(** Truthiness of a string: [Boolean(s)], [!s] is its negation. *)
Definition truthy (s : string) : bool :=
  match s with EmptyString => false | String _ _ => true end.

(** [s.toLowerCase()] on code units below 256: A-Z and the capital letters
    of Latin-1 (192-222 but the multiplication sign 215) move up by 32. *)
Definition lowerChar (c : ascii) : ascii :=
  let n := N_of_ascii c in
  if ((65 <=? n) && (n <=? 90) || (192 <=? n) && (n <=? 222) && negb (n =? 215))%N
  then ascii_of_N (n + 32) else c.

Fixpoint toLowerCase (s : string) : string :=
  match s with
  | EmptyString => EmptyString
  | String c s' => String (lowerChar c) (toLowerCase s')
  end.

Fixpoint startsWith (s p : string) : bool :=
  match p, s with
  | EmptyString, _ => true
  | String _ _, EmptyString => false
  | String a p', String b s' => Ascii.eqb a b && startsWith s' p'
  end.

(** [s.includes(p)] *)
Fixpoint includes (s p : string) : bool :=
  startsWith s p ||
  match s with
  | EmptyString => false
  | String _ s' => includes s' p
  end.

(** Prepend a code unit to the first piece of a split. *)
Definition consHead (c : ascii) (pieces : list string) : list string :=
  match pieces with
  | [] => [String c EmptyString]
  | h :: t => String c h :: t
  end.

(** [s.split(/\r?\n/)]: the separator is a line feed, with the carriage
    return that stands right before it when there is one.  The result is
    never empty: the empty string splits into one empty piece. *)
Fixpoint splitLines (s : string) : list string :=
  match s with
  | EmptyString => [EmptyString]
  | String c s' =>
      if isLF c then EmptyString :: splitLines s'
      else
        match s' with
        | String c' s'' =>
            if isCR c && isLF c' then EmptyString :: splitLines s''
            else consHead c (splitLines s')
        | EmptyString => consHead c (splitLines s')
        end
  end.

(** [parts.filter(Boolean).join(sep)] is written out where it is used; this
    is [Array.prototype.join]. *)
Fixpoint join (sep : string) (parts : list string) : string :=
  match parts with
  | [] => EmptyString
  | [p] => p
  | p :: rest => p +:+ sep +:+ join sep rest
  end.

(** A string of any code units, each one as its number. *)
Definition utf16 : Type := list N.

(** A string of this development as a list of code units. *)
Definition utf16_of (s : string) : utf16 := N_of_ascii <$> list_ascii_of_string s.

(** Truthiness of such a string. *)
Definition truthy16 (t : utf16) : bool :=
  match t with [] => false | _ :: _ => true end.

(** [a === b] *)
Fixpoint utf16_eqb (a b : utf16) : bool :=
  match a, b with
  | [], [] => true
  | x :: a', y :: b' => N.eqb x y && utf16_eqb a' b'
  | _, _ => false
  end.

End JsString.

(** ** Numbers *)

Module JsNumber.

(** [Math.max(a, b)]: [NaN] when one of the two is; of two zeros the
    positive one. *)
Definition Math_max (a b : float) : float :=
  if PrimFloat.is_nan a || PrimFloat.is_nan b then PrimFloat.nan
  else if (a <? b)%float then b
  else if (b <? a)%float then a
  else if PrimFloat.is_zero a && PrimFloat.get_sign a then b
  else a.

End JsNumber.

(** ** Thrown values *)

Module JsError.

(** What a [catch] clause receives: an [Error] object with its name and
    message, or any other value, kept as the text [String(value)] gives. *)
Inductive thrown : Type :=
| ErrorObject (name message : string)
| OtherValue (text : string).

(** [new Error(message)] *)
Definition newError (message : string) : thrown := ErrorObject "Error" message.

(** [String(err)]: for an error object this is [Error.prototype.toString],
    the name, the message, or the two joined by a colon and a space. *)
Definition String_of (err : thrown) : string :=
  match err with
  | ErrorObject name message =>
      if negb (JsString.truthy name) then message
      else if negb (JsString.truthy message) then name
      else name +:+ ": " +:+ message
  | OtherValue text => text
  end.

End JsError.

(** ** JSON texts *)

Module JSON.
Import JsString.

(** A value as [JSON.parse] returns it.  The strings, and with them the
    names of the members of an object, hold the code units that the
    string literals denote. *)
Inductive json : Type :=
| JNull
| JBool (b : bool)
| JNumber (lexeme : string)
| JString (s : utf16)
| JArray (items : list json)
| JObject (members : list (utf16 * json)).

Definition dquote : ascii := "034"%char.
Definition backslash : ascii := "092"%char.

Definition isJsonWs (c : ascii) : bool :=
  match c with
  | " " | "009" | "010" | "013" => true
  | _ => false
  end%char.

Fixpoint skipWs (s : string) : string :=
  match s with
  | EmptyString => EmptyString
  | String c s' => if isJsonWs c then skipWs s' else s
  end.

Definition isDigit (c : ascii) : bool :=
  let n := N_of_ascii c in ((48 <=? n) && (n <=? 57))%N.

Fixpoint takeDigits (s : string) : string * string :=
  match s with
  | EmptyString => (EmptyString, EmptyString)
  | String c s' =>
      if isDigit c then let '(ds, rest) := takeDigits s' in (String c ds, rest)
      else (EmptyString, s)
  end.

Definition hexVal (c : ascii) : option N :=
  let n := N_of_ascii c in
  if ((48 <=? n) && (n <=? 57))%N then Some (n - 48)%N
  else if ((65 <=? n) && (n <=? 70))%N then Some (n - 55)%N
  else if ((97 <=? n) && (n <=? 102))%N then Some (n - 87)%N
  else None.

Definition hex4 (a b c d : ascii) : option N :=
  x1 ← hexVal a; x2 ← hexVal b; x3 ← hexVal c; x4 ← hexVal d;
  Some (((x1 * 16 + x2) * 16 + x3) * 16 + x4)%N.

(** The character a one-letter escape stands for. *)
Definition simpleEscape (e : ascii) : option ascii :=
  if Ascii.eqb e dquote then Some dquote
  else if Ascii.eqb e backslash then Some backslash
  else if Ascii.eqb e "/" then Some "/"%char
  else if Ascii.eqb e "b" then Some "008"%char
  else if Ascii.eqb e "f" then Some "012"%char
  else if Ascii.eqb e "n" then Some "010"%char
  else if Ascii.eqb e "r" then Some "013"%char
  else if Ascii.eqb e "t" then Some "009"%char
  else None.

Definition consChar (c : N) (r : option (utf16 * string)) : option (utf16 * string) :=
  '(body, rest) ← r; Some (c :: body, rest).

(** The code units of a string literal, read after its opening quote, up
    to and with the closing quote.  Control characters must be escaped.  An
    escape [\uXXXX] denotes the code unit of that number. *)
Fixpoint parseChars (s : string) : option (utf16 * string) :=
  match s with
  | EmptyString => None
  | String c r =>
      if Ascii.eqb c dquote then Some ([], r)
      else if Ascii.eqb c backslash then
        match r with
        | String e r1 =>
            match simpleEscape e with
            | Some ch => consChar (N_of_ascii ch) (parseChars r1)
            | None =>
                if Ascii.eqb e "u" then
                  match r1 with
                  | String h1 (String h2 (String h3 (String h4 r2))) =>
                      match hex4 h1 h2 h3 h4 with
                      | Some n => consChar n (parseChars r2)
                      | None => None
                      end
                  | _ => None
                  end
                else None
            end
        | EmptyString => None
        end
      else if (N_of_ascii c <? 32)%N then None
      else consChar (N_of_ascii c) (parseChars r)
  end.

(** A run of one digit or more. *)
Definition digits1 (s : string) : option (string * string) :=
  match takeDigits s with
  | (EmptyString, _) => None
  | (ds, rest) => Some (ds, rest)
  end.

(** A number: an optional minus sign; then a zero, or a digit from 1 to 9
    and any digits; then, optionally, a point and digits; then, optionally,
    an exponent letter, a sign and digits.  The value is kept as its
    lexeme. *)
Definition parseNumber (s : string) : option (string * string) :=
  let '(sign, s1) :=
    match s with
    | String c r => if Ascii.eqb c "-" then ("-", r) else (EmptyString, s)
    | EmptyString => (EmptyString, s)
    end in
  '(int, s2) ←
    match s1 with
    | String c r =>
        if Ascii.eqb c "0" then Some ("0", r)
        else if isDigit c then let '(ds, rest) := takeDigits r in Some (String c ds, rest)
        else None
    | EmptyString => None
    end;
  '(frac, s3) ←
    match s2 with
    | String c r =>
        if Ascii.eqb c "." then '(ds, rest) ← digits1 r; Some (String c ds, rest)
        else Some (EmptyString, s2)
    | EmptyString => Some (EmptyString, s2)
    end;
  '(exp, s4) ←
    match s3 with
    | String c r =>
        if Ascii.eqb c "e" || Ascii.eqb c "E" then
          match r with
          | String sg r' =>
              if Ascii.eqb sg "+" || Ascii.eqb sg "-" then
                '(ds, rest) ← digits1 r'; Some (String c (String sg ds), rest)
              else '(ds, rest) ← digits1 r; Some (String c ds, rest)
          | EmptyString => None
          end
        else Some (EmptyString, s3)
    | EmptyString => Some (EmptyString, s3)
    end;
  Some (sign +:+ int +:+ frac +:+ exp, s4).

(** [word] at the head of [s], and what follows it. *)
Fixpoint keyword (word s : string) : option string :=
  match word, s with
  | EmptyString, _ => Some s
  | String a w', String b s' => if Ascii.eqb a b then keyword w' s' else None
  | String _ _, EmptyString => None
  end.

(** A value at the head of [s] (no white space before it), and the rest of
    the text.  [fuel] bounds the depth of the calls; every call but the
    first one of an array or object stands behind a consumed character. *)
Fixpoint parseValue (fuel : nat) (s : string) : option (json * string) :=
  match fuel with
  | O => None
  | S fuel' =>
      match s with
      | EmptyString => None
      | String c r =>
          if Ascii.eqb c "{" then
            match skipWs r with
            | String c1 r1 =>
                if Ascii.eqb c1 "}" then Some (JObject [], r1)
                else parseMembers fuel' (String c1 r1) []
            | EmptyString => None
            end
          else if Ascii.eqb c "[" then
            match skipWs r with
            | String c1 r1 =>
                if Ascii.eqb c1 "]" then Some (JArray [], r1)
                else parseElements fuel' (String c1 r1) []
            | EmptyString => None
            end
          else if Ascii.eqb c dquote then
            '(str, rest) ← parseChars r; Some (JString str, rest)
          else if Ascii.eqb c "t" then rest ← keyword "true" s; Some (JBool true, rest)
          else if Ascii.eqb c "f" then rest ← keyword "false" s; Some (JBool false, rest)
          else if Ascii.eqb c "n" then rest ← keyword "null" s; Some (JNull, rest)
          else '(lexeme, rest) ← parseNumber s; Some (JNumber lexeme, rest)
      end
  end
with parseMembers (fuel : nat) (s : string) (acc : list (utf16 * json))
    : option (json * string) :=
  match fuel with
  | O => None
  | S fuel' =>
      match s with
      | EmptyString => None
      | String c r =>
          if Ascii.eqb c dquote then
            '(key, r1) ← parseChars r;
            match skipWs r1 with
            | String c2 r2 =>
                if Ascii.eqb c2 ":" then
                  '(v, r3) ← parseValue fuel' (skipWs r2);
                  match skipWs r3 with
                  | String c4 r4 =>
                      if Ascii.eqb c4 "," then parseMembers fuel' (skipWs r4) (acc ++ [(key, v)])
                      else if Ascii.eqb c4 "}" then Some (JObject (acc ++ [(key, v)]), r4)
                      else None
                  | EmptyString => None
                  end
                else None
            | EmptyString => None
            end
          else None
      end
  end
with parseElements (fuel : nat) (s : string) (acc : list json)
    : option (json * string) :=
  match fuel with
  | O => None
  | S fuel' =>
      '(v, r1) ← parseValue fuel' s;
      match skipWs r1 with
      | String c2 r2 =>
          if Ascii.eqb c2 "," then parseElements fuel' (skipWs r2) (acc ++ [v])
          else if Ascii.eqb c2 "]" then Some (JArray (acc ++ [v]), r2)
          else None
      | EmptyString => None
      end
  end.

(** [JSON.parse(text)]: one value with white space around it and nothing
    else; [None] stands for the [SyntaxError]. *)
Definition parse (text : string) : option json :=
  '(v, rest) ← parseValue (2 * String.length text + 2) (skipWs text);
  match skipWs rest with
  | EmptyString => Some v
  | String _ _ => None
  end.

(** The own property [key] of an object built by [JSON.parse]: of two
    members with one name the later one stays. *)
Fixpoint getMember (key : utf16) (members : list (utf16 * json)) : option json :=
  match members with
  | [] => None
  | (k, v) :: rest =>
      match getMember key rest with
      | Some v' => Some v'
      | None => if utf16_eqb k key then Some v else None
      end
  end.

End JSON.

(** ** Server descriptors ([src/config.ts]) *)

Module Config.

Inductive TransportKind : Type := stdio | http.

(** [interface ServerConfig]; an optional field is an [option], a
    [Record<string, string>] is a finite map. *)
Record ServerConfig : Type := {
  name : string;
  transport : TransportKind;
  command : option string;
  args : option (list string);
  env : option (gmap string string);
  url : option string;
  headers : option (gmap string string);
  authTokenCommand : option string;
  authTokenArgs : option (list string);
  authTokenRefreshArgs : option (list string);
  authTokenHeader : option string;
  authTokenPrefix : option string;
  authTokenTtlSeconds : option float
}.

End Config.

(** ** A [Map] with string keys

    A JavaScript [Map] keeps its keys in the order of their first insertion,
    and [closeAll] walks them in that order. *)

Module JsMap.

Section WithValue.
Context {V : Type}.

Fixpoint get (k : string) (m : list (string * V)) : option V :=
  match m with
  | [] => None
  | (k', v) :: rest => if String.eqb k' k then Some v else get k rest
  end.

(** [m.set(k, v)]: a key already there keeps its place. *)
Fixpoint set (k : string) (v : V) (m : list (string * V)) : list (string * V) :=
  match m with
  | [] => [(k, v)]
  | (k', v') :: rest =>
      if String.eqb k' k then (k, v) :: rest else (k', v') :: set k v rest
  end.

Fixpoint delete (k : string) (m : list (string * V)) : list (string * V) :=
  match m with
  | [] => []
  | (k', v) :: rest =>
      if String.eqb k' k then delete k rest else (k', v) :: delete k rest
  end.

Definition keys (m : list (string * V)) : list string := map fst m.

(** In-place update of the object stored under [k], when there is one. *)
Fixpoint update (k : string) (f : V → V) (m : list (string * V)) : list (string * V) :=
  match m with
  | [] => []
  | (k', v) :: rest =>
      if String.eqb k' k then (k', f v) :: rest else (k', v) :: update k f rest
  end.
End WithValue.

End JsMap.

(** ** The pool ([src/mcp-client.ts]) *)

Module McpClientPool.
Import JsString JsNumber JsError JSON Config.

(** *** Objects and state *)

(** What a transport object was constructed from. *)
Inductive TransportSpec : Type :=
| StdioClientTransport (command : option string) (args : option (list string))
    (env : gmap string string)
| StreamableHTTPClientTransport (url : string) (headers : option (gmap string utf16)).

(** A transport in the store.  The only closures this class ever assigns to
    its hooks are [() => this.markDisconnected(config.name)]; a hook that is
    set is kept as the name it captured. *)
Record TransportObject : Type := {
  built : TransportSpec;
  onerror : option string;
  onclose : option string
}.

Inductive HookKind : Type := OnError | OnClose.

Record ClientEntry : Type := {
  config : ServerConfig;
  client : nat;
  transport : nat;
  connected : bool
}.

Record ConnectOptions : Type := { forceRefreshToken : option bool }.

Record TokenCacheEntry : Type := { token : utf16; fetchedAtMs : float }.

(** What the pool does to the outside, in the order it does it.
    [EvCreateTransport] is a marker: it records that [createTransport] was
    entered, for which server and with which value of the refresh flag. *)
Inductive event : Type :=
| EvDateNow
| EvConsoleLog (line : string)
| EvExecFile (command : string) (args : list string) (env : gmap string string)
| EvNewClient (c : nat)
| EvCreateTransport (config : ServerConfig) (forced : bool)
| EvNewTransport (t : nat) (spec : TransportSpec)
| EvClientConnect (c t : nat)
| EvClientListTools (c : nat)
| EvClientCallTool (c : nat) (toolName : string) (arguments : json)
| EvTransportClose (t : nat).

(** How an awaited call of a collaborator ends, and which transport hooks
    ran while the caller was suspended. *)
Record answer (A : Type) : Type := {
  outcome : thrown + A;
  fired : list (HookKind * nat)
}.
Arguments outcome {A} _.
Arguments fired {A} _.

(** What the callback of [execFile] receives: the message of [err] when the
    command failed (exit status, timeout, output over the cap), and the two
    captured streams. *)
Record ExecResult : Type := {
  exec_error : option string;
  stdout : string;
  stderr : string
}.

(** The collaborators.  Each answer is a function of the events so far. *)
Record Env : Type := {
  process_env : gmap string string;
  URL_valid : string → bool;
  Date_now : list event → float;
  execFile : list event → string → list string → gmap string string →
             ExecResult * list (HookKind * nat);
  client_connect : list event → nat → nat → answer unit;
  client_listTools : list event → nat → answer (list json);
  client_callTool : list event → nat → string → json → answer json;
  transport_close : list event → nat → answer unit
}.

Record World : Type := {
  clients : list (string * ClientEntry);
  tokenCache : gmap string TokenCacheEntry;
  transports : list TransportObject;
  nextClient : nat;
  trace : list event
}.

Definition with_clients (f : list (string * ClientEntry) → list (string * ClientEntry))
    (w : World) : World :=
  {| clients := f (clients w); tokenCache := tokenCache w; transports := transports w;
     nextClient := nextClient w; trace := trace w |}.

Definition with_tokenCache (f : gmap string TokenCacheEntry → gmap string TokenCacheEntry)
    (w : World) : World :=
  {| clients := clients w; tokenCache := f (tokenCache w); transports := transports w;
     nextClient := nextClient w; trace := trace w |}.

Definition with_transports (f : list TransportObject → list TransportObject)
    (w : World) : World :=
  {| clients := clients w; tokenCache := tokenCache w; transports := f (transports w);
     nextClient := nextClient w; trace := trace w |}.

Definition with_trace (f : list event → list event) (w : World) : World :=
  {| clients := clients w; tokenCache := tokenCache w; transports := transports w;
     nextClient := nextClient w; trace := f (trace w) |}.

(** [new McpClientPool()] *)
Definition emptyPool : World :=
  {| clients := []; tokenCache := ∅; transports := []; nextClient := 0%nat; trace := [] |}.

(** *** Computations: state, and a value or a thrown error *)

Inductive completion (A : Type) : Type :=
| Return (a : A)
| Throw (err : thrown).
Arguments Return {A} _.
Arguments Throw {A} _.

Definition M (A : Type) : Type := World → completion A * World.

Definition ret {A} (a : A) : M A := fun w => (Return a, w).
Definition throw {A} (err : thrown) : M A := fun w => (Throw err, w).

Definition bind {A B} (m : M A) (k : A → M B) : M B :=
  fun w =>
    match m w with
    | (Return a, w') => k a w'
    | (Throw err, w') => (Throw err, w')
    end.

(** [try { m } catch (err) { handler err }] *)
Definition tryCatch {A} (m : M A) (handler : thrown → M A) : M A :=
  fun w =>
    match m w with
    | (Return a, w') => (Return a, w')
    | (Throw err, w') => handler err w'
    end.

Definition gets {A} (f : World → A) : M A := fun w => (Return (f w), w).
Definition modify (f : World → World) : M unit := fun w => (Return tt, f w).

Notation "'let*' x ':=' m 'in' k" := (bind m (fun x => k))
  (at level 10, x name, m at level 100, k at level 200).
Notation "m ';;' k" := (bind m (fun _ => k))
  (at level 100, k at level 200, right associativity).

Definition emit (ev : event) : M unit := modify (with_trace (fun tr => tr ++ [ev])).

(** *** Methods that touch the registry only *)

(** [markDisconnected(serverName)] *)
Definition markDisconnected (serverName : string) (w : World) : World :=
  with_clients
    (JsMap.update serverName
       (fun entry => {| config := config entry; client := client entry;
                        transport := transport entry; connected := false |}))
    w.

Definition hookOf (kind : HookKind) (obj : TransportObject) : option string :=
  match kind with OnError => onerror obj | OnClose => onclose obj end.

(** A transport calls the hook [kind] of object [t], if one is set. *)
Definition fireHook (h : HookKind * nat) (w : World) : World :=
  match transports w !! h.2 with
  | Some obj =>
      match hookOf h.1 obj with
      | Some serverName => markDisconnected serverName w
      | None => w
      end
  | None => w
  end.

Definition fireHooks (hs : list (HookKind * nat)) (w : World) : World :=
  foldl (fun w h => fireHook h w) w hs.

(** [getStatus(serverName)]; the result stands for [{ connected }]. *)
Definition getStatus (serverName : string) (w : World) : bool :=
  match JsMap.get serverName (clients w) with
  | Some entry => connected entry
  | None => false
  end.

(** *** Pure methods *)

(** [isConnectionError(err)] *)
Definition isConnectionError (err : thrown) : bool :=
  let msg := String_of err in
  includes msg "closed" || includes msg "ECONNREFUSED" || includes msg "EPIPE".

(** [isAuthError(err)] *)
Definition isAuthError (err : thrown) : bool :=
  let msg := toLowerCase (String_of err) in
  includes msg "invalid_token" ||
  includes msg "unauthorized" ||
  includes msg "401" ||
  includes msg "authentication" ||
  includes msg "access token".

(** [usesAuthTokenCommand(config)] *)
Definition usesAuthTokenCommand (config : ServerConfig) : bool :=
  match Config.transport config with
  | http =>
      match authTokenCommand config with
      | Some cmd => truthy cmd
      | None => false
      end
  | stdio => false
  end.

(** [getTokenTtlMs(config)] *)
Definition getTokenTtlMs (config : ServerConfig) : float :=
  let ttlSeconds := default 2700%float (authTokenTtlSeconds config) in
  (Math_max 1 ttlSeconds * 1000)%float.

(** [typeof v === "string" && v], as a truth value: the string when [v] is
    a string that is not empty. *)
Definition usableString (v : option json) : option utf16 :=
  match v with
  | Some (JString s) => if truthy16 s then Some s else None
  | _ => None
  end.

(** The body of each [try] block of [extractToken].  [None] is both a
    [catch] (the text is no JSON, or it is [null] and reading a property of
    it throws) and a [fromJson] that is not truthy.  A number, a string, a
    boolean or an array has none of the three properties. *)
Definition fromJson (text : string) : option utf16 :=
  match JSON.parse text with
  | Some (JObject members) =>
      match usableString (getMember (utf16_of "access_token") members) with
      | Some t => Some t
      | None =>
          match usableString (getMember (utf16_of "token") members) with
          | Some t => Some t
          | None => usableString (getMember (utf16_of "bearer") members)
          end
      end
  | _ => None
  end.

(** The [for] loop of [extractToken] over its candidates. *)
Fixpoint scanCandidates (candidates : list string) : option utf16 :=
  match candidates with
  | [] => None
  | candidate :: rest =>
      match fromJson candidate with
      | Some t => Some t
      | None => scanCandidates rest
      end
  end.

Definition nonEmptyLines (raw : string) : list string :=
  filter (fun line => truthy line = true) (map trim (splitLines raw)).

(** [extractToken(raw)]; [None] is [null]. *)
Definition extractToken (raw : string) : option utf16 :=
  let lines := nonEmptyLines raw in
  match scanCandidates (rev lines) with
  | Some t => Some t
  | None =>
      match fromJson raw with
      | Some t => Some t
      | None => utf16_of <$> last lines
      end
  end.

Definition emptyOutputError : thrown := newError "token command returned empty output".
Definition unusableTokenError : thrown := newError "token command did not return a usable token".
Definition commandFailedError (stderr message : string) : thrown :=
  newError ("token command failed: " +:+
            join " | " (filter (fun s => truthy s = true) [stderr; message])).

(** The callback that [runTokenCommand] hands to [execFile]. *)
Definition tokenCommandCallback (r : ExecResult) : completion utf16 :=
  match exec_error r with
  | Some message => Throw (commandFailedError (stderr r) message)
  | None =>
      let raw := trim (stdout r) in
      if negb (truthy raw) then Throw emptyOutputError
      else
        match extractToken raw with
        | Some token =>
            if negb (truthy16 token) then Throw unusableTokenError else Return token
        | None => Throw unusableTokenError
        end
  end.

Definition unknownServerError (serverName : string) : thrown :=
  newError ("Unknown server: " +:+ serverName).

(** [options?.forceRefreshToken] as a truth value. *)
Definition forced (options : option ConnectOptions) : bool :=
  match options with
  | Some o => default false (forceRefreshToken o)
  | None => false
  end.

Definition isStdio (spec : TransportSpec) : bool :=
  match spec with
  | StdioClientTransport _ _ _ => true
  | StreamableHTTPClientTransport _ _ => false
  end.

(** [obj[key] = value] for an object [obj] made by an object literal and a
    [value] that is a string.  The name [__proto__] is special: an object
    that has no property of its own under it inherits a setter for it, and
    the assignment runs that setter, which does nothing with a string; no
    property is made.  Where the object has the property, it is
    overwritten as any other. *)
Definition assign {V} (key : string) (value : V) (obj : gmap string V) : gmap string V :=
  if String.eqb key "__proto__" && negb (bool_decide (is_Some (obj !! key))) then obj
  else <[key := value]> obj.

(** *** Methods that call the collaborators *)

Section WithEnv.
Variable E : Env.

(** An awaited call: the event is recorded, the hooks that ran during the
    suspension have had their effect, and the call returns or throws. *)
Definition await {A} (ev : event) (ask : list event → answer A) : M A :=
  fun w =>
    let a := ask (trace w) in
    let w' := fireHooks (fired a) (with_trace (fun tr => tr ++ [ev]) w) in
    match outcome a with
    | inl err => (Throw err, w')
    | inr v => (Return v, w')
    end.

(** [Date.now()] *)
Definition now : M float :=
  fun w => (Return (Date_now E (trace w)), with_trace (fun tr => tr ++ [EvDateNow]) w).

(** [runTokenCommand(command, args, env)] *)
Definition runTokenCommand (command : string) (args : list string)
    (env : option (gmap string string)) : M utf16 :=
  fun w =>
    let env' := default ∅ env ∪ process_env E in
    let '(r, hooks) := execFile E (trace w) command args env' in
    let w' := fireHooks hooks
                (with_trace (fun tr => tr ++ [EvExecFile command args env']) w) in
    (tokenCommandCallback r, w').

(** [getAuthToken(config, forceRefresh)].  It is called for a server
    that uses the token command only, so the command is there. *)
Definition getAuthToken (config : ServerConfig) (forceRefresh : bool) : M utf16 :=
  let* cache := gets (fun w => tokenCache w !! Config.name config) in
  let* now := now in
  let refresh : M utf16 :=
    let args :=
      default [] (authTokenArgs config) ++
      (if forceRefresh then default [] (authTokenRefreshArgs config) else []) in
    emit (EvConsoleLog
            ("[mcp-adapter] " +:+ Config.name config +:+ ": requesting OAuth token" +:+
             (if forceRefresh then " (forced refresh)" else EmptyString))) ;;
    let* token :=
      runTokenCommand (default EmptyString (authTokenCommand config)) args
        (Config.env config) in
    modify (with_tokenCache
              <[Config.name config := {| token := token; fetchedAtMs := now |}]>) ;;
    ret token in
  match cache with
  | Some c =>
      if negb forceRefresh && (now - fetchedAtMs c <? getTokenTtlMs config)%float
      then ret (token c)
      else refresh
  | None => refresh
  end.

(** [buildHttpHeaders(config, options)]; [None] is [undefined].  The
    spread copies the properties of the configured headers, the one
    named [__proto__] as any other. *)
Definition buildHttpHeaders (config : ServerConfig) (options : option ConnectOptions)
    : M (option (gmap string utf16)) :=
  let headers : gmap string utf16 := utf16_of <$> default ∅ (Config.headers config) in
  if negb (usesAuthTokenCommand config) then
    ret (if bool_decide (headers = ∅) then None else Some headers)
  else
    let* token := getAuthToken config (forced options) in
    let headerName :=
      match authTokenHeader config with
      | Some h => if truthy h then h else "Authorization"
      | None => "Authorization"
      end in
    let prefix := default "Bearer" (authTokenPrefix config) in
    ret (Some (assign headerName
                 (if truthy prefix then utf16_of (prefix +:+ " ") ++ token else token)
                 headers)).

(** [new URL(config.url!)]: a text that is no URL throws a [TypeError]. *)
Definition new_URL (url : option string) : M string :=
  let text := default "undefined" url in
  if URL_valid E text then ret text else throw (ErrorObject "TypeError" "Invalid URL").

(** A constructor call of a transport class: a new object, no hook set. *)
Definition newTransport (spec : TransportSpec) : M nat :=
  let* t := gets (fun w => length (transports w)) in
  modify (with_transports
            (fun ts => ts ++ [{| built := spec; onerror := None; onclose := None |}])) ;;
  emit (EvNewTransport t spec) ;;
  ret t.

(** [createTransport(config, options)] *)
Definition createTransport (config : ServerConfig) (options : option ConnectOptions)
    : M nat :=
  emit (EvCreateTransport config (forced options)) ;;
  match Config.transport config with
  | http =>
      let* headers := buildHttpHeaders config options in
      let* url := new_URL (Config.url config) in
      newTransport (StreamableHTTPClientTransport url headers)
  | stdio =>
      newTransport
        (StdioClientTransport (Config.command config) (Config.args config)
           (default ∅ (Config.env config) ∪ process_env E))
  end.

(** [new Client(...)] *)
Definition newClient : M nat :=
  let* c := gets nextClient in
  modify (fun w =>
            {| clients := clients w; tokenCache := tokenCache w;
               transports := transports w; nextClient := S (nextClient w);
               trace := trace w ++ [EvNewClient c] |}) ;;
  ret c.

(** [await transport.close?.()] inside [try { } catch { }] with an empty
    handler.  Both transport classes have a [close] method. *)
Definition closeIgnoringErrors (t : nat) : M unit :=
  tryCatch (await (EvTransportClose t) (fun tr => transport_close E tr t))
           (fun _ => ret tt).

(** The two assignments [transport.onerror = ...] and
    [transport.onclose = ...] of [connect]. *)
Definition setHooks (t : nat) (serverName : string) : M unit :=
  modify (with_transports
            (fun ts =>
               match ts !! t with
               | Some obj =>
                   <[t := {| built := built obj; onerror := Some serverName;
                             onclose := Some serverName |}]> ts
               | None => ts
               end)).

(** [connect(config, options)] *)
Definition connect (config : ServerConfig) (options : option ConnectOptions) : M nat :=
  let* client := newClient in
  let* transport0 := createTransport config options in
  let* transport :=
    tryCatch
      (await (EvClientConnect client transport0)
             (fun tr => client_connect E tr client transport0) ;;
       ret transport0)
      (fun err =>
         if usesAuthTokenCommand config && isAuthError err && negb (forced options) then
           closeIgnoringErrors transport0 ;;
           let* transport1 :=
             createTransport config (Some {| forceRefreshToken := Some true |}) in
           await (EvClientConnect client transport1)
                 (fun tr => client_connect E tr client transport1) ;;
           ret transport1
         else throw err) in
  let* obj := gets (fun w => transports w !! transport) in
  (if from_option (fun o => isStdio (built o)) false obj
   then setHooks transport (Config.name config)
   else ret tt) ;;
  modify (with_clients
            (JsMap.set (Config.name config)
               {| config := config; client := client; transport := transport;
                  connected := true |})) ;;
  ret client.

(** [reconnect(serverName, options)] *)
Definition reconnect (serverName : string) (options : option ConnectOptions) : M unit :=
  let* entry := gets (fun w => JsMap.get serverName (clients w)) in
  match entry with
  | None => ret tt
  | Some entry =>
      closeIgnoringErrors (transport entry) ;;
      connect (config entry) options ;;
      ret tt
  end.

(** [this.clients.get(serverName)!] followed by a use of the entry. *)
Definition withEntry {A} (serverName : string) (k : ClientEntry → M A) : M A :=
  let* entry := gets (fun w => JsMap.get serverName (clients w)) in
  match entry with
  | Some entry => k entry
  | None =>
      throw (ErrorObject "TypeError"
               "Cannot read properties of undefined (reading 'client')")
  end.

Definition client_listTools_of (entry : ClientEntry) : M (list json) :=
  await (EvClientListTools (client entry))
        (fun tr => client_listTools E tr (client entry)).

Definition client_callTool_of (entry : ClientEntry) (toolName : string) (args : json)
    : M json :=
  await (EvClientCallTool (client entry) toolName args)
        (fun tr => client_callTool E tr (client entry) toolName args).

(** [entry.connected] read after the awaited call.  [entry] is the object
    taken from the registry before the call; nothing but a hook touches
    the registry during the call, and a hook updates that very object, so
    the flag is the one the registry holds under the name. *)
Definition connectedNow (serverName : string) : M bool :=
  gets (fun w => from_option connected false (JsMap.get serverName (clients w))).

(** [listTools(serverName)] *)
Definition listTools (serverName : string) : M (list json) :=
  let* entry := gets (fun w => JsMap.get serverName (clients w)) in
  match entry with
  | None => throw (unknownServerError serverName)
  | Some entry =>
      tryCatch (client_listTools_of entry)
        (fun err =>
           if usesAuthTokenCommand (config entry) && isAuthError err then
             reconnect serverName (Some {| forceRefreshToken := Some true |}) ;;
             withEntry serverName (fun refreshed => client_listTools_of refreshed)
           else
             let* isConnected := connectedNow serverName in
             if negb isConnected || isConnectionError err then
               reconnect serverName None ;;
               withEntry serverName (fun refreshed => client_listTools_of refreshed)
             else throw err)
  end.

(** [callTool(serverName, toolName, args)] *)
Definition callTool (serverName toolName : string) (args : json) : M json :=
  let* entry := gets (fun w => JsMap.get serverName (clients w)) in
  match entry with
  | None => throw (unknownServerError serverName)
  | Some entry =>
      tryCatch (client_callTool_of entry toolName args)
        (fun err =>
           if usesAuthTokenCommand (config entry) && isAuthError err then
             reconnect serverName (Some {| forceRefreshToken := Some true |}) ;;
             withEntry serverName
               (fun refreshed => client_callTool_of refreshed toolName args)
           else
             let* isConnected := connectedNow serverName in
             if negb isConnected || isConnectionError err then
               reconnect serverName None ;;
               withEntry serverName
                 (fun refreshed => client_callTool_of refreshed toolName args)
             else throw err)
  end.

(** [close(serverName)] *)
Definition close (serverName : string) : M unit :=
  let* entry := gets (fun w => JsMap.get serverName (clients w)) in
  match entry with
  | None => ret tt
  | Some entry =>
      closeIgnoringErrors (transport entry) ;;
      modify (with_clients (JsMap.delete serverName))
  end.

Fixpoint closeEach (names : list string) : M unit :=
  match names with
  | [] => ret tt
  | name :: rest => close name ;; closeEach rest
  end.

(** [closeAll()].  The loop walks the keys of the live map; [close]
    deletes only the key being visited, so the keys visited are the keys
    at the start, in their order. *)
Definition closeAll : M unit :=
  let* names := gets (fun w => JsMap.keys (clients w)) in
  closeEach names.

End WithEnv.

End McpClientPool.

(** ** Placeholders in the configuration ([src/config.ts]) *)

Module Interpolation.
Import JsString.

Definition isCloseBrace (c : ascii) : bool := Ascii.eqb c "}".

(** The code units up to the first closing brace, and the text after that
    brace; [None] when there is no closing brace. *)
Fixpoint upToBrace (s : string) : option (string * string) :=
  match s with
  | EmptyString => None
  | String c s' =>
      if isCloseBrace c then Some (EmptyString, s')
      else
        match upToBrace s' with
        | Some (name, rest) => Some (String c name, rest)
        | None => None
        end
  end.

(** The pattern of [interpolateString] tried at the start of [s]: a dollar
    sign, an opening brace, one or more code units other than a closing
    brace (as many as there are, the class leaves no other choice), and a
    closing brace.  The result is the captured group and the text after
    the match. *)
Definition matchAt (s : string) : option (string * string) :=
  match s with
  | String "$" (String "{" s') =>
      match upToBrace s' with
      | Some (String c name, rest) => Some (String c name, rest)
      | _ => None
      end
  | _ => None
  end.

Section WithProcessEnv.
(** [process.env[name]] as the replacer reads it: [None] when it is
    [undefined] or [null], and the text [replace] makes of it
    otherwise.  The lookup finds the variables that are set, and under
    a name that is no variable what the object inherits, [toString]
    or [constructor] for one. *)
Variable getenv : string → option string.

(** [v.replace(pattern, replacer)] with the flag [g]: the matches are
    looked for from left to right; a match gives way to what the
    replacer returns, which is not searched again, and the search goes
    on behind the match; a code unit at which no match starts is
    copied.  Every step passes a code unit at least, so the length of
    the text is fuel enough. *)
Fixpoint replaceAll (fuel : nat) (v : string) : string :=
  match fuel with
  | O => v
  | S fuel' =>
      match matchAt v with
      | Some (name, rest) => default EmptyString (getenv name) +:+ replaceAll fuel' rest
      | None =>
          match v with
          | EmptyString => EmptyString
          | String c v' => String c (replaceAll fuel' v')
          end
      end
  end.

(** [interpolateString(v)] *)
Definition interpolateString (v : string) : string := replaceAll (String.length v) v.

(** [interpolateEnv(obj)].  The result starts as an empty object literal
    and is filled by assignment; an assignment of a string to the key
    [__proto__] of such an object reaches the setter it inherits, which
    ignores a string, and creates no property. *)
Definition interpolateEnv (obj : gmap string string) : gmap string string :=
  interpolateString <$> delete "__proto__" obj.
End WithProcessEnv.

End Interpolation.

(** ** Configuration data and [parseConfig] ([src/config.ts])

    [parseConfig] takes a value of type [unknown].  A configuration is
    data: [undefined], [null], a boolean, a number, a string, an array, or a
    plain object as [JSON.parse] makes one.  The numbers are those of the
    runtime, with the few conversions that [parseConfig] applies to them. *)

Module JsValue.
Import JsString.

Record Numbers : Type := {
  number : Type;
  (** [!n]: the number is a zero or [NaN] *)
  isZeroOrNaN : number → bool;
  (** [String(n)] *)
  Number_toString : number → string;
  (** [Number(s)] of a string *)
  Number_ofString : string → number;
  (** [Number(b)] of a boolean *)
  Number_ofBool : bool → number
}.

Section WithNumbers.
Variable R : Numbers.

(** An object is the list of its own properties as they were written;
    of two with one name the later one stays. *)
Inductive value : Type :=
| VUndefined
| VNull
| VBool (b : bool)
| VNumber (n : number R)
| VString (s : string)
| VArray (items : list value)
| VObject (props : list (string * value)).

Definition hasOwn (key : string) (props : list (string * value)) : bool :=
  existsb (fun p => String.eqb p.1 key) props.

Fixpoint getOwn (key : string) (props : list (string * value)) : option value :=
  match props with
  | [] => None
  | (k, v) :: rest =>
      match getOwn key rest with
      | Some v' => Some v'
      | None => if String.eqb k key then Some v else None
      end
  end.

(** [Boolean(v)]; [!v] is its negation. *)
Definition truthy (v : value) : bool :=
  match v with
  | VUndefined | VNull => false
  | VBool b => b
  | VNumber n => negb (isZeroOrNaN R n)
  | VString s => JsString.truthy s
  | VArray _ | VObject _ => true
  end.

(** [v ?? d] *)
Definition orElse (v d : value) : value :=
  match v with VUndefined | VNull => d | _ => v end.

(** [v === s] for a string [s] *)
Definition isString (v : value) (s : string) : bool :=
  match v with VString x => String.eqb x s | _ => false end.

(** [String(v)], and [v] in a template literal; [None] is the
    [TypeError] of an object that cannot be converted.  An array is the
    texts of its elements joined by commas, [null] and [undefined]
    giving the empty text there.  A plain object is
    [[object Object]], by the [toString] it inherits; with an own
    property [toString], which is no function in data, the conversion
    finds no method and throws. *)
Fixpoint String_of (v : value) : option string :=
  match v with
  | VUndefined => Some "undefined"
  | VNull => Some "null"
  | VBool b => Some (if b then "true" else "false")
  | VNumber n => Some (Number_toString R n)
  | VString s => Some s
  | VArray items =>
      option_map (join ",")
        ((fix elements (l : list value) : option (list string) :=
            match l with
            | [] => Some []
            | x :: l' =>
                match (match x with
                       | VUndefined | VNull => Some EmptyString
                       | _ => String_of x
                       end), elements l' with
                | Some s, Some r => Some (s :: r)
                | _, _ => None
                end
            end) items)
  | VObject props => if hasOwn "toString" props then None else Some "[object Object]"
  end.

(** [v[key]] for a [v] that is neither [null] nor [undefined], and a
    [key] among the names that [parseConfig] reads: none of them is a
    property of a string, a number, a boolean or an array, and a plain
    object inherits none of them. *)
Definition prop (key : string) (v : value) : value :=
  match v with
  | VObject props => default VUndefined (getOwn key props)
  | _ => VUndefined
  end.

(** What [for (const s of v)] walks, for a [v] that is neither [null]
    nor [undefined]: the elements of an array, the code units of a
    string; nothing else is iterable. *)
Definition iterate (v : value) : option (list value) :=
  match v with
  | VArray items => Some items
  | VString s => Some (map (fun c => VString (String c EmptyString)) (list_ascii_of_string s))
  | _ => None
  end.

(** The own properties of an object, each name once. *)
Fixpoint ownProperties (props : list (string * value)) : list (string * value) :=
  match props with
  | [] => []
  | (k, v) :: rest =>
      if hasOwn k rest then ownProperties rest else (k, v) :: ownProperties rest
  end.

(** [Object.entries(v)] for a [v] that is neither [null] nor
    [undefined]: the own properties of an object, the elements of an
    array and the code units of a string under their indices, and
    nothing for a boolean or a number.  The properties stand in the
    order of their writing; the runtime puts names that are indices
    first, which the one loop over them, filling a map from distinct
    names, cannot tell. *)
Definition entries (v : value) : list (string * value) :=
  match v with
  | VObject props => ownProperties props
  | VArray items => imap (fun i x => (pretty i, x)) items
  | VString s =>
      imap (fun i c => (pretty i, VString (String c EmptyString))) (list_ascii_of_string s)
  | _ => []
  end.
End WithNumbers.

Arguments VUndefined {R}.
Arguments VNull {R}.
Arguments VBool {R} _.
Arguments VNumber {R} _.
Arguments VString {R} _.
Arguments VArray {R} _.
Arguments VObject {R} _.
Arguments hasOwn {R} _ _.
Arguments getOwn {R} _ _.
Arguments truthy {R} _.
Arguments orElse {R} _ _.
Arguments isString {R} _ _.
Arguments String_of {R} _.
Arguments prop {R} _ _.
Arguments iterate {R} _.
Arguments ownProperties {R} _.
Arguments entries {R} _.

End JsValue.

Module ParseConfig.
Import JsString JsValue.

(** What [parseConfig] throws: one of its own errors, or a [TypeError]
    of the runtime, whose message is the engine's. *)
Inductive failure : Type :=
| ConfigError (message : string)
| TypeError.

Definition andThen {A B} (x : failure + A) (k : A → failure + B) : failure + B :=
  match x with
  | inl e => inl e
  | inr a => k a
  end.

Notation "'let?' x ':=' m 'in' k" := (andThen m (fun x => k))
  (at level 10, x name, m at level 100, k at level 200).

Definition orTypeError {A} (x : option A) : failure + A :=
  match x with
  | Some a => inr a
  | None => inl TypeError
  end.

Definition quoted (s : string) : string :=
  String JSON.dquote EmptyString +:+ s +:+ String JSON.dquote EmptyString.

Definition missingName : failure := ConfigError "Server missing 'name'".
Definition missingCommand (name : string) : failure :=
  ConfigError ("Server " +:+ quoted name +:+ " missing 'command'").
Definition missingUrl (name : string) : failure :=
  ConfigError ("Server " +:+ quoted name +:+ " missing 'url'").
Definition missingTokenCommand (name : string) : failure :=
  ConfigError ("Server " +:+ quoted name +:+ " has authToken* settings but no authTokenCommand").

Section WithRuntime.
Variable R : Numbers.
Variable getenv : string → option string.

(** An element of [servers] in the result.  The field [transport] is
    what the configuration holds, or [stdio]: [parseConfig] casts it
    and does not check it. *)
Record ParsedServer : Type := {
  name : string;
  transport : value R;
  command : option string;
  args : option (list string);
  env : option (gmap string string);
  url : option string;
  headers : option (gmap string string);
  authTokenCommand : option string;
  authTokenArgs : option (list string);
  authTokenRefreshArgs : option (list string);
  authTokenHeader : option string;
  authTokenPrefix : option string;
  authTokenTtlSeconds : option (number R)
}.

Fixpoint traverse {A B} (f : A → failure + B) (l : list A) : failure + list B :=
  match l with
  | [] => inr []
  | x :: rest =>
      let? y := f x in
      let? ys := traverse f rest in
      inr (y :: ys)
  end.

(** [interpolateArray(values)]; the inner [None] is [undefined]. *)
Definition interpolateArray (values : value R) : failure + option (list string) :=
  match values with
  | VArray items =>
      let? texts :=
        traverse (fun v => let? text := orTypeError (String_of v) in
                           inr (Interpolation.interpolateString getenv text)) items in
      inr (Some texts)
  | _ => inr None
  end.

(** The loop of [interpolateEnv] over the entries of an object whose
    values are not known to be strings: [v.replace] is there for a
    string only.  An assignment to the key [__proto__] of the result
    creates no property. *)
Fixpoint assignAll (es : list (string * value R)) (result : gmap string string)
    : failure + gmap string string :=
  match es with
  | [] => inr result
  | (k, VString s) :: rest =>
      assignAll rest
        (if String.eqb k "__proto__" then result
         else <[k := Interpolation.interpolateString getenv s]> result)
  | _ :: _ => inl TypeError
  end.

(** [interpolateEnv(obj)] for an [obj] that is truthy. *)
Definition interpolateEnv (obj : value R) : failure + gmap string string :=
  assignAll (entries obj) ∅.

(** [v ? String(v) : undefined] *)
Definition textIfTruthy (v : value R) : failure + option string :=
  if truthy v then let? text := orTypeError (String_of v) in inr (Some text)
  else inr None.

Definition envIfTruthy (v : value R) : failure + option (gmap string string) :=
  if truthy v then let? m := interpolateEnv v in inr (Some m) else inr None.

(** The conversion of [authTokenTtlSeconds]: a number as it is,
    nothing for [undefined] and [null], and [Number(v)] otherwise,
    which for an array or an object is the number of its text. *)
Definition ttlOf (v : value R) : failure + option (number R) :=
  match v with
  | VNumber n => inr (Some n)
  | VUndefined | VNull => inr None
  | VBool b => inr (Some (Number_ofBool R b))
  | VString s => inr (Some (Number_ofString R s))
  | VArray _ | VObject _ =>
      let? text := orTypeError (String_of v) in inr (Some (Number_ofString R text))
  end.

(** The body of the loop of [parseConfig], for an element [s] that
    is neither [null] nor [undefined]. *)
Definition serverOf (s : value R) : failure + ParsedServer :=
  if negb (truthy (prop "name" s)) then inl missingName
  else
    let transport := orElse (prop "transport" s) (VString "stdio") in
    if isString transport "stdio" && negb (truthy (prop "command" s)) then
      let? name := orTypeError (String_of (prop "name" s)) in inl (missingCommand name)
    else if isString transport "http" && negb (truthy (prop "url" s)) then
      let? name := orTypeError (String_of (prop "name" s)) in inl (missingUrl name)
    else
      let? authTokenCommand := textIfTruthy (prop "authTokenCommand" s) in
      let? authTokenArgs := interpolateArray (prop "authTokenArgs" s) in
      let? authTokenRefreshArgs := interpolateArray (prop "authTokenRefreshArgs" s) in
      let? authTokenHeader := textIfTruthy (prop "authTokenHeader" s) in
      let? authTokenPrefix := textIfTruthy (prop "authTokenPrefix" s) in
      let? authTokenTtlSeconds := ttlOf (prop "authTokenTtlSeconds" s) in
      if (bool_decide (is_Some authTokenArgs) ||
          bool_decide (is_Some authTokenRefreshArgs) ||
          from_option JsString.truthy false authTokenHeader ||
          from_option JsString.truthy false authTokenPrefix ||
          bool_decide (is_Some authTokenTtlSeconds)) &&
         negb (from_option JsString.truthy false authTokenCommand) then
        let? name := orTypeError (String_of (prop "name" s)) in
        inl (missingTokenCommand name)
      else
        let? name := orTypeError (String_of (prop "name" s)) in
        let? command := textIfTruthy (prop "command" s) in
        let? args := interpolateArray (prop "args" s) in
        let? env := envIfTruthy (prop "env" s) in
        let? url :=
          (let? text := textIfTruthy (prop "url" s) in
           inr (option_map (Interpolation.interpolateString getenv) text)) in
        let? headers := envIfTruthy (prop "headers" s) in
        inr {| name := name; transport := transport; command := command;
               args := args; env := env; url := url; headers := headers;
               authTokenCommand := authTokenCommand;
               authTokenArgs := authTokenArgs;
               authTokenRefreshArgs := authTokenRefreshArgs;
               authTokenHeader := authTokenHeader;
               authTokenPrefix := authTokenPrefix;
               authTokenTtlSeconds := authTokenTtlSeconds |}.

(** One turn of the loop: reading a property of [null] or of
    [undefined] throws. *)
Definition parseServer (s : value R) : failure + ParsedServer :=
  match s with
  | VUndefined | VNull => inl TypeError
  | _ => serverOf s
  end.

(** [parseConfig(raw)]: the servers, and [toolPrefix]. *)
Definition parseConfig (raw : value R) : failure + (list ParsedServer * bool) :=
  let cfg := orElse raw (VObject []) in
  let? items :=
    match prop "servers" cfg with
    | VUndefined | VNull => inr []
    | servers => orTypeError (iterate servers)
    end in
  let? servers := traverse parseServer items in
  inr (servers,
       match prop "toolPrefix" cfg with
       | VBool false => false
       | _ => true
       end).
End WithRuntime.

Arguments name {R} _.
Arguments transport {R} _.
Arguments command {R} _.
Arguments args {R} _.
Arguments env {R} _.
Arguments url {R} _.
Arguments headers {R} _.
Arguments authTokenCommand {R} _.
Arguments authTokenArgs {R} _.
Arguments authTokenRefreshArgs {R} _.
Arguments authTokenHeader {R} _.
Arguments authTokenPrefix {R} _.
Arguments authTokenTtlSeconds {R} _.

(** *** What the result promises, and what the types ask *)

Section Promises.
Context {R : Numbers}.

(** One of the [authToken*] settings is there, an empty text not
    counting for the header and the prefix. *)
Definition hasAuthSettings (p : ParsedServer R) : Prop :=
  is_Some (authTokenArgs p) ∨ is_Some (authTokenRefreshArgs p) ∨
  (∃ h, authTokenHeader p = Some h ∧ h ≠ EmptyString) ∨
  (∃ x, authTokenPrefix p = Some x ∧ x ≠ EmptyString) ∨
  is_Some (authTokenTtlSeconds p).

(** What [parseConfig] has checked of a server it returns. *)
Definition checked (p : ParsedServer R) : Prop :=
  (transport p = VString "stdio" → is_Some (command p)) ∧
  (transport p = VString "http" → is_Some (url p)) ∧
  (hasAuthSettings p →
   ∃ cmd, authTokenCommand p = Some cmd ∧ cmd ≠ EmptyString).

Definition isText (v : value R) : Prop := ∃ s, v = VString s.
Definition isTexts (v : value R) : Prop :=
  ∃ items, v = VArray items ∧ Forall isText items.
Definition isRecord (v : value R) : Prop :=
  ∃ props, v = VObject props ∧ Forall (fun p => isText p.2) props.
Definition isNumber (v : value R) : Prop := ∃ n, v = VNumber n.
Definition optional (P : value R → Prop) (v : value R) : Prop :=
  v = VUndefined ∨ P v.

(** The element [s] is an object whose properties have the types that
    [interface ServerConfig] declares. *)
Definition declared (s : value R) : Prop :=
  (∃ props, s = VObject props) ∧
  isText (prop "name" s) ∧
  optional isText (prop "transport" s) ∧
  optional isText (prop "command" s) ∧
  optional isTexts (prop "args" s) ∧
  optional isRecord (prop "env" s) ∧
  optional isText (prop "url" s) ∧
  optional isRecord (prop "headers" s) ∧
  optional isText (prop "authTokenCommand" s) ∧
  optional isTexts (prop "authTokenArgs" s) ∧
  optional isTexts (prop "authTokenRefreshArgs" s) ∧
  optional isText (prop "authTokenHeader" s) ∧
  optional isText (prop "authTokenPrefix" s) ∧
  optional isNumber (prop "authTokenTtlSeconds" s).

(** The map [m] holds under every name but [__proto__] the text of
    the property of that name in [props], interpolated, and nothing
    else; the properties are texts. *)
Definition interpolated (getenv : string → option string)
    (props : list (string * value R)) (m : gmap string string) : Prop :=
  m !! "__proto__" = None ∧
  ∀ k, k ≠ "__proto__" →
       match getOwn k props with
       | Some v => ∃ x, v = VString x ∧
                        m !! k = Some (Interpolation.interpolateString getenv x)
       | None => m !! k = None
       end.

(** No text of the server is empty. *)
Definition noEmptyText (p : ParsedServer R) : Prop :=
  name p ≠ EmptyString ∧ command p ≠ Some EmptyString ∧
  authTokenCommand p ≠ Some EmptyString ∧ authTokenHeader p ≠ Some EmptyString ∧
  authTokenPrefix p ≠ Some EmptyString.
End Promises.

End ParseConfig.

Module Spec.
Import JsString JsNumber JsError JSON Config McpClientPool.

(** [p] stands somewhere in [s]. *)
Definition occursIn (p s : string) : Prop := ∃ a b, s = a +:+ p +:+ b.

(** Some piece of [s] is [p] up to the case of its letters. *)
Definition occursInIgnoringCase (p s : string) : Prop :=
  ∃ a u b, s = a +:+ u +:+ b ∧ toLowerCase u = toLowerCase p.

Definition authMarkers : list string :=
  ["invalid_token"; "unauthorized"; "401"; "authentication"; "access token"].

Definition connectionMarkers : list string := ["closed"; "ECONNREFUSED"; "EPIPE"].

(** *** Token extraction as the specification words it

    The fields are tried in the order of [fieldPriority]; [select] says
    when a field of the parsed object counts.  The lines are the trimmed
    lines that are not empty. *)
Definition fieldPriority : list string := ["access_token"; "token"; "bearer"].

Definition jsonObject (text : string) : option (list (utf16 * json)) :=
  match JSON.parse text with
  | Some (JObject members) => Some members
  | _ => None
  end.

Section Precedence.
Variable select : list (utf16 * json) → string → option utf16.

Definition yields (text : string) : option utf16 :=
  members ← jsonObject text; head (omap (select members) fieldPriority).

Definition extractTokenBy (raw : string) : option utf16 :=
  let lines := nonEmptyLines raw in
  match head (omap yields (reverse lines)) with
  | Some t => Some t
  | None =>
      match yields raw with
      | Some t => Some t
      | None => utf16_of <$> last lines
      end
  end.
End Precedence.

(** A field counts when its value is a string. *)
Definition stringField (members : list (utf16 * json)) (field : string) : option utf16 :=
  match getMember (utf16_of field) members with
  | Some (JString s) => Some s
  | _ => None
  end.

(** A field counts when its value is a string that is not empty. *)
Definition nonEmptyStringField (members : list (utf16 * json)) (field : string)
    : option utf16 :=
  match getMember (utf16_of field) members with
  | Some (JString s) => if truthy16 s then Some s else None
  | _ => None
  end.

Definition extractToken_stated : string → option utf16 := extractTokenBy stringField.
Definition extractToken_amended : string → option utf16 :=
  extractTokenBy nonEmptyStringField.

(** The texts of the three examples. *)
Definition quoted (s : string) : string :=
  String dquote EmptyString +:+ s +:+ String dquote EmptyString.
Definition LF : string := String "010" EmptyString.

Definition example_access_token : string :=
  "{" +:+ quoted "access_token" +:+ ":" +:+ quoted "abc" +:+ "}".
Definition example_noise_then_token : string :=
  "noise" +:+ LF +:+ "{" +:+ quoted "token" +:+ ":" +:+ quoted "xyz" +:+ "}".
Definition example_plain : string := "plain-token-value".

(** An object whose first field in the priority order is an empty string. *)
Definition example_empty_first : string :=
  "{" +:+ quoted "access_token" +:+ ":" +:+ quoted EmptyString +:+ "," +:+
  quoted "token" +:+ ":" +:+ quoted "x" +:+ "}".

(** The options of a forced refresh: [{ forceRefreshToken: true }]. *)
Definition forcedOptions : option ConnectOptions := Some {| forceRefreshToken := Some true |}.

(** *** The registry *)

(** The entry [e] with its health flag lowered when [keep] is false. *)
Definition lowered (keep : bool) (e : ClientEntry) : ClientEntry :=
  {| config := config e; client := client e; transport := transport e;
     connected := connected e && keep |}.

(** The registry of [w'] is the registry of [w] but for health flags that
    went down, and no session of [w] is forgotten by the store. *)
Definition kept (w w' : World) : Prop :=
  (∀ k, ∃ keep, JsMap.get k (clients w') = lowered keep <$> JsMap.get k (clients w)) ∧
  (nextClient w ≤ nextClient w')%nat.

Definition keeps {A} (m : M A) : Prop := ∀ w, kept w (m w).2.

(** Every entry is stored under the name of its own descriptor, as
    [connect] stores it, and its session is one the store has made. *)
Definition wellFormed (w : World) : Prop :=
  ∀ k e, JsMap.get k (clients w) = Some e →
         Config.name (config e) = k ∧ (client e < nextClient w)%nat.

(** *** Traces *)

Definition weight (p : event → bool) (ev : event) : nat := if p ev then 1%nat else 0%nat.

(** How many events of [l] satisfy [p]. *)
Fixpoint tally (p : event → bool) (l : list event) : nat :=
  match l with
  | [] => 0%nat
  | ev :: rest => (weight p ev + tally p rest)%nat
  end.

(** The trace of [w'] is the trace of [w] and more events, at most [n] of
    which satisfy [p]. *)
Definition extends (p : event → bool) (n : nat) (w w' : World) : Prop :=
  ∃ new, trace w' = trace w ++ new ∧ (tally p new ≤ n)%nat.

(** Whatever [m] starts from, it only adds events to the trace, and at
    most [n] of them satisfy [p]. *)
Definition atMost {A} (p : event → bool) (n : nat) (m : M A) : Prop :=
  ∀ w, extends p n w (m w).2.

Definition isOperation (ev : event) : bool :=
  match ev with
  | EvClientListTools _ | EvClientCallTool _ _ _ => true
  | _ => false
  end.

Definition isNewClient (ev : event) : bool :=
  match ev with EvNewClient _ => true | _ => false end.

Definition isClientConnect (ev : event) : bool :=
  match ev with EvClientConnect _ _ => true | _ => false end.

Definition isTransportClose (ev : event) : bool :=
  match ev with EvTransportClose _ => true | _ => false end.

Definition isExecFile (ev : event) : bool :=
  match ev with EvExecFile _ _ _ => true | _ => false end.

(** The events of a credential fetch and of a constructor call. *)
Definition isBuildEvent (ev : event) : bool :=
  match ev with
  | EvDateNow | EvConsoleLog _ | EvExecFile _ _ _ | EvNewTransport _ _ => true
  | _ => false
  end.

(** A transport built with the refresh flag set for a server that has no
    credential refresh. *)
Definition forcedWithoutAuth (ev : event) : bool :=
  match ev with
  | EvCreateTransport config true => negb (usesAuthTokenCommand config)
  | _ => false
  end.


(** *** What [connect] leaves behind *)

(** The end of a [connect] that got its session over transport [t]: the
    hooks are set when [t] is a subprocess transport, and the entry is
    stored. *)
Definition installed (config : ServerConfig) (c t : nat) (w : World) : World :=
  with_clients
    (JsMap.set (Config.name config)
       {| config := config; client := c; transport := t; connected := true |})
    (match transports w !! t with
     | Some obj =>
         if isStdio (built obj) then
           with_transports
             <[t := {| built := built obj; onerror := Some (Config.name config);
                       onclose := Some (Config.name config) |}]> w
         else w
     | None => w
     end).

(** [connect] from the build of the transport on, for a session [client]
    that is there already: [connect] is [new Client] and then this. *)
Definition connectOver (E : Env) (client : nat) (config : ServerConfig)
    (options : option ConnectOptions) : M nat :=
  let* transport0 := createTransport E config options in
  let* transport :=
    tryCatch
      (await (EvClientConnect client transport0)
             (fun tr => client_connect E tr client transport0) ;;
       ret transport0)
      (fun err =>
         if usesAuthTokenCommand config && isAuthError err && negb (forced options) then
           closeIgnoringErrors E transport0 ;;
           let* transport1 := createTransport E config forcedOptions in
           await (EvClientConnect client transport1)
                 (fun tr => client_connect E tr client transport1) ;;
           ret transport1
         else throw err) in
  let* obj := gets (fun w => transports w !! transport) in
  (if from_option (fun o => isStdio (built o)) false obj
   then setHooks transport (Config.name config)
   else ret tt) ;;
  modify (with_clients
            (JsMap.set (Config.name config)
               {| config := config; client := client; transport := transport;
                  connected := true |})) ;;
  ret client.

(** The world after an awaited call that recorded [ev] and during which
    the hooks [hooks] ran. *)
Definition resumed (ev : event) (hooks : list (HookKind * nat)) (w : World) : World :=
  fireHooks hooks (with_trace (fun tr => tr ++ [ev]) w).

(** *** The recovery of [listTools] and [callTool]

    Both methods wrap the same recovery around one awaited call of the
    session of an entry: [ev] is the event of the call and [ask] the answer
    of the session, both for a given session. *)
Definition sessionCall {A} (ev : nat → event) (ask : nat → list event → answer A)
    (entry : ClientEntry) : M A :=
  await (ev (client entry)) (ask (client entry)).

Definition withRecovery {A} (E : Env) (serverName : string)
    (ev : nat → event) (ask : nat → list event → answer A) : M A :=
  let* entry := gets (fun w => JsMap.get serverName (clients w)) in
  match entry with
  | None => throw (unknownServerError serverName)
  | Some entry =>
      tryCatch (sessionCall ev ask entry)
        (fun err =>
           if usesAuthTokenCommand (config entry) && isAuthError err then
             reconnect E serverName forcedOptions ;;
             withEntry serverName (sessionCall ev ask)
           else
             let* isConnected := connectedNow serverName in
             if negb isConnected || isConnectionError err then
               reconnect E serverName None ;;
               withEntry serverName (sessionCall ev ask)
             else throw err)
  end.

(** One reconnect, and then one call on the session of the entry that the
    registry holds under the name; whatever fails is the result. *)
Definition retriedOnce {A} (E : Env) (serverName : string)
    (options : option ConnectOptions)
    (ev : nat → event) (ask : nat → list event → answer A) (w : World)
    : completion A * World :=
  match reconnect E serverName options w with
  | (Throw err, w') => (Throw err, w')
  | (Return _, w') =>
      match JsMap.get serverName (clients w') with
      | Some refreshed =>
          let a := ask (client refreshed) (trace w') in
          (match outcome a with inl err => Throw err | inr v => Return v end,
           resumed (ev (client refreshed)) (fired a) w')
      | None =>
          (Throw (ErrorObject "TypeError"
                    "Cannot read properties of undefined (reading 'client')"), w')
      end
  end.

(** What the specification asks of a method [method] that makes the call
    [ev], [ask] on the server [serverName], started in [w]: an unknown
    server is an error and nothing happens; a call that returns is the
    result; a call that fails is followed by (a) a reconnect with the
    refresh forced and one retry, when the server uses the token command
    and the failure is an auth error; (b) else a reconnect without it and
    one retry, when the health flag is down after the call or the failure
    is a connection error; (c) else nothing, and the failure is the
    result. *)
Definition RecoveryPolicy {A} (E : Env) (serverName : string)
    (ev : nat → event) (ask : nat → list event → answer A)
    (method : M A) (w : World) : Prop :=
  match JsMap.get serverName (clients w) with
  | None => method w = (Throw (unknownServerError serverName), w)
  | Some entry =>
      let a := ask (client entry) (trace w) in
      let w1 := resumed (ev (client entry)) (fired a) w in
      match outcome a with
      | inr v => method w = (Return v, w1)
      | inl err =>
          if usesAuthTokenCommand (config entry) && isAuthError err then
            method w = retriedOnce E serverName forcedOptions ev ask w1
          else if negb (getStatus serverName w1) || isConnectionError err then
            method w = retriedOnce E serverName None ev ask w1
          else method w = (Throw err, w1)
      end
  end.

(** *** Sequences of calls of the pool *)

Inductive call : Type :=
| CallConnect (config : ServerConfig)
| CallListTools (serverName : string)
| CallCallTool (serverName toolName : string) (args : json)
| CallClose (serverName : string)
| CallCloseAll
| HookRuns (kind : HookKind) (t : nat).

(** The pool after one call, whether it returned or threw. *)
Definition perform (E : Env) (c : call) (w : World) : World :=
  match c with
  | CallConnect config => (connect E config None w).2
  | CallListTools serverName => (listTools E serverName w).2
  | CallCallTool serverName toolName args => (callTool E serverName toolName args w).2
  | CallClose serverName => (close E serverName w).2
  | CallCloseAll => (closeAll E w).2
  | HookRuns kind t => fireHook (kind, t) w
  end.

Definition performAll (E : Env) (calls : list call) (w : World) : World :=
  foldl (fun w c => perform E c w) w calls.

(** *** Credentials *)

(** How many times the token command ran between [w] and [w']. *)
Definition invocations (w w' : World) : nat :=
  tally isExecFile (drop (length (trace w)) (trace w')).

(** The arguments of the token command: the base ones, and after them
    the refresh ones when the refresh is forced. *)
Definition tokenArgs (config : ServerConfig) (forceRefresh : bool) : list string :=
  default [] (authTokenArgs config) ++
  (if forceRefresh then default [] (authTokenRefreshArgs config) else []).

(** The name of the auth header: [Authorization] unless a name that is
    not empty is configured. *)
Definition authHeaderName (config : ServerConfig) : string :=
  match authTokenHeader config with
  | None => "Authorization"
  | Some EmptyString => "Authorization"
  | Some h => h
  end.

(** The value of the auth header: the prefix, a space and the token; the
    prefix is [Bearer] when none is configured; a prefix configured as the
    empty string leaves the bare token. *)
Definition authHeaderValue (config : ServerConfig) (token : utf16) : utf16 :=
  match authTokenPrefix config with
  | None => utf16_of "Bearer " ++ token
  | Some EmptyString => token
  | Some prefix => utf16_of (prefix +:+ " ") ++ token
  end.

(** The configured headers as a request carries them, [undefined] read
    as no header. *)
Definition headersOf (h : option (gmap string string)) : gmap string utf16 :=
  utf16_of <$> default ∅ h.



(** [connect] as the specification words it: when the first attempt
    fails with an auth error, the server uses the token command and the
    refresh was not forced, the transport is closed and the whole
    [connect] runs again with the refresh forced, from the fresh session
    on. *)
Definition connect_stated (E : Env) (config : ServerConfig)
    (options : option ConnectOptions) : M nat :=
  let* client := newClient in
  let* transport0 := createTransport E config options in
  tryCatch
    (await (EvClientConnect client transport0)
           (fun tr => client_connect E tr client transport0) ;;
     let* obj := gets (fun w => transports w !! transport0) in
     (if from_option (fun o => isStdio (built o)) false obj
      then setHooks transport0 (Config.name config)
      else ret tt) ;;
     modify (with_clients
               (JsMap.set (Config.name config)
                  {| config := config; client := client; transport := transport0;
                     connected := true |})) ;;
     ret client)
    (fun err =>
       if usesAuthTokenCommand config && isAuthError err && negb (forced options) then
         closeIgnoringErrors E transport0 ;;
         connect E config forcedOptions
       else throw err).
(** *** What the methods leave alone *)

Definition CR : string := String "013" EmptyString.

(** The same entry under the same key, but for a health flag that went
    down. *)
Definition sameButFlag (a b : string * ClientEntry) : Prop :=
  b.1 = a.1 ∧ ∃ keep, b.2 = lowered keep a.2.

(** From [w] to [w'] the registry changed in health flags only, no
    session and no transport object of [w] was forgotten or changed. *)
Definition flagsOnly (w w' : World) : Prop :=
  Forall2 sameButFlag (clients w) (clients w') ∧
  (nextClient w ≤ nextClient w')%nat ∧
  ∃ more, transports w' = transports w ++ more.

Definition isStdioKind (config : ServerConfig) : bool :=
  match Config.transport config with Config.stdio => true | Config.http => false end.

(** A transport object as [createTransport] makes it for [config]. *)
Definition freshFor (config : ServerConfig) (obj : TransportObject) : Prop :=
  onerror obj = None ∧ onclose obj = None ∧ isStdio (built obj) = isStdioKind config.

(** The events of a [connect] of [config] whose session is [c], in a
    store that held [base] transports when it began: they concern that
    descriptor, that session and transports made since then, and the
    token command runs for a server that uses it only, as configured. *)
Definition ownEvent (E : Env) (config : ServerConfig) (c base : nat) (ev : event) : Prop :=
  match ev with
  | EvDateNow | EvConsoleLog _ => True
  | EvExecFile command args env =>
      usesAuthTokenCommand config = true ∧
      Config.authTokenCommand config = Some command ∧
      (∃ forceRefresh, args = tokenArgs config forceRefresh) ∧
      env = default ∅ (Config.env config) ∪ process_env E
  | EvNewClient c' => c' = c
  | EvCreateTransport config' _ => config' = config
  | EvNewTransport t spec => (base ≤ t)%nat ∧ isStdio spec = isStdioKind config
  | EvClientConnect c' t => c' = c ∧ (base ≤ t)%nat
  | EvTransportClose t => (base ≤ t)%nat
  | EvClientListTools _ | EvClientCallTool _ _ _ => False
  end.

(** A [connect] of [config] that began in [w0] has come to [w]: up to
    here it lowered health flags at most, made transports for [config],
    wrote the cache for the name of [config] at most, and all its events
    are its own. *)
Definition underway (E : Env) (config : ServerConfig) (w0 w : World) : Prop :=
  flagsOnly w0 w ∧
  (∃ more, transports w = transports w0 ++ more ∧ Forall (freshFor config) more) ∧
  (∀ k, k ≠ Config.name config → tokenCache w !! k = tokenCache w0 !! k) ∧
  (is_Some (tokenCache w0 !! Config.name config) →
   is_Some (tokenCache w !! Config.name config)) ∧
  ∃ new, trace w = trace w0 ++ new ∧
         Forall (ownEvent E config (nextClient w0) (length (transports w0))) new.

Definition preserves {A} (I : World → Prop) (m : M A) : Prop := ∀ w, I w → I (m w).2.

(** The hook that [connect] sets on a transport of the server [k]. *)
Definition hookFor (k : string) (spec : TransportSpec) : option string :=
  if isStdio spec then Some k else None.

(** The entry [e] under the key [k] is as [connect] stored it: under
    the name of its descriptor, with a session the store has made and a
    transport object of the class of the descriptor that carries the
    hooks of a subprocess transport, and none otherwise. *)
Definition entrySound (w : World) (k : string) (e : ClientEntry) : Prop :=
  Config.name (config e) = k ∧ (client e < nextClient w)%nat ∧
  ∃ obj, transports w !! transport e = Some obj ∧
         isStdio (built obj) = isStdioKind (config e) ∧
         onerror obj = hookFor k (built obj) ∧ onclose obj = hookFor k (built obj).

(** No name has two entries, no session and no transport serves two
    entries, and every entry is as [connect] stored it. *)
Definition sound (w : World) : Prop :=
  NoDup (JsMap.keys (clients w)) ∧
  NoDup (map (fun p => client p.2) (clients w)) ∧
  NoDup (map (fun p => transport p.2) (clients w)) ∧
  ∀ k e, JsMap.get k (clients w) = Some e → entrySound w k e.
(** The event [ev] is about the session or the transport of the entry
    [o]. *)
Definition uses (o : ClientEntry) (ev : event) : Prop :=
  match ev with
  | EvNewClient c | EvClientListTools c | EvClientCallTool c _ _ => c = client o
  | EvNewTransport t _ | EvTransportClose t => t = transport o
  | EvClientConnect c t => c = client o ∨ t = transport o
  | EvDateNow | EvConsoleLog _ | EvExecFile _ _ _ | EvCreateTransport _ _ => False
  end.

(** The events of [listTools] and [callTool] on an entry [e], in a pool
    whose next session is [c] and whose store holds [base] transports:
    a call on the session of [e] or on the new session, the close of the
    transport of [e], and the events of a [connect] of its descriptor. *)
Definition recoveryEvent (E : Env) (e : ClientEntry) (c base : nat) (ev : event) : Prop :=
  match ev with
  | EvClientListTools c' | EvClientCallTool c' _ _ => c' = client e ∨ c' = c
  | EvTransportClose t => t = transport e ∨ (base ≤ t)%nat
  | _ => ownEvent E (config e) c base ev
  end.
(** From [w] to [w'] the pool was busy with the entry [e] only: the new
    events are those of a call on [e] and of its recovery, and the cached
    tokens and the entries of the other names are as they were, but for
    health flags that went down. *)
Definition confinedTo (E : Env) (e : ClientEntry) (w w' : World) : Prop :=
  (∃ new, trace w' = trace w ++ new ∧
          Forall (recoveryEvent E e (nextClient w) (length (transports w))) new) ∧
  (∀ k, k ≠ Config.name (config e) → tokenCache w' !! k = tokenCache w !! k) ∧
  (∀ k o, k ≠ Config.name (config e) → JsMap.get k (clients w) = Some o →
          ∃ keep, JsMap.get k (clients w') = Some (lowered keep o)).
End Spec.

(** ** Sample servers and environments *)

Module Examples.
Import JsString JsError JSON McpClientPool Spec.

(** A subprocess server. *)
Definition localServer : Config.ServerConfig :=
  {| Config.name := "local"; Config.transport := Config.stdio;
     Config.command := Some "mcp-server"; Config.args := Some ["--stdio"];
     Config.env := None; Config.url := None; Config.headers := None;
     Config.authTokenCommand := None; Config.authTokenArgs := None;
     Config.authTokenRefreshArgs := None; Config.authTokenHeader := None;
     Config.authTokenPrefix := None; Config.authTokenTtlSeconds := None |}.

(** An http server with a token command. *)
Definition remoteServer : Config.ServerConfig :=
  {| Config.name := "remote"; Config.transport := Config.http;
     Config.command := None; Config.args := None; Config.env := None;
     Config.url := Some "https://mcp.example/api";
     Config.headers := Some {["X-Client" := "openclaw"]};
     Config.authTokenCommand := Some "get-token";
     Config.authTokenArgs := Some ["--cached"];
     Config.authTokenRefreshArgs := Some ["--login"];
     Config.authTokenHeader := None; Config.authTokenPrefix := None;
     Config.authTokenTtlSeconds := Some 60%float |}.



(** An http server without one. *)
Definition openServer : Config.ServerConfig :=
  {| Config.name := "open"; Config.transport := Config.http;
     Config.command := None; Config.args := None; Config.env := None;
     Config.url := Some "https://open.example/api"; Config.headers := None;
     Config.authTokenCommand := None; Config.authTokenArgs := None;
     Config.authTokenRefreshArgs := None; Config.authTokenHeader := None;
     Config.authTokenPrefix := None; Config.authTokenTtlSeconds := None |}.

(** An environment by script.  The n-th attempt to establish a session
    fails as [connectFails n] says, the n-th tool call as [callFails n]
    says, the [close] of transport [t] throws when [closeThrows t], and a
    transport that is closed runs its close hook.  The token command
    prints a progress line and a JSON line; the clock moves by one second
    per event. *)
Fixpoint seconds (n : nat) : float :=
  match n with
  | O => 0%float
  | S n' => (seconds n' + 1)%float
  end.

Definition scripted (connectFails callFails : nat → option thrown)
    (closeThrows : nat → bool) : Env :=
  {| process_env := {["PATH" := "/usr/bin"]};
     URL_valid := fun _ => true;
     Date_now := fun tr => (1000 * seconds (length tr))%float;
     execFile := fun _ _ _ _ =>
       ({| exec_error := None; stdout := example_noise_then_token +:+ LF;
           stderr := EmptyString |}, []);
     client_connect := fun tr _ _ =>
       {| outcome := match connectFails (tally isClientConnect tr) with
                     | Some err => inl err
                     | None => inr tt
                     end;
          fired := [] |};
     client_listTools := fun tr _ =>
       {| outcome := match callFails (tally isOperation tr) with
                     | Some err => inl err
                     | None => inr [JString (utf16_of "search")]
                     end;
          fired := [] |};
     client_callTool := fun tr _ _ args =>
       {| outcome := match callFails (tally isOperation tr) with
                     | Some err => inl err
                     | None => inr args
                     end;
          fired := [] |};
     transport_close := fun _ t =>
       {| outcome := if closeThrows t then inl (newError "close failed") else inr tt;
          fired := [(OnClose, t)] |} |}.

Definition never : nat → option thrown := fun _ => None.
Definition firstTime (err : thrown) : nat → option thrown :=
  fun n => match n with O => Some err | S _ => None end.

Definition unauthorized : thrown := ErrorObject "Error" "HTTP 401 Unauthorized".

(** Nothing fails. *)
Definition calm : Env := scripted never never (fun _ => false).
(** The first attempt to establish a session is rejected. *)
Definition rejectedOnce : Env := scripted (firstTime unauthorized) never (fun _ => false).
(** The first tool call is rejected. *)
Definition expiredOnce : Env := scripted never (firstTime unauthorized) (fun _ => false).
(** The [close] of the first transport throws. *)
Definition stuckClose : Env := scripted never never (fun t => Nat.eqb t 0).

Definition localPool (E : Env) : World := (connect E localServer None emptyPool).2.
Definition twoServers (E : Env) : World := (connect E openServer None (localPool E)).2.
(** What [process.env] holds, as text, under the names that every
    object inherits: the functions of [Object.prototype] as the engine
    prints them, and under [__proto__] that prototype itself. *)
Definition nativeFunction (name : string) : string :=
  "function " +:+ name +:+ "() { [native code] }".

Definition inherited (name : string) : option string :=
  if String.eqb name "constructor" then Some (nativeFunction "Object")
  else if String.eqb name "__proto__" then Some "[object Object]"
  else if bool_decide (name ∈ ["toString"; "toLocaleString"; "valueOf"; "hasOwnProperty";
                               "isPrototypeOf"; "propertyIsEnumerable";
                               "__defineGetter__"; "__defineSetter__";
                               "__lookupGetter__"; "__lookupSetter__"])
  then Some (nativeFunction name)
  else None.

(** The lookup in a [process.env] with the one variable [HOST] set. *)
Definition hostOnly (name : string) : option string :=
  if String.eqb name "HOST" then Some "mcp.example" else inherited name.

(** An output of the token command: a progress line, and a line with a
    JSON object. *)
Definition tokenLine : string := "{" +:+ quoted "token" +:+ ":" +:+ quoted "xyz" +:+ "}".
End Examples.

(** ** Sample configurations *)

Module ConfigExamples.
Import JsString JsValue ParseConfig Examples.

Fixpoint digitsOf (s : string) (acc : Z) : option Z :=
  match s with
  | EmptyString => Some acc
  | String c rest =>
      if (48 <=? Z.of_N (N_of_ascii c)) && (Z.of_N (N_of_ascii c) <=? 57)
      then digitsOf rest (10 * acc + (Z.of_N (N_of_ascii c) - 48))
      else None
  end.

(** Numbers for the samples: the whole numbers and [NaN], which is
    [None].  Of the texts of numbers they read the decimal writing of a
    whole number, with white space around it; every other text is [NaN]
    to them. *)
Definition wholeNumbers : Numbers :=
  {| number := option Z;
     isZeroOrNaN := fun n => match n with Some z => Z.eqb z 0 | None => true end;
     Number_toString := fun n => match n with Some z => pretty z | None => "NaN" end;
     Number_ofString := fun s =>
       match trim s with
       | EmptyString => Some 0
       | String "-" (String c rest) => Z.opp <$> digitsOf (String c rest) 0
       | String "+" (String c rest) => digitsOf (String c rest) 0
       | text => digitsOf text 0
       end;
     Number_ofBool := fun b => Some (if b then 1 else 0) |}.

(** A subprocess server with a placeholder among its arguments. *)
Definition filesEntry : value wholeNumbers :=
  VObject [("name", VString "files"); ("command", VString "npx");
           ("args", VArray [VString "--host"; VString "${HOST}"])].

(** A remote server with a placeholder in its URL. *)
Definition remoteEntry : value wholeNumbers :=
  VObject [("name", VString "remote"); ("transport", VString "http");
           ("url", VString "https://${HOST}/mcp");
           ("headers", VObject [("X-Env", VString "prod")])].

(** A server with a transport that the adapter does not know. *)
Definition eventsEntry : value wholeNumbers :=
  VObject [("name", VString "events"); ("transport", VString "sse")].

Definition sampleConfig : value wholeNumbers :=
  VObject [("servers", VArray [filesEntry; remoteEntry])].

Definition filesParsed : ParsedServer wholeNumbers :=
  {| name := "files"; transport := VString "stdio"; command := Some "npx";
     args := Some ["--host"; "mcp.example"]; env := None; url := None; headers := None;
     authTokenCommand := None; authTokenArgs := None; authTokenRefreshArgs := None;
     authTokenHeader := None; authTokenPrefix := None; authTokenTtlSeconds := None |}.

Definition remoteParsed : ParsedServer wholeNumbers :=
  {| name := "remote"; transport := VString "http"; command := None; args := None;
     env := None; url := Some "https://mcp.example/mcp";
     headers := Some {["X-Env" := "prod"]};
     authTokenCommand := None; authTokenArgs := None; authTokenRefreshArgs := None;
     authTokenHeader := None; authTokenPrefix := None; authTokenTtlSeconds := None |}.
End ConfigExamples.

(** * Properties *)

(** ** Strings *)

Section StringFacts.
Import JsString.

Lemma app_empty_l (s : string) : EmptyString +:+ s = s.
Proof. reflexivity. Qed.

Lemma app_cons (c : ascii) (s t : string) : String c s +:+ t = String c (s +:+ t).
Proof. reflexivity. Qed.

Lemma app_empty_r (s : string) : s +:+ EmptyString = s.
Proof. induction s as [|c s IH]; [done|]. by rewrite app_cons, IH. Qed.

Lemma app_assoc' (a b c : string) : (a +:+ b) +:+ c = a +:+ b +:+ c.
Proof. induction a as [|x a IH]; [done|]. by rewrite !app_cons, IH. Qed.

Lemma startsWith_spec (s p : string) :
  startsWith s p = true ↔ ∃ b, s = p +:+ b.
Proof.
  revert s. induction p as [|a p IH]; intros s.
  - split; [intros _; by exists s | by destruct s].
  - destruct s as [|b s]; simpl.
    + split; [done | intros [r Hr]; discriminate].
    + rewrite andb_true_iff, IH, Ascii.eqb_eq. split.
      * intros [-> [r ->]]. by exists r.
      * intros [r Hr]. rewrite app_cons in Hr. injection Hr as -> ->. eauto.
Qed.

Lemma includes_spec (s p : string) :
  includes s p = true ↔ Spec.occursIn p s.
Proof.
  unfold Spec.occursIn. induction s as [|c s IH].
  - cbn [includes]. rewrite orb_false_r, startsWith_spec. split.
    + intros [b Hb]. by exists EmptyString, b.
    + intros [[|x a] [b Hb]]; [by exists b | discriminate].
  - cbn [includes]. rewrite orb_true_iff, startsWith_spec, IH. split.
    + intros [[b Hb] | (a & b & Hab)].
      * by exists EmptyString, b.
      * exists (String c a), b. by rewrite app_cons, Hab.
    + intros [[|x a] [b Hb]].
      * left. by exists b.
      * right. rewrite app_cons in Hb. injection Hb as -> ->. by exists a, b.
Qed.

Lemma toLowerCase_app (a b : string) :
  toLowerCase (a +:+ b) = toLowerCase a +:+ toLowerCase b.
Proof. induction a as [|c a IH]; [done|]. rewrite app_cons. simpl. by rewrite IH. Qed.

Lemma toLowerCase_app_inv (s x y : string) :
  toLowerCase s = x +:+ y →
  ∃ a b, s = a +:+ b ∧ toLowerCase a = x ∧ toLowerCase b = y.
Proof.
  revert s. induction x as [|c x IH]; intros s Hs.
  - by exists EmptyString, s.
  - destruct s as [|d s]; [discriminate|].
    rewrite app_cons in Hs. simpl in Hs. injection Hs as Hc Hs.
    destruct (IH _ Hs) as (a & b & -> & Ha & Hb).
    exists (String d a), b. simpl. by rewrite Hc, Ha.
Qed.

Lemma occursInIgnoringCase_lower (p s : string) :
  Spec.occursInIgnoringCase p s ↔ Spec.occursIn (toLowerCase p) (toLowerCase s).
Proof.
  split.
  - intros (a & u & b & -> & Hu).
    exists (toLowerCase a), (toLowerCase b). by rewrite !toLowerCase_app, Hu.
  - intros (x & y & Hxy).
    apply toLowerCase_app_inv in Hxy as (a & r & -> & Ha & Hr).
    apply toLowerCase_app_inv in Hr as (u & b & -> & Hu & Hb).
    by exists a, u, b.
Qed.
End StringFacts.

(** ** Classification of failures *)

Section Classification.
Import JsString JsError McpClientPool.

Lemma isAuthError_markers (err : thrown) :
  isAuthError err = true ↔
  ∃ p, p ∈ Spec.authMarkers ∧ Spec.occursInIgnoringCase p (String_of err).
Proof.
  unfold isAuthError, Spec.authMarkers. cbv zeta.
  rewrite !orb_true_iff, !includes_spec. split.
  - intros H.
    assert (∀ p, toLowerCase p = p → Spec.occursIn p (toLowerCase (String_of err)) →
                 Spec.occursInIgnoringCase p (String_of err)) as Hlow.
    { intros p Hp Ho. apply occursInIgnoringCase_lower. by rewrite Hp. }
    destruct H as [[[[H|H]|H]|H]|H]; eexists; (split; [|apply Hlow; [|exact H]; reflexivity]);
      repeat first [apply list_elem_of_here | apply list_elem_of_further].
  - intros (p & Hp & Ho). apply occursInIgnoringCase_lower in Ho.
    repeat (apply elem_of_cons in Hp as [->|Hp]); [tauto..|].
    by apply elem_of_nil in Hp.
Qed.

Lemma isConnectionError_markers (err : thrown) :
  isConnectionError err = true ↔
  ∃ p, p ∈ Spec.connectionMarkers ∧ Spec.occursIn p (String_of err).
Proof.
  unfold isConnectionError, Spec.connectionMarkers. cbv zeta.
  rewrite !orb_true_iff, !includes_spec. split.
  - intros [[H|H]|H]; eexists; (split; [|exact H]);
      repeat first [apply list_elem_of_here | apply list_elem_of_further].
  - intros (p & Hp & Ho).
    repeat (apply elem_of_cons in Hp as [->|Hp]); [tauto..|].
    by apply elem_of_nil in Hp.
Qed.

(** C5.  An error is an auth error exactly when its text, letters compared
    without their case, holds one of the five auth markers; it is a
    connection error exactly when its text holds one of the three
    connection markers as they are written; each of the two checks can hold
    or fail whatever the other one does, so both can hold at once. *)
Theorem error_classification :
  (∀ err, isAuthError err = true ↔
          ∃ p, p ∈ Spec.authMarkers ∧ Spec.occursInIgnoringCase p (String_of err)) ∧
  (∀ err, isConnectionError err = true ↔
          ∃ p, p ∈ Spec.connectionMarkers ∧ Spec.occursIn p (String_of err)) ∧
  (∀ a c : bool, ∃ err, isAuthError err = a ∧ isConnectionError err = c).
Proof.
  split; [exact isAuthError_markers|]. split; [exact isConnectionError_markers|].
  intros [] [].
  - by exists (newError "401 Unauthorized: connection closed").
  - by exists (newError "HTTP 401").
  - by exists (newError "write EPIPE").
  - by exists (newError "tool not found").
Qed.
End Classification.

(** ** The fuel of the JSON parser

    [JSON.parse] gives the parser twice the length of the text and two as
    fuel.  That is enough: with more fuel the result is the same. *)

Section JsonFuel.
Import JSON.

Lemma skipWs_length (s : string) : (String.length (skipWs s) ≤ String.length s)%nat.
Proof.
  induction s as [|c s IH]; simpl; [lia|]. destruct (isJsonWs c); simpl; lia.
Qed.

Lemma consChar_length (c : N) (r : option (JsString.utf16 * string))
    (body : JsString.utf16) (rest : string) (n : nat) :
  consChar c r = Some (body, rest) →
  (∀ b x, r = Some (b, x) → (String.length x ≤ n)%nat) →
  (String.length rest ≤ n)%nat.
Proof.
  destruct r as [[b x]|]; [|done]. simpl. intros [= _ <-] H. by eapply H.
Qed.

Lemma parseChars_length (s : string) (body : JsString.utf16) (rest : string) :
  parseChars s = Some (body, rest) → (String.length rest < String.length s)%nat.
Proof.
  revert body rest.
  enough (∀ m s, (String.length s ≤ m)%nat → ∀ body rest,
            parseChars s = Some (body, rest) → (String.length rest < String.length s)%nat)
    as H by (intros; by eapply (H (String.length s))).
  clear s. intros m. induction m as [|m IH]; intros s Hm body rest.
  - destruct s; [done | simpl in Hm; lia].
  - destruct s as [|c r]; [done|]. cbn [parseChars].
    destruct (Ascii.eqb c dquote); [intros [= _ <-]; simpl; lia|].
    destruct (Ascii.eqb c backslash).
    + destruct r as [|e r1]; [done|].
      destruct (simpleEscape e).
      * intros H. simpl. simpl in Hm.
        enough (String.length rest ≤ String.length r1)%nat by lia.
        eapply consChar_length; [exact H|]. intros b x Hx.
        apply IH in Hx; [lia | lia].
      * destruct (Ascii.eqb e "u"); [|done].
        destruct r1 as [|h1 [|h2 [|h3 [|h4 r2]]]]; try done.
        destruct (hex4 h1 h2 h3 h4) as [n|]; [|done].
        intros H. simpl. simpl in Hm.
        enough (String.length rest ≤ String.length r2)%nat by lia.
        eapply consChar_length; [exact H|]. intros b x Hx.
        apply IH in Hx; [lia | lia].
    + destruct (N_of_ascii c <? 32)%N; [done|].
      intros H. simpl. simpl in Hm.
      enough (String.length rest ≤ String.length r)%nat by lia.
      eapply consChar_length; [exact H|]. intros b x Hx.
      apply IH in Hx; [lia | lia].
Qed.

Lemma takeDigits_length (s ds rest : string) :
  takeDigits s = (ds, rest) → (String.length rest ≤ String.length s)%nat.
Proof.
  revert ds rest. induction s as [|c s IH]; intros ds rest; simpl.
  - intros [= _ <-]. done.
  - destruct (isDigit c); [|intros [= _ <-]; simpl; lia].
    destruct (takeDigits s) as [ds' rest'] eqn:Ht. intros [= _ <-].
    specialize (IH _ _ eq_refl). lia.
Qed.

Lemma digits1_length (s ds rest : string) :
  digits1 s = Some (ds, rest) → (String.length rest ≤ String.length s)%nat.
Proof.
  unfold digits1. destruct (takeDigits s) as [ds' rest'] eqn:Ht.
  apply takeDigits_length in Ht. destruct ds'; [done|]. by intros [= _ <-].
Qed.

Lemma keyword_length (word s rest : string) :
  keyword word s = Some rest → (String.length rest ≤ String.length s)%nat.
Proof.
  revert s. induction word as [|a word IH]; intros s.
  - destruct s; simpl; by intros [= <-].
  - destruct s as [|b s]; [done|]. simpl.
    destruct (Ascii.eqb a b); [|done]. intros H%IH. lia.
Qed.

Lemma parseNumber_length (s lexeme rest : string) :
  parseNumber s = Some (lexeme, rest) → (String.length rest ≤ String.length s)%nat.
Proof.
  unfold parseNumber.
  set (first := match s with
                | String c r => if Ascii.eqb c "-" then ("-", r) else (EmptyString, s)
                | EmptyString => (EmptyString, s)
                end).
  assert (String.length first.2 ≤ String.length s)%nat as H1.
  { subst first. destruct s as [|c r]; [done|]. destruct (Ascii.eqb c "-"); simpl; lia. }
  destruct first as [sign s1]. simpl in H1.
  set (second := match s1 with
                 | String c r =>
                     if Ascii.eqb c "0" then Some ("0", r)
                     else if isDigit c
                          then let '(ds, rest) := takeDigits r in Some (String c ds, rest)
                          else None
                 | EmptyString => None
                 end).
  assert (∀ i x, second = Some (i, x) → (String.length x ≤ String.length s1)%nat) as H2.
  { subst second. intros i x. destruct s1 as [|c r]; [done|].
    destruct (Ascii.eqb c "0"); [intros [= _ <-]; simpl; lia|].
    destruct (isDigit c); [|done].
    destruct (takeDigits r) as [ds rest'] eqn:Ht. apply takeDigits_length in Ht.
    intros [= _ <-]. simpl. lia. }
  destruct second as [[int s2]|]; [|done]. specialize (H2 _ _ eq_refl). cbn [mbind option_bind].
  set (third := match s2 with
                | String c r =>
                    if Ascii.eqb c "." then '(ds, rest) ← digits1 r; Some (String c ds, rest)
                    else Some (EmptyString, s2)
                | EmptyString => Some (EmptyString, s2)
                end).
  assert (∀ f x, third = Some (f, x) → (String.length x ≤ String.length s2)%nat) as H3.
  { subst third. intros f x. destruct s2 as [|c r]; [by intros [= _ <-]|].
    destruct (Ascii.eqb c "."); [|by intros [= _ <-]].
    destruct (digits1 r) as [[ds rest']|] eqn:Hd; [|done]. apply digits1_length in Hd.
    intros [= _ <-]. simpl. lia. }
  destruct third as [[frac s3]|]; [|done]. specialize (H3 _ _ eq_refl). cbn [mbind option_bind].
  set (fourth := match s3 with
                 | String c r =>
                     if Ascii.eqb c "e" || Ascii.eqb c "E" then
                       match r with
                       | String sg r' =>
                           if Ascii.eqb sg "+" || Ascii.eqb sg "-" then
                             '(ds, rest) ← digits1 r'; Some (String c (String sg ds), rest)
                           else '(ds, rest) ← digits1 r; Some (String c ds, rest)
                       | EmptyString => None
                       end
                     else Some (EmptyString, s3)
                 | EmptyString => Some (EmptyString, s3)
                 end).
  assert (∀ e x, fourth = Some (e, x) → (String.length x ≤ String.length s3)%nat) as H4.
  { subst fourth. intros e x. destruct s3 as [|c r]; [by intros [= _ <-]|].
    destruct (Ascii.eqb c "e" || Ascii.eqb c "E"); [|by intros [= _ <-]].
    destruct r as [|sg r']; [done|].
    destruct (Ascii.eqb sg "+" || Ascii.eqb sg "-").
    - destruct (digits1 r') as [[ds rest']|] eqn:Hd; [|done]. apply digits1_length in Hd.
      intros [= _ <-]. simpl. lia.
    - destruct (digits1 (String sg r')) as [[ds rest']|] eqn:Hd; [|done].
      apply digits1_length in Hd. intros [= _ <-]. simpl in *. lia. }
  destruct fourth as [[exp s4]|]; [|done]. specialize (H4 _ _ eq_refl). cbn [mbind option_bind].
  intros [= _ <-]. lia.
Qed.

(** More fuel does not change what the parser returns, once the fuel is
    twice the length of what is left to read, and one more for a value, two
    more for the elements of an array. *)
Lemma fuel_enough (n : nat) :
  (∀ s k, (2 * String.length s + 1 ≤ n)%nat → parseValue (n + k) s = parseValue n s) ∧
  (∀ s acc k, (2 * String.length s ≤ n)%nat →
              parseMembers (n + k) s acc = parseMembers n s acc) ∧
  (∀ s acc k, (2 * String.length s + 2 ≤ n)%nat →
              parseElements (n + k) s acc = parseElements n s acc) ∧
  (∀ s v rest, parseValue n s = Some (v, rest) →
               (String.length rest ≤ String.length s)%nat) ∧
  (∀ s acc v rest, parseMembers n s acc = Some (v, rest) →
                   (String.length rest ≤ String.length s)%nat) ∧
  (∀ s acc v rest, parseElements n s acc = Some (v, rest) →
                   (String.length rest ≤ String.length s)%nat).
Proof.
  induction n as [|n (IHv & IHm & IHe & Lv & Lm & Le)].
  { repeat split; try done.
    - intros s k Hs. lia.
    - intros s acc k Hs. destruct s; [|simpl in Hs; lia]. by destruct k.
    - intros s acc k Hs. lia. }
  assert (∀ s v rest, parseValue (S n) s = Some (v, rest) →
                      (String.length rest ≤ String.length s)%nat) as Lv'.
  { intros s v rest. cbn [parseValue]. destruct s as [|c r]; [done|].
    destruct (Ascii.eqb c "{").
    { pose proof (skipWs_length r). destruct (skipWs r) as [|c1 r1] eqn:Hr; [done|].
      destruct (Ascii.eqb c1 "}"); [intros [= _ <-]; simpl in *; lia|].
      intros H1%Lm. simpl in *. lia. }
    destruct (Ascii.eqb c "[").
    { pose proof (skipWs_length r). destruct (skipWs r) as [|c1 r1] eqn:Hr; [done|].
      destruct (Ascii.eqb c1 "]"); [intros [= _ <-]; simpl in *; lia|].
      intros H1%Le. simpl in *. lia. }
    destruct (Ascii.eqb c dquote).
    { destruct (parseChars r) as [[str x]|] eqn:Hc; [|done].
      apply parseChars_length in Hc. simpl. intros [= _ <-]. lia. }
    destruct (Ascii.eqb c "t").
    { destruct (keyword "true" (String c r)) as [x|] eqn:Hk; [|done].
      apply keyword_length in Hk. by intros [= _ <-]. }
    destruct (Ascii.eqb c "f").
    { destruct (keyword "false" (String c r)) as [x|] eqn:Hk; [|done].
      apply keyword_length in Hk. by intros [= _ <-]. }
    destruct (Ascii.eqb c "n").
    { destruct (keyword "null" (String c r)) as [x|] eqn:Hk; [|done].
      apply keyword_length in Hk. by intros [= _ <-]. }
    destruct (parseNumber (String c r)) as [[lexeme x]|] eqn:Hn; [|done].
    apply parseNumber_length in Hn. by intros [= _ <-]. }
  assert (∀ s acc v rest, parseMembers (S n) s acc = Some (v, rest) →
                          (String.length rest ≤ String.length s)%nat) as Lm'.
  { intros s acc v rest. cbn [parseMembers]. destruct s as [|c r]; [done|].
    destruct (Ascii.eqb c dquote); [|done].
    destruct (parseChars r) as [[key r1]|] eqn:Hc; [|done]. apply parseChars_length in Hc.
    cbn [mbind option_bind]. pose proof (skipWs_length r1).
    destruct (skipWs r1) as [|c2 r2]; [done|].
    destruct (Ascii.eqb c2 ":"); [|done].
    pose proof (skipWs_length r2).
    destruct (parseValue n (skipWs r2)) as [[v' r3]|] eqn:Hv; [|done]. apply Lv in Hv.
    cbn [mbind option_bind]. pose proof (skipWs_length r3).
    destruct (skipWs r3) as [|c4 r4]; [done|].
    destruct (Ascii.eqb c4 ",").
    { pose proof (skipWs_length r4). intros Hm%Lm. simpl in *. lia. }
    destruct (Ascii.eqb c4 "}"); [|done]. intros [= _ <-]. simpl in *. lia. }
  assert (∀ s acc v rest, parseElements (S n) s acc = Some (v, rest) →
                          (String.length rest ≤ String.length s)%nat) as Le'.
  { intros s acc v rest. cbn [parseElements].
    destruct (parseValue n s) as [[v' r1]|] eqn:Hv; [|done]. apply Lv in Hv.
    cbn [mbind option_bind]. pose proof (skipWs_length r1).
    destruct (skipWs r1) as [|c2 r2]; [done|].
    destruct (Ascii.eqb c2 ",").
    { pose proof (skipWs_length r2). intros He%Le. simpl in *. lia. }
    destruct (Ascii.eqb c2 "]"); [|done]. intros [= _ <-]. simpl in *. lia. }
  split; [|split; [|split; [|by repeat split]]].
  - intros s k Hs. change (S n + k)%nat with (S (n + k)). cbn [parseValue].
    destruct s as [|c r]; [done|]. simpl in Hs.
    destruct (Ascii.eqb c "{").
    { pose proof (skipWs_length r). destruct (skipWs r) as [|c1 r1]; [done|].
      destruct (Ascii.eqb c1 "}"); [done|]. apply IHm. simpl in *. lia. }
    destruct (Ascii.eqb c "[").
    { pose proof (skipWs_length r). destruct (skipWs r) as [|c1 r1]; [done|].
      destruct (Ascii.eqb c1 "]"); [done|]. apply IHe. simpl in *. lia. }
    done.
  - intros s acc k Hs. change (S n + k)%nat with (S (n + k)). cbn [parseMembers].
    destruct s as [|c r]; [done|]. simpl in Hs.
    destruct (Ascii.eqb c dquote); [|done].
    destruct (parseChars r) as [[key r1]|] eqn:Hc; [|done]. apply parseChars_length in Hc.
    cbn [mbind option_bind]. pose proof (skipWs_length r1).
    destruct (skipWs r1) as [|c2 r2]; [done|].
    destruct (Ascii.eqb c2 ":"); [|done].
    pose proof (skipWs_length r2).
    rewrite IHv by (simpl in *; lia).
    destruct (parseValue n (skipWs r2)) as [[v' r3]|] eqn:Hv; [|done]. apply Lv in Hv.
    cbn [mbind option_bind]. pose proof (skipWs_length r3).
    destruct (skipWs r3) as [|c4 r4]; [done|].
    destruct (Ascii.eqb c4 ","); [|done].
    pose proof (skipWs_length r4). apply IHm. simpl in *. lia.
  - intros s acc k Hs. change (S n + k)%nat with (S (n + k)). cbn [parseElements].
    rewrite IHv by lia.
    destruct (parseValue n s) as [[v' r1]|] eqn:Hv; [|done]. apply Lv in Hv.
    cbn [mbind option_bind]. pose proof (skipWs_length r1).
    destruct (skipWs r1) as [|c2 r2]; [done|].
    destruct (Ascii.eqb c2 ","); [|done].
    pose proof (skipWs_length r2). apply IHe. simpl in *. lia.
Qed.

(** The fuel [JSON.parse] hands out is enough. *)
Lemma parse_fuel (text : string) (extra : nat) :
  parseValue (2 * String.length text + 2 + extra) (skipWs text) =
  parseValue (2 * String.length text + 2) (skipWs text).
Proof.
  apply (proj1 (fuel_enough (2 * String.length text + 2))).
  pose proof (skipWs_length text). lia.
Qed.
End JsonFuel.

(** ** Token extraction *)

Section Trimming.
Import JsString.

Lemma truthy_false (s : string) : truthy s = false ↔ s = EmptyString.
Proof. by destruct s. Qed.

Lemma truthy_true (s : string) : truthy s = true ↔ s ≠ EmptyString.
Proof. by destruct s. Qed.

Lemma truthy16_of (s : string) : truthy16 (utf16_of s) = truthy s.
Proof. by destruct s. Qed.

Lemma utf16_of_app (a b : string) : utf16_of (a +:+ b) = utf16_of a ++ utf16_of b.
Proof.
  unfold utf16_of. induction a as [|c a IH]; [done|].
  change (String c a +:+ b) with (String c (a +:+ b)). cbn [list_ascii_of_string].
  rewrite !fmap_cons. by rewrite IH.
Qed.

Lemma utf16_of_inj (a b : string) : utf16_of a = utf16_of b → a = b.
Proof.
  unfold utf16_of. revert b. induction a as [|c a IH]; intros [|d b]; try done.
  cbn [list_ascii_of_string]. rewrite !fmap_cons. intros [= Hc Hab].
  apply (f_equal ascii_of_N) in Hc. rewrite !ascii_N_embedding in Hc.
  by rewrite Hc, (IH b Hab).
Qed.

Lemma utf16_eqb_eq (a b : utf16) : utf16_eqb a b = true ↔ a = b.
Proof.
  revert b. induction a as [|x a IH]; intros [|y b]; try done. simpl.
  rewrite andb_true_iff, N.eqb_eq, IH. split; [by intros [-> ->] | by intros [= -> ->]].
Qed.

Lemma trimStart_empty (s : string) : trimStart s = EmptyString ↔ blank s = true.
Proof.
  induction s as [|c s IH]; [done|]. simpl.
  destruct (isWhiteSpace c); [exact IH | done].
Qed.

Lemma trimEnd_empty (s : string) : trimEnd s = EmptyString ↔ blank s = true.
Proof.
  induction s as [|c s IH]; [done|]. simpl.
  destruct (trimEnd s) eqn:Ht.
  - destruct (isWhiteSpace c); simpl; [tauto | done].
  - rewrite andb_true_iff. split; [done|]. intros [_ Hb].
    by apply IH in Hb.
Qed.

Lemma blank_trimStart (s : string) : blank (trimStart s) = blank s.
Proof.
  induction s as [|c s IH]; [done|]. simpl.
  destruct (isWhiteSpace c) eqn:Hc; [exact IH|]. simpl. by rewrite Hc.
Qed.

Lemma trim_empty (s : string) : trim s = EmptyString ↔ blank s = true.
Proof. unfold trim. by rewrite trimEnd_empty, blank_trimStart. Qed.

Lemma blank_trimEnd (s : string) : blank (trimEnd s) = blank s.
Proof.
  induction s as [|c s IH]; [done|]. simpl.
  destruct (trimEnd s) eqn:Ht.
  - assert (blank s = true) as -> by by apply trimEnd_empty.
    destruct (isWhiteSpace c) eqn:Hc; simpl; by rewrite ?Hc.
  - change (blank (String c (String a s0)))
      with (isWhiteSpace c && blank (String a s0)). by rewrite IH.
Qed.

Lemma blank_trim (s : string) : blank (trim s) = blank s.
Proof. unfold trim. by rewrite blank_trimEnd, blank_trimStart. Qed.

Lemma blank_consHead (c : ascii) (pieces : list string) :
  forallb blank (consHead c pieces) = isWhiteSpace c && forallb blank pieces.
Proof.
  destruct pieces as [|h t]; simpl; [by rewrite !andb_true_r|].
  by rewrite andb_assoc.
Qed.

Lemma splitLines_cons (c : ascii) (s' : string) :
  splitLines (String c s') =
  if isLF c then EmptyString :: splitLines s'
  else
    match s' with
    | String c' s'' =>
        if isCR c && isLF c' then EmptyString :: splitLines s''
        else consHead c (splitLines s')
    | EmptyString => consHead c (splitLines s')
    end.
Proof. reflexivity. Qed.

(** Splitting removes line feeds and carriage returns only, and these are
    white space: the pieces are all blank exactly when the text is. *)
Lemma blank_splitLines (s : string) : forallb blank (splitLines s) = blank s.
Proof.
  enough (forallb blank (splitLines s) = blank s ∧
          ∀ c, forallb blank (splitLines (String c s)) = blank (String c s)) by tauto.
  induction s as [|c' s [IH1 IH2]].
  - split; [done|]. intros c. simpl.
    destruct (isLF c) eqn:Hc; simpl.
    + apply Ascii.eqb_eq in Hc as ->. done.
    + by rewrite !andb_true_r.
  - split; [apply IH2|]. intros c.
    rewrite (splitLines_cons c). destruct (isLF c) eqn:Hc.
    + apply Ascii.eqb_eq in Hc as ->. cbn [forallb]. rewrite IH2. done.
    + destruct (isCR c && isLF c') eqn:Hcc.
      * apply andb_true_iff in Hcc as [Hcr Hlf].
        apply Ascii.eqb_eq in Hcr as ->. apply Ascii.eqb_eq in Hlf as ->.
        cbn [forallb]. rewrite IH1. done.
      * rewrite blank_consHead, IH2. done.
Qed.
End Trimming.

Section Extraction.
Import JsString JsError JSON McpClientPool.

Lemma nonEmptyLines_nil (raw : string) : nonEmptyLines raw = [] ↔ blank raw = true.
Proof.
  unfold nonEmptyLines. rewrite <- blank_splitLines.
  induction (splitLines raw) as [|l ls IH]; [done|].
  cbn [map forallb]. rewrite filter_cons, andb_true_iff, <- IH.
  destruct (decide (truthy (trim l) = true)) as [Ht|Ht].
  - split; [done|]. intros [Hb _]. apply trim_empty in Hb. by rewrite Hb in Ht.
  - apply not_true_is_false, truthy_false, trim_empty in Ht. tauto.
Qed.

Lemma nonEmptyLines_truthy (raw line : string) :
  line ∈ nonEmptyLines raw → truthy line = true.
Proof. unfold nonEmptyLines. by intros [? _]%list_elem_of_filter. Qed.

Lemma usableString_truthy (v : option json) (t : utf16) :
  usableString v = Some t → truthy16 t = true.
Proof.
  destruct v as [[]|]; try done. simpl.
  destruct (truthy16 s) eqn:Hs; [|done]. by intros [= <-].
Qed.

Lemma fromJson_truthy (text : string) (t : utf16) :
  fromJson text = Some t → truthy16 t = true.
Proof.
  unfold fromJson. destruct (parse text) as [[]|]; try done.
  destruct (usableString (getMember (utf16_of "access_token") members)) eqn:H1.
  { intros [= <-]. by eapply usableString_truthy. }
  destruct (usableString (getMember (utf16_of "token") members)) eqn:H2.
  { intros [= <-]. by eapply usableString_truthy. }
  apply usableString_truthy.
Qed.

Lemma scanCandidates_truthy (candidates : list string) (t : utf16) :
  scanCandidates candidates = Some t → truthy16 t = true.
Proof.
  induction candidates as [|c cs IH]; [done|]. simpl.
  destruct (fromJson c) eqn:Hc; [|exact IH].
  intros [= <-]. by eapply fromJson_truthy.
Qed.

Lemma last_Some_elem_of {A} (l : list A) (x : A) : last l = Some x → x ∈ l.
Proof.
  intros H. apply last_Some in H as [l' ->]. apply elem_of_app. right.
  apply list_elem_of_here.
Qed.

Lemma extractToken_truthy (raw : string) (t : utf16) :
  extractToken raw = Some t → truthy16 t = true.
Proof.
  unfold extractToken. cbv zeta.
  destruct (scanCandidates _) eqn:Hs.
  { intros [= <-]. by eapply scanCandidates_truthy. }
  destruct (fromJson raw) eqn:Hj.
  { intros [= <-]. by eapply fromJson_truthy. }
  destruct (last (nonEmptyLines raw)) as [line|] eqn:Hl; [|done].
  intros [= <-]. rewrite truthy16_of.
  apply last_Some_elem_of in Hl. by eapply nonEmptyLines_truthy.
Qed.

(** The fallback to the last line is there as soon as the text is not
    blank, so [extractToken] does not return [null] on it. *)
Lemma extractToken_total (raw : string) :
  blank raw = false → ∃ t, extractToken raw = Some t ∧ truthy16 t = true.
Proof.
  intros Hb.
  assert (is_Some (extractToken raw)) as [t Ht].
  { unfold extractToken. cbv zeta.
    destruct (scanCandidates _); [by eexists|].
    destruct (fromJson raw); [by eexists|].
    destruct (nonEmptyLines raw) as [|l ls] eqn:Hl.
    - apply nonEmptyLines_nil in Hl. congruence.
    - rewrite <- Hl. apply fmap_is_Some, last_is_Some. by rewrite Hl. }
  exists t. split; [done|]. by eapply extractToken_truthy.
Qed.

Lemma trim_not_blank (out : string) :
  trim out ≠ EmptyString → blank (trim out) = false.
Proof.
  intros Hne. rewrite blank_trim. apply not_true_is_false.
  intros Hb. by apply trim_empty in Hb.
Qed.
End Extraction.

Section TokenClaims.
Import JsString JsError JSON McpClientPool.

Lemma fromJson_yields (text : string) :
  fromJson text = Spec.yields Spec.nonEmptyStringField text.
Proof.
  unfold fromJson, Spec.yields, Spec.jsonObject, Spec.fieldPriority.
  destruct (parse text) as [[]|]; try reflexivity.
  cbn [mbind option_bind omap list_omap]. unfold Spec.nonEmptyStringField, usableString.
  destruct (getMember (utf16_of "access_token") members) as [[| | |s1| |]|];
    destruct (getMember (utf16_of "token") members) as [[| | |s2| |]|];
    destruct (getMember (utf16_of "bearer") members) as [[| | |s3| |]|];
    try reflexivity;
    repeat match goal with
           | |- context [truthy16 ?s] => destruct (truthy16 s)
           end; reflexivity.
Qed.

Lemma scanCandidates_head (candidates : list string) :
  scanCandidates candidates =
  head (omap (Spec.yields Spec.nonEmptyStringField) candidates).
Proof.
  induction candidates as [|c cs IH]; [done|].
  cbn. rewrite <- fromJson_yields. by destruct (fromJson c).
Qed.

Lemma extractToken_refines (raw : string) :
  extractToken raw = Spec.extractToken_amended raw.
Proof.
  unfold extractToken, Spec.extractToken_amended, Spec.extractTokenBy. cbv zeta.
  by rewrite scanCandidates_head, rev_alt, <- fromJson_yields.
Qed.

Lemma empty_output_rejected (r : ExecResult) :
  exec_error r = None → nonEmptyLines (stdout r) = [] →
  tokenCommandCallback r = Throw emptyOutputError.
Proof.
  intros He Hl. unfold tokenCommandCallback. rewrite He. cbv zeta.
  apply nonEmptyLines_nil, trim_empty in Hl. by rewrite Hl.
Qed.

Lemma output_accepted (r : ExecResult) :
  exec_error r = None → nonEmptyLines (stdout r) ≠ [] →
  ∃ token, Spec.extractToken_amended (trim (stdout r)) = Some token ∧
           tokenCommandCallback r = Return token.
Proof.
  intros He Hl. unfold tokenCommandCallback. rewrite He. cbv zeta.
  assert (blank (trim (stdout r)) = false) as Hb.
  { rewrite blank_trim. apply not_true_is_false. intros Hb.
    by apply nonEmptyLines_nil in Hb. }
  destruct (extractToken_total _ Hb) as (t & Ht & Htruthy).
  exists t. rewrite <- extractToken_refines, Ht, Htruthy.
  destruct (trim (stdout r)); [done|]. done.
Qed.

(** The precedence on a few outputs: an object printed over several lines
    is found by the parse of the whole text; of two JSON lines the last one
    wins; a field that holds no string is passed over; without any JSON the
    last line that is not empty is the token, trimmed. *)
Example extractToken_pretty_printed :
  extractToken ("{" +:+ Spec.LF +:+ "  " +:+ Spec.quoted "bearer" +:+ ": " +:+
                Spec.quoted "b1" +:+ Spec.LF +:+ "}") = Some (utf16_of "b1").
Proof. vm_compute; reflexivity. Qed.

Example extractToken_last_json_line :
  extractToken ("{" +:+ Spec.quoted "token" +:+ ":" +:+ Spec.quoted "old" +:+ "}" +:+
                String "013" Spec.LF +:+
                "{" +:+ Spec.quoted "token" +:+ ":" +:+ Spec.quoted "new" +:+ "}")
  = Some (utf16_of "new").
Proof. vm_compute; reflexivity. Qed.

Example extractToken_number_field :
  extractToken ("{" +:+ Spec.quoted "access_token" +:+ ":17," +:+
                Spec.quoted "bearer" +:+ ":" +:+ Spec.quoted "b2" +:+ "}")
  = Some (utf16_of "b2").
Proof. vm_compute; reflexivity. Qed.

Example extractToken_last_line :
  extractToken ("Logging in..." +:+ Spec.LF +:+ "  tok-123  " +:+ Spec.LF +:+ "   ")
  = Some (utf16_of "tok-123").
Proof. vm_compute; reflexivity. Qed.

(** C3, as it is stated, fails.  On an object whose [access_token] is the
    empty string and whose [token] is [x], the code returns [x]: a field
    that holds an empty string is passed over.  The rule as stated takes
    the first field that holds a string, here the empty one. *)
Lemma extractToken_skips_empty_field :
  extractToken Spec.example_empty_first = Some (utf16_of "x") ∧
  Spec.extractToken_stated Spec.example_empty_first = Some (utf16_of EmptyString).
Proof. split; vm_compute; reflexivity. Qed.

(** C3, amended.  [extractToken] follows this precedence: the trimmed lines
    that are not empty are scanned from the last one to the first one, and
    the first of them that parses as a JSON object with a field among
    [access_token], [token], [bearer] holding a string that is not empty
    gives the first such field in that priority; when no line gives one,
    the whole raw text is tried as one JSON object in the same way; when
    that gives nothing, the result is the last line that is not empty.  An
    output with no line that is not empty is rejected with the empty-output
    error, and any other output of a command that did not fail gives the
    token extracted from its trimmed text.  The three examples give [abc],
    [xyz] and [plain-token-value]. *)
Theorem token_extraction_precedence :
  (∀ raw, extractToken raw = Spec.extractToken_amended raw) ∧
  (∀ r, exec_error r = None → nonEmptyLines (stdout r) = [] →
        tokenCommandCallback r = Throw emptyOutputError) ∧
  (∀ r, exec_error r = None → nonEmptyLines (stdout r) ≠ [] →
        ∃ token, Spec.extractToken_amended (trim (stdout r)) = Some token ∧
                 tokenCommandCallback r = Return token) ∧
  extractToken Spec.example_access_token = Some (utf16_of "abc") ∧
  extractToken Spec.example_noise_then_token = Some (utf16_of "xyz") ∧
  extractToken Spec.example_plain = Some (utf16_of "plain-token-value").
Proof.
  split; [exact extractToken_refines|]. split; [exact empty_output_rejected|].
  split; [exact output_accepted|].
  repeat split; vm_compute; reflexivity.
Qed.

Lemma token_extraction_precedence_witness :
  tokenCommandCallback
    {| exec_error := None; stdout := " " +:+ Spec.LF +:+ " "; stderr := "warning" |}
  = Throw emptyOutputError ∧
  tokenCommandCallback
    {| exec_error := None; stdout := Spec.example_noise_then_token +:+ Spec.LF;
       stderr := EmptyString |}
  = Return (utf16_of "xyz").
Proof.
  split.
  - apply (proj1 (proj2 token_extraction_precedence)); vm_compute; reflexivity.
  - vm_compute; reflexivity.
Defined.

Lemma commandFailed_not_unusable (stderr message : string) :
  commandFailedError stderr message ≠ unusableTokenError.
Proof.
  unfold commandFailedError, unusableTokenError, newError.
  intros [=].
Qed.

Lemma tokenCommandCallback_cases (r : ExecResult) :
  (∃ token, tokenCommandCallback r = Return token ∧ truthy16 token = true) ∨
  tokenCommandCallback r = Throw emptyOutputError ∨
  (∃ message, exec_error r = Some message ∧
              tokenCommandCallback r = Throw (commandFailedError (stderr r) message)).
Proof.
  unfold tokenCommandCallback. destruct (exec_error r) as [message|].
  { right. right. by exists message. }
  cbv zeta. destruct (truthy (trim (stdout r))) eqn:Hraw; simpl.
  - left. apply truthy_true, trim_not_blank, extractToken_total in Hraw as (t & -> & Ht).
    rewrite Ht. simpl. by exists t.
  - right. by left.
Qed.

Lemma runTokenCommand_result (E : Env) (command : string) (args : list string)
    (env : option (gmap string string)) (w : World) :
  ∃ r, (runTokenCommand E command args env w).1 = tokenCommandCallback r.
Proof.
  unfold runTokenCommand. destruct (execFile E _ _ _ _) as [r hooks]. by exists r.
Qed.

Lemma getAuthToken_failure (E : Env) (config : Config.ServerConfig) (forceRefresh : bool)
    (w w' : World) (err : thrown) :
  getAuthToken E config forceRefresh w = (Throw err, w') →
  ∃ r, tokenCommandCallback r = Throw err.
Proof.
  unfold getAuthToken, bind, gets, now, emit, modify, ret. cbv zeta.
  pose proof (runTokenCommand_result E
                (default EmptyString (Config.authTokenCommand config))
                (default [] (Config.authTokenArgs config) ++
                 (if forceRefresh then default [] (Config.authTokenRefreshArgs config)
                  else []))
                (Config.env config)) as Hrun.
  destruct (tokenCache w !! Config.name config) as [c|].
  - destruct (negb forceRefresh && _); [done|].
    match goal with |- context [runTokenCommand E ?c ?a ?e ?w0] =>
      destruct (Hrun w0) as [r Hr]; destruct (runTokenCommand E c a e w0) as [[t|e'] w1]
    end; [done|].
    intros [= <- _]. by exists r.
  - match goal with |- context [runTokenCommand E ?c ?a ?e ?w0] =>
      destruct (Hrun w0) as [r Hr]; destruct (runTokenCommand E c a e w0) as [[t|e'] w1]
    end; [done|].
    intros [= <- _]. by exists r.
Qed.

(** C10.  On every command output whose trimmed text is not empty,
    [extractToken] returns a token, and one that is not empty; so the
    callback of the token command never rejects with the unusable-token
    error, and a credential fetch that fails fails with the empty-output
    error or with a command-failure error. *)
Theorem unusable_token_unreachable :
  (∀ out, trim out ≠ EmptyString →
          ∃ token, extractToken (trim out) = Some token ∧ truthy16 token = true) ∧
  (∀ r, tokenCommandCallback r ≠ Throw unusableTokenError) ∧
  (∀ E config forceRefresh w w' err,
     getAuthToken E config forceRefresh w = (Throw err, w') →
     err = emptyOutputError ∨
     ∃ stderr message, err = commandFailedError stderr message).
Proof.
  split; [|split].
  - intros out Hne. by apply extractToken_total, trim_not_blank.
  - intros r. destruct (tokenCommandCallback_cases r) as [(t & -> & _)|[->|(m & _ & ->)]].
    + done.
    + done.
    + apply not_eq_sym. intros H. injection H as H.
      by apply (commandFailed_not_unusable (stderr r) m).
  - intros E config forceRefresh w w' err [r Hr]%getAuthToken_failure.
    destruct (tokenCommandCallback_cases r) as [(t & Ht & _)|[Ht|(m & _ & Ht)]];
      rewrite Ht in Hr; try done.
    + left. by injection Hr.
    + right. injection Hr as <-. eauto.
Qed.

Lemma unusable_token_unreachable_witness :
  ∃ token, extractToken (trim ("  junk: {" +:+ Spec.LF +:+ "  ")) = Some token ∧
           truthy16 token = true.
Proof.
  apply (proj1 unusable_token_unreachable). vm_compute. discriminate.
Defined.
End TokenClaims.

(** ** The registry and the hooks *)

Section MapFacts.
Context {V : Type}.
Implicit Types (m : list (string * V)) (k : string).

Lemma get_set_eq k (v : V) m : JsMap.get k (JsMap.set k v m) = Some v.
Proof.
  induction m as [|[k' v'] m IH]; simpl.
  - by rewrite String.eqb_refl.
  - destruct (String.eqb k' k) eqn:Hk; simpl; [by rewrite String.eqb_refl|].
    by rewrite Hk.
Qed.

Lemma get_set_ne k k' (v : V) m : k ≠ k' → JsMap.get k' (JsMap.set k v m) = JsMap.get k' m.
Proof.
  intros Hne. induction m as [|[k0 v0] m IH]; simpl.
  - by apply String.eqb_neq in Hne as ->.
  - destruct (String.eqb k0 k) eqn:Hk; simpl.
    + apply String.eqb_eq in Hk as ->. by apply String.eqb_neq in Hne as ->.
    + by rewrite IH.
Qed.

Lemma get_delete_eq k m : JsMap.get k (JsMap.delete k m) = None.
Proof.
  induction m as [|[k' v'] m IH]; [done|]. simpl.
  destruct (String.eqb k' k) eqn:Hk; [done|]. simpl. by rewrite Hk.
Qed.

Lemma get_delete_ne k k' m : k ≠ k' → JsMap.get k' (JsMap.delete k m) = JsMap.get k' m.
Proof.
  intros Hne. induction m as [|[k0 v0] m IH]; [done|]. simpl.
  destruct (String.eqb k0 k) eqn:Hk; simpl.
  - apply String.eqb_eq in Hk as ->. by apply String.eqb_neq in Hne as ->.
  - by rewrite IH.
Qed.

Lemma delete_absent k m : JsMap.get k m = None → JsMap.delete k m = m.
Proof.
  induction m as [|[k' v'] m IH]; [done|]. simpl.
  destruct (String.eqb k' k); [done|]. intros H. by rewrite IH.
Qed.

Lemma get_update k k' (f : V → V) m :
  JsMap.get k' (JsMap.update k f m) =
  if String.eqb k k' then f <$> JsMap.get k' m else JsMap.get k' m.
Proof.
  induction m as [|[k0 v0] m IH]; simpl; [by destruct (String.eqb k k')|].
  destruct (String.eqb k0 k) eqn:Hk; simpl.
  - apply String.eqb_eq in Hk as ->. by destruct (String.eqb k k').
  - rewrite IH. destruct (String.eqb k0 k') eqn:Hk'; [|done].
    apply String.eqb_eq in Hk' as ->. by rewrite String.eqb_sym, Hk.
Qed.

Lemma keys_update k (f : V → V) m : JsMap.keys (JsMap.update k f m) = JsMap.keys m.
Proof.
  unfold JsMap.keys. induction m as [|[k0 v0] m IH]; [done|]. simpl.
  destruct (String.eqb k0 k); simpl; [done|]. by rewrite IH.
Qed.

Lemma get_None_keys k m : JsMap.get k m = None ↔ k ∉ JsMap.keys m.
Proof.
  unfold JsMap.keys. induction m as [|[k0 v0] m IH]; simpl.
  - split; [intros _; apply not_elem_of_nil | done].
  - rewrite not_elem_of_cons, <- IH.
    destruct (String.eqb k0 k) eqn:Hk.
    + apply String.eqb_eq in Hk as ->. split; [done | by intros []].
    + apply String.eqb_neq in Hk. split; [by intros ? | by intros []].
Qed.

Lemma keys_delete k m :
  JsMap.keys (JsMap.delete k m) = filter (fun k' => k' ≠ k) (JsMap.keys m).
Proof.
  unfold JsMap.keys. induction m as [|[k0 v0] m IH]; [done|]. simpl.
  rewrite filter_cons. simpl.
  destruct (String.eqb k0 k) eqn:Hk.
  - apply String.eqb_eq in Hk as ->. by rewrite decide_False by tauto.
  - apply String.eqb_neq in Hk. rewrite decide_True by done. simpl. by rewrite IH.
Qed.
End MapFacts.

Section HookFacts.
Import McpClientPool Spec.

Lemma lowered_true (o : option ClientEntry) : lowered true <$> o = o.
Proof.
  destruct o as [[]|]; [|done]. unfold lowered. simpl. by rewrite andb_true_r.
Qed.

Lemma lowered_lowered (a b : bool) (o : option ClientEntry) :
  lowered a <$> (lowered b <$> o) = lowered (b && a) <$> o.
Proof.
  destruct o as [[]|]; [|done]. unfold lowered. simpl. by rewrite andb_assoc.
Qed.

Lemma markDisconnected_get (n k : string) (w : World) :
  JsMap.get k (clients (markDisconnected n w)) =
  lowered (negb (String.eqb n k)) <$> JsMap.get k (clients w).
Proof.
  unfold markDisconnected. simpl. rewrite get_update.
  destruct (String.eqb n k); simpl; [|by rewrite lowered_true].
  destruct (JsMap.get k (clients w)) as [[]|]; [|done].
  unfold lowered. simpl. by rewrite andb_false_r.
Qed.

Lemma fireHook_get (h : HookKind * nat) (k : string) (w : World) :
  ∃ keep, JsMap.get k (clients (fireHook h w)) = lowered keep <$> JsMap.get k (clients w).
Proof.
  unfold fireHook. destruct (transports w !! h.2) as [obj|].
  - destruct (hookOf h.1 obj) as [n|].
    + eexists. apply markDisconnected_get.
    + exists true. by rewrite lowered_true.
  - exists true. by rewrite lowered_true.
Qed.

Lemma fireHook_frame (h : HookKind * nat) (w : World) :
  trace (fireHook h w) = trace w ∧ transports (fireHook h w) = transports w ∧
  tokenCache (fireHook h w) = tokenCache w ∧ nextClient (fireHook h w) = nextClient w ∧
  JsMap.keys (clients (fireHook h w)) = JsMap.keys (clients w).
Proof.
  unfold fireHook. destruct (transports w !! h.2) as [obj|]; [|done].
  destruct (hookOf h.1 obj) as [n|]; [|done].
  unfold markDisconnected. simpl. by rewrite keys_update.
Qed.

Lemma fireHooks_get (hs : list (HookKind * nat)) (k : string) (w : World) :
  ∃ keep, JsMap.get k (clients (fireHooks hs w)) = lowered keep <$> JsMap.get k (clients w).
Proof.
  unfold fireHooks. revert w. induction hs as [|h hs IH]; intros w; simpl.
  - exists true. by rewrite lowered_true.
  - destruct (IH (fireHook h w)) as [a Ha]. destruct (fireHook_get h k w) as [b Hb].
    exists (b && a). by rewrite Ha, Hb, lowered_lowered.
Qed.

Lemma fireHooks_frame (hs : list (HookKind * nat)) (w : World) :
  trace (fireHooks hs w) = trace w ∧ transports (fireHooks hs w) = transports w ∧
  tokenCache (fireHooks hs w) = tokenCache w ∧ nextClient (fireHooks hs w) = nextClient w ∧
  JsMap.keys (clients (fireHooks hs w)) = JsMap.keys (clients w).
Proof.
  unfold fireHooks. revert w. induction hs as [|h hs IH]; intros w; simpl; [done|].
  destruct (IH (fireHook h w)) as (-> & -> & -> & -> & ->). apply fireHook_frame.
Qed.

Lemma trace_fireHooks hs w : trace (fireHooks hs w) = trace w.
Proof. apply fireHooks_frame. Qed.

Lemma transports_fireHooks hs w : transports (fireHooks hs w) = transports w.
Proof. apply fireHooks_frame. Qed.

Lemma tokenCache_fireHooks hs w : tokenCache (fireHooks hs w) = tokenCache w.
Proof. apply fireHooks_frame. Qed.

Lemma nextClient_fireHooks hs w : nextClient (fireHooks hs w) = nextClient w.
Proof. apply fireHooks_frame. Qed.

Lemma keys_fireHooks hs w :
  JsMap.keys (clients (fireHooks hs w)) = JsMap.keys (clients w).
Proof. apply fireHooks_frame. Qed.
End HookFacts.

(** ** Traces of the computations *)

Section TraceRules.
Import JsError McpClientPool Spec.
Context {A B : Type}.
Implicit Types (p : event → bool) (n : nat) (w : World).

Lemma tally_app p (l1 l2 : list event) : tally p (l1 ++ l2) = (tally p l1 + tally p l2)%nat.
Proof. induction l1 as [|ev l1 IH]; simpl; [done|]. rewrite IH. lia. Qed.

Lemma tally_zero_not_in p (l : list event) (ev : event) :
  tally p l = 0%nat → ev ∈ l → p ev = false.
Proof.
  induction l as [|x l IH]; [by intros _ ?%elem_of_nil|]. simpl.
  unfold weight at 1. intros H [->|Hin]%elem_of_cons.
  - destruct (p x); [lia | done].
  - apply IH; [|done]. destruct (p x); lia.
Qed.

Lemma extends_refl p n w : extends p n w w.
Proof. exists []. rewrite app_nil_r. split; [done | simpl; lia]. Qed.

Lemma extends_same p n w w' : trace w' = trace w → extends p n w w'.
Proof. intros H. exists []. rewrite app_nil_r. split; [done | simpl; lia]. Qed.

Lemma extends_trans p n1 n2 n w1 w2 w3 :
  extends p n1 w1 w2 → extends p n2 w2 w3 → (n1 + n2 ≤ n)%nat → extends p n w1 w3.
Proof.
  intros (l1 & H1 & Hn1) (l2 & H2 & Hn2) Hle. exists (l1 ++ l2).
  rewrite H2, H1, tally_app, app_assoc. split; [done | lia].
Qed.

Lemma extends_mono p n n' w w' : extends p n w w' → (n ≤ n')%nat → extends p n' w w'.
Proof. intros (new & ? & ?) Hle. exists new. split; [done | lia]. Qed.

Lemma extends_event p n w w' (ev : event) :
  trace w' = trace w ++ [ev] → (weight p ev ≤ n)%nat → extends p n w w'.
Proof. intros H Hle. exists [ev]. split; [done | simpl; lia]. Qed.

Lemma atMost_mono p n n' (m : M A) : atMost p n m → (n ≤ n')%nat → atMost p n' m.
Proof. intros H Hle w. by eapply extends_mono. Qed.

Lemma atMost_ret p n (a : A) : atMost p n (ret a).
Proof. intros w. apply extends_refl. Qed.

Lemma atMost_throw p n (err : thrown) : atMost p n (throw (A := A) err).
Proof. intros w. apply extends_refl. Qed.

Lemma atMost_gets p n (f : World → A) : atMost p n (gets f).
Proof. intros w. apply extends_refl. Qed.

Lemma atMost_bind p n1 n2 n (m : M A) (k : A → M B) :
  atMost p n1 m → (∀ a, atMost p n2 (k a)) → (n1 + n2 ≤ n)%nat → atMost p n (bind m k).
Proof.
  intros Hm Hk Hle w. unfold bind. specialize (Hm w).
  destruct (m w) as [[a|err] w1]; simpl in *.
  - eapply extends_trans; [exact Hm | apply Hk | done].
  - eapply extends_mono; [exact Hm | lia].
Qed.

Lemma atMost_tryCatch p n1 n2 n (m : M A) (handler : thrown → M A) :
  atMost p n1 m → (∀ err, atMost p n2 (handler err)) → (n1 + n2 ≤ n)%nat →
  atMost p n (tryCatch m handler).
Proof.
  intros Hm Hk Hle w. unfold tryCatch. specialize (Hm w).
  destruct (m w) as [[a|err] w1]; simpl in *.
  - eapply extends_mono; [exact Hm | lia].
  - eapply extends_trans; [exact Hm | apply Hk | done].
Qed.
End TraceRules.

Section TracePrimitives.
Import JsError McpClientPool Spec.
Implicit Types (p : event → bool) (n : nat).

Lemma atMost_modify p n (f : World → World) :
  (∀ w, trace (f w) = trace w) → atMost p n (modify f).
Proof. intros Hf w. apply extends_same, Hf. Qed.

Lemma atMost_emit p n (ev : event) : (weight p ev ≤ n)%nat → atMost p n (emit ev).
Proof. intros Hle w. by eapply extends_event. Qed.

Lemma await_trace {A} (ev : event) (ask : list event → answer A) (w : World) :
  trace (await ev ask w).2 = trace w ++ [ev].
Proof.
  unfold await. cbv zeta.
  destruct (outcome (ask (trace w))); simpl; by rewrite trace_fireHooks.
Qed.

Lemma atMost_await {A} p n (ev : event) (ask : list event → answer A) :
  (weight p ev ≤ n)%nat → atMost p n (await ev ask).
Proof. intros Hle w. eapply extends_event; [apply await_trace | done]. Qed.
End TracePrimitives.

(** ** [connect] and [reconnect] step by step *)

Section ConnectSteps.
Import JsString JsError JSON McpClientPool Spec.
Variable E : Env.

Lemma await_eq {A} (ev : event) (ask : list event → answer A) (w : World) :
  await ev ask w =
  (match outcome (ask (trace w)) with inl err => Throw err | inr v => Return v end,
   resumed ev (fired (ask (trace w))) w).
Proof. unfold await, resumed. cbv zeta. by destruct (outcome _). Qed.

Lemma closeIgnoringErrors_eq (t : nat) (w : World) :
  closeIgnoringErrors E t w =
  (Return tt, resumed (EvTransportClose t) (fired (transport_close E (trace w) t)) w).
Proof.
  unfold closeIgnoringErrors, tryCatch. rewrite await_eq.
  by destruct (outcome _) as [err|[]].
Qed.

Lemma newClient_eq (w : World) :
  newClient w =
  (Return (nextClient w),
   {| clients := clients w; tokenCache := tokenCache w; transports := transports w;
      nextClient := S (nextClient w); trace := trace w ++ [EvNewClient (nextClient w)] |}).
Proof. reflexivity. Qed.

(** The end of [connect], from the lookup of the transport object on. *)
Lemma connect_tail (config : Config.ServerConfig) (c t : nat) (w : World) :
  (let* obj := gets (fun w => transports w !! t) in
   (if from_option (fun o => isStdio (built o)) false obj
    then setHooks t (Config.name config) else ret tt) ;;
   modify (with_clients
             (JsMap.set (Config.name config)
                {| config := config; client := c; transport := t; connected := true |})) ;;
   ret c) w
  = (Return c, installed config c t w).
Proof.
  unfold installed, setHooks, bind, gets, modify, ret.
  destruct (transports w !! t) as [obj|] eqn:Hobj; cbn [from_option]; [|done].
  destruct (isStdio (built obj)); [|done].
  unfold with_transports. by rewrite Hobj.
Qed.

Lemma connect_connectOver (config : Config.ServerConfig)
    (options : option ConnectOptions) (w : World) :
  connect E config options w =
  connectOver E (nextClient w) config options (newClient w).2.
Proof. unfold connect. unfold bind at 1. by rewrite newClient_eq. Qed.

(** [connectOver], one awaited step after the other. *)
Lemma connectOver_eq (c : nat) (config : Config.ServerConfig)
    (options : option ConnectOptions) (w0 : World) :
  connectOver E c config options w0 =
  match createTransport E config options w0 with
  | (Throw e, w1) => (Throw e, w1)
  | (Return t0, w1) =>
      let a := client_connect E (trace w1) c t0 in
      let w2 := resumed (EvClientConnect c t0) (fired a) w1 in
      match outcome a with
      | inr _ => (Return c, installed config c t0 w2)
      | inl err =>
          if usesAuthTokenCommand config && isAuthError err && negb (forced options) then
            let w3 := resumed (EvTransportClose t0)
                        (fired (transport_close E (trace w2) t0)) w2 in
            match createTransport E config forcedOptions w3 with
            | (Throw e, w4) => (Throw e, w4)
            | (Return t1, w4) =>
                let a' := client_connect E (trace w4) c t1 in
                let w5 := resumed (EvClientConnect c t1) (fired a') w4 in
                match outcome a' with
                | inr _ => (Return c, installed config c t1 w5)
                | inl e => (Throw e, w5)
                end
            end
          else (Throw err, w2)
      end
  end.
Proof.
  unfold connectOver. unfold bind at 1.
  destruct (createTransport E config options _) as [[t0|e] w1]; [|done].
  unfold bind at 1. unfold tryCatch at 1. unfold bind at 1.
  rewrite await_eq. cbv zeta.
  destruct (outcome (client_connect E (trace w1) c t0)) as [err|[]].
  - destruct (usesAuthTokenCommand config && isAuthError err && negb (forced options));
      [|done].
    unfold bind at 1. rewrite closeIgnoringErrors_eq.
    unfold bind at 1.
    destruct (createTransport E config forcedOptions _) as [[t1|e] w4]; [|done].
    unfold bind at 1. rewrite await_eq.
    destruct (outcome (client_connect E (trace w4) c t1)) as [e|[]]; [done|].
    unfold ret at 1. apply connect_tail.
  - unfold ret at 1. apply connect_tail.
Qed.

(** [connect], one awaited step after the other. *)
Lemma connect_eq (config : Config.ServerConfig) (options : option ConnectOptions)
    (w : World) :
  connect E config options w =
  let c := nextClient w in
  match createTransport E config options (newClient w).2 with
  | (Throw e, w1) => (Throw e, w1)
  | (Return t0, w1) =>
      let a := client_connect E (trace w1) c t0 in
      let w2 := resumed (EvClientConnect c t0) (fired a) w1 in
      match outcome a with
      | inr _ => (Return c, installed config c t0 w2)
      | inl err =>
          if usesAuthTokenCommand config && isAuthError err && negb (forced options) then
            let w3 := resumed (EvTransportClose t0)
                        (fired (transport_close E (trace w2) t0)) w2 in
            match createTransport E config forcedOptions w3 with
            | (Throw e, w4) => (Throw e, w4)
            | (Return t1, w4) =>
                let a' := client_connect E (trace w4) c t1 in
                let w5 := resumed (EvClientConnect c t1) (fired a') w4 in
                match outcome a' with
                | inr _ => (Return c, installed config c t1 w5)
                | inl e => (Throw e, w5)
                end
            end
          else (Throw err, w2)
      end
  end.
Proof. rewrite connect_connectOver. apply connectOver_eq. Qed.

(** With the refresh forced, [connectOver] is one build and one attempt. *)
Lemma connectOver_forced (c : nat) (config : Config.ServerConfig) (w3 : World) :
  connectOver E c config forcedOptions w3 =
  match createTransport E config forcedOptions w3 with
  | (Throw e, w4) => (Throw e, w4)
  | (Return t1, w4) =>
      let a' := client_connect E (trace w4) c t1 in
      let w5 := resumed (EvClientConnect c t1) (fired a') w4 in
      match outcome a' with
      | inr _ => (Return c, installed config c t1 w5)
      | inl e => (Throw e, w5)
      end
  end.
Proof.
  rewrite connectOver_eq.
  destruct (createTransport E config forcedOptions w3) as [[t1|e] w4]; [|done].
  cbv zeta. destruct (outcome _) as [e|[]]; [|done].
  replace (negb (forced forcedOptions)) with false by done.
  by rewrite andb_false_r.
Qed.

Lemma reconnect_eq (serverName : string) (options : option ConnectOptions) (w : World) :
  reconnect E serverName options w =
  match JsMap.get serverName (clients w) with
  | None => (Return tt, w)
  | Some entry =>
      let w1 := resumed (EvTransportClose (transport entry))
                  (fired (transport_close E (trace w) (transport entry))) w in
      match connect E (config entry) options w1 with
      | (Return _, w2) => (Return tt, w2)
      | (Throw err, w2) => (Throw err, w2)
      end
  end.
Proof.
  unfold reconnect, bind, gets. simpl.
  destruct (JsMap.get serverName (clients w)) as [entry|]; [|done].
  rewrite closeIgnoringErrors_eq. cbv zeta.
  by destruct (connect E (config entry) options _) as [[c|err] w2].
Qed.
End ConnectSteps.

(** ** Status, hooks and closing *)

Section WorldSteps.
Import JsString JsError JSON McpClientPool Spec.

Lemma resumed_trace ev hooks w : trace (resumed ev hooks w) = trace w ++ [ev].
Proof. unfold resumed. by rewrite trace_fireHooks. Qed.

Lemma resumed_transports ev hooks w : transports (resumed ev hooks w) = transports w.
Proof. unfold resumed. by rewrite transports_fireHooks. Qed.

Lemma resumed_tokenCache ev hooks w : tokenCache (resumed ev hooks w) = tokenCache w.
Proof. unfold resumed. by rewrite tokenCache_fireHooks. Qed.

Lemma resumed_nextClient ev hooks w : nextClient (resumed ev hooks w) = nextClient w.
Proof. unfold resumed. by rewrite nextClient_fireHooks. Qed.

Lemma resumed_keys ev hooks w :
  JsMap.keys (clients (resumed ev hooks w)) = JsMap.keys (clients w).
Proof. unfold resumed. by rewrite keys_fireHooks. Qed.

Lemma resumed_get ev hooks k w :
  ∃ keep, JsMap.get k (clients (resumed ev hooks w)) = lowered keep <$> JsMap.get k (clients w).
Proof.
  unfold resumed.
  apply (fireHooks_get hooks k (with_trace (fun tr => tr ++ [ev]) w)).
Qed.

Lemma installed_trace config c t w : trace (installed config c t w) = trace w.
Proof.
  unfold installed. destruct (transports w !! t) as [obj|]; [|done].
  by destruct (isStdio (built obj)).
Qed.

Lemma installed_get config c t w :
  JsMap.get (Config.name config) (clients (installed config c t w)) =
  Some {| config := config; client := c; transport := t; connected := true |}.
Proof. unfold installed. simpl. apply get_set_eq. Qed.

Lemma installed_get_ne config c t k w :
  Config.name config ≠ k →
  JsMap.get k (clients (installed config c t w)) = JsMap.get k (clients w).
Proof.
  intros Hne. unfold installed. simpl. rewrite get_set_ne by done.
  destruct (transports w !! t) as [obj|]; [|done]. by destruct (isStdio (built obj)).
Qed.

Lemma installed_hooks config c t w obj :
  transports w !! t = Some obj → isStdio (built obj) = true →
  transports (installed config c t w) !! t =
  Some {| built := built obj; onerror := Some (Config.name config);
          onclose := Some (Config.name config) |}.
Proof.
  intros Hobj Hstdio. unfold installed. rewrite Hobj, Hstdio. simpl.
  apply list_lookup_insert_eq. by eapply lookup_lt_Some.
Qed.

Lemma getStatus_markDisconnected n w : getStatus n (markDisconnected n w) = false.
Proof.
  unfold getStatus. rewrite markDisconnected_get, String.eqb_refl.
  destruct (JsMap.get n (clients w)) as [e|]; [|done]. simpl. apply andb_false_r.
Qed.
End WorldSteps.

Section Status.
Import JsString JsError JSON McpClientPool Spec.

Lemma usesAuthTokenCommand_stdio config :
  Config.transport config = Config.stdio → usesAuthTokenCommand config = false.
Proof. unfold usesAuthTokenCommand. by intros ->. Qed.

Lemma createTransport_stdio E config options w :
  Config.transport config = Config.stdio →
  ∃ spec w',
    createTransport E config options w = (Return (length (transports w)), w') ∧
    isStdio spec = true ∧
    transports w' = transports w ++ [{| built := spec; onerror := None; onclose := None |}] ∧
    clients w' = clients w.
Proof.
  intros Hk. unfold createTransport. rewrite Hk.
  eexists (StdioClientTransport _ _ _), _. split; [reflexivity|]. done.
Qed.

Lemma connect_stdio_installs E config options w c w' :
  Config.transport config = Config.stdio →
  connect E config options w = (Return c, w') →
  ∃ t obj,
    JsMap.get (Config.name config) (clients w') =
      Some {| config := config; client := c; transport := t; connected := true |} ∧
    transports w' !! t = Some obj ∧
    onerror obj = Some (Config.name config) ∧ onclose obj = Some (Config.name config).
Proof.
  intros Hk. rewrite connect_eq. cbv zeta.
  rewrite (usesAuthTokenCommand_stdio _ Hk). cbn [andb].
  destruct (createTransport_stdio E config options (newClient w).2 Hk)
    as (spec & w1 & -> & Hspec & Htr & _).
  set (t0 := length (transports (newClient w).2)).
  destruct (outcome (client_connect E (trace w1) (nextClient w) t0)) as [err|[]]; [done|].
  intros [= <- <-]. exists t0.
  exists {| built := spec; onerror := Some (Config.name config);
            onclose := Some (Config.name config) |}.
  split; [apply installed_get|]. split; [|done].
  rewrite (installed_hooks _ _ _ _ {| built := spec; onerror := None; onclose := None |});
    [reflexivity | | exact Hspec].
  rewrite resumed_transports, Htr. by apply list_lookup_middle.
Qed.

(** C8.  [getStatus] answers healthy exactly when the registry holds an
    entry for the name whose health flag is set, and unhealthy for a name
    with no entry.  After [connect] has returned for a subprocess server,
    the error hook or the close hook of the transport of its entry, once it
    runs, leaves [getStatus] unhealthy for that server, with no call of the
    pool in between. *)
Theorem status_reporting :
  (∀ serverName w,
     getStatus serverName w = true ↔
     ∃ entry, JsMap.get serverName (clients w) = Some entry ∧ connected entry = true) ∧
  (∀ serverName w,
     JsMap.get serverName (clients w) = None → getStatus serverName w = false) ∧
  (∀ E config options w c w',
     Config.transport config = Config.stdio →
     connect E config options w = (Return c, w') →
     ∃ entry,
       JsMap.get (Config.name config) (clients w') = Some entry ∧
       getStatus (Config.name config) w' = true ∧
       ∀ kind, getStatus (Config.name config) (fireHook (kind, transport entry) w') = false).
Proof.
  split; [|split].
  - intros n w. unfold getStatus. destruct (JsMap.get n (clients w)) as [e|].
    + split; [by exists e | by intros (? & [= <-] & ?)].
    + split; [done | by intros (? & ? & ?)].
  - intros n w H. unfold getStatus. by rewrite H.
  - intros E config options w c w' Hk Hc.
    destruct (connect_stdio_installs _ _ _ _ _ _ Hk Hc) as (t & obj & Hget & Hobj & He & Hcl).
    eexists. split; [exact Hget|]. split; [unfold getStatus; by rewrite Hget|].
    intros kind. unfold fireHook. cbn [fst snd transport]. rewrite Hobj.
    destruct kind; simpl; rewrite ?He, ?Hcl; apply getStatus_markDisconnected.
Qed.
End Status.

(** ** The recovery of [listTools] and [callTool] *)

Section Recovery.
Import JsString JsError JSON McpClientPool Spec.
Variable E : Env.

Lemma listTools_scheme (serverName : string) :
  listTools E serverName =
  withRecovery E serverName EvClientListTools (fun c tr => client_listTools E tr c).
Proof. reflexivity. Qed.

Lemma callTool_scheme (serverName toolName : string) (args : json) :
  callTool E serverName toolName args =
  withRecovery E serverName (fun c => EvClientCallTool c toolName args)
    (fun c tr => client_callTool E tr c toolName args).
Proof. reflexivity. Qed.

Lemma retry_eq {A} (serverName : string) (options : option ConnectOptions)
    (ev : nat → event) (ask : nat → list event → answer A) (w : World) :
  (reconnect E serverName options ;; withEntry serverName (sessionCall ev ask)) w =
  retriedOnce E serverName options ev ask w.
Proof.
  unfold bind at 1, retriedOnce.
  destruct (reconnect E serverName options w) as [[[]|err] w']; [|done].
  unfold withEntry, bind, gets. cbn [fst snd].
  destruct (JsMap.get serverName (clients w')) as [refreshed|]; [|done].
  unfold sessionCall. by rewrite await_eq.
Qed.

Lemma withRecovery_eq {A} (serverName : string)
    (ev : nat → event) (ask : nat → list event → answer A) (w : World) :
  withRecovery E serverName ev ask w =
  match JsMap.get serverName (clients w) with
  | None => (Throw (unknownServerError serverName), w)
  | Some entry =>
      let a := ask (client entry) (trace w) in
      let w1 := resumed (ev (client entry)) (fired a) w in
      match outcome a with
      | inr v => (Return v, w1)
      | inl err =>
          if usesAuthTokenCommand (config entry) && isAuthError err then
            retriedOnce E serverName forcedOptions ev ask w1
          else if negb (getStatus serverName w1) || isConnectionError err then
            retriedOnce E serverName None ev ask w1
          else (Throw err, w1)
      end
  end.
Proof.
  unfold withRecovery. unfold bind at 1, gets at 1. cbn [fst snd].
  destruct (JsMap.get serverName (clients w)) as [entry|]; [|done].
  unfold tryCatch, sessionCall at 1. rewrite await_eq. cbv zeta.
  destruct (outcome (ask (client entry) (trace w))) as [err|v]; [|done].
  destruct (usesAuthTokenCommand (config entry) && isAuthError err); [apply retry_eq|].
  unfold bind at 1, connectedNow, gets. cbn [fst snd].
  change (from_option connected false (JsMap.get serverName (clients ?w0)))
    with (getStatus serverName w0).
  destruct (negb (getStatus serverName _) || isConnectionError err); [apply retry_eq|].
  done.
Qed.

Lemma withRecovery_policy {A} (serverName : string)
    (ev : nat → event) (ask : nat → list event → answer A) (w : World) :
  RecoveryPolicy E serverName ev ask (withRecovery E serverName ev ask) w.
Proof.
  unfold RecoveryPolicy. rewrite withRecovery_eq.
  destruct (JsMap.get serverName (clients w)) as [entry|]; [|done]. cbv zeta.
  destruct (outcome (ask (client entry) (trace w))) as [err|v]; [|done].
  destruct (usesAuthTokenCommand (config entry) && isAuthError err); [done|].
  by destruct (negb (getStatus serverName _) || isConnectionError err).
Qed.


End Recovery.

Section Closing.
Import JsString JsError JSON McpClientPool Spec.
Variable E : Env.

Lemma filter_all {A} (P : A → Prop) `{!∀ x, Decision (P x)} (l : list A) :
  (∀ x, x ∈ l → P x) → filter P l = l.
Proof.
  induction l as [|x l IH]; [done|]. intros Hall.
  rewrite filter_cons_True by (apply Hall; left). f_equal. apply IH.
  intros y Hy. apply Hall. by right.
Qed.

Lemma filter_none {A} (P : A → Prop) `{!∀ x, Decision (P x)} (l : list A) :
  (∀ x, x ∈ l → ¬ P x) → filter P l = [].
Proof.
  induction l as [|x l IH]; [done|]. intros Hall.
  rewrite filter_cons_False by (apply Hall; left). apply IH.
  intros y Hy. apply Hall. by right.
Qed.

Lemma close_eq (serverName : string) (w : World) :
  close E serverName w =
  match JsMap.get serverName (clients w) with
  | None => (Return tt, w)
  | Some entry =>
      (Return tt,
       with_clients (JsMap.delete serverName)
         (resumed (EvTransportClose (transport entry))
            (fired (transport_close E (trace w) (transport entry))) w))
  end.
Proof.
  unfold close, bind, gets. simpl.
  destruct (JsMap.get serverName (clients w)) as [entry|]; [|done].
  by rewrite closeIgnoringErrors_eq.
Qed.

(** What one [close] does to the registry and to the trace. *)
Lemma close_effect (serverName : string) (w : World) :
  ∃ w', close E serverName w = (Return tt, w') ∧
    JsMap.get serverName (clients w') = None ∧
    (JsMap.get serverName (clients w) = None → w' = w) ∧
    (∀ entry, JsMap.get serverName (clients w) = Some entry →
              trace w' = trace w ++ [EvTransportClose (transport entry)]) ∧
    (∀ other, other ≠ serverName →
       ∃ keep, JsMap.get other (clients w') = lowered keep <$> JsMap.get other (clients w)) ∧
    JsMap.keys (clients w') = filter (fun k => k ≠ serverName) (JsMap.keys (clients w)) ∧
    (∃ new, trace w' = trace w ++ new).
Proof.
  rewrite close_eq. destruct (JsMap.get serverName (clients w)) as [entry|] eqn:Hget.
  - eexists. split; [reflexivity|]. simpl.
    split; [apply get_delete_eq|]. split; [done|].
    split; [intros ? [= <-]; apply resumed_trace|].
    split; [|split].
    + intros other Hne. rewrite get_delete_ne by done. apply resumed_get.
    + by rewrite keys_delete, resumed_keys.
    + eexists. apply resumed_trace.
  - exists w. split; [done|]. split; [done|]. split; [done|]. split; [done|].
    split; [|split].
    + intros other _. exists true. by rewrite lowered_true.
    + symmetry. apply filter_all. intros k Hk ->.
      by apply get_None_keys in Hget.
    + exists []. by rewrite app_nil_r.
Qed.

Lemma closeEach_effect (names : list string) (w : World) :
  ∃ w' new, closeEach E names w = (Return tt, w') ∧
    trace w' = trace w ++ new ∧
    JsMap.keys (clients w') = filter (fun k => k ∉ names) (JsMap.keys (clients w)) ∧
    (∀ k, k ∉ names →
       ∃ keep, JsMap.get k (clients w') = lowered keep <$> JsMap.get k (clients w)) ∧
    (∀ k entry, k ∈ names → JsMap.get k (clients w) = Some entry →
                EvTransportClose (transport entry) ∈ new).
Proof.
  revert w. induction names as [|n names IH]; intros w.
  - exists w, []. split; [done|]. split; [by rewrite app_nil_r|]. split; [|split].
    + symmetry. apply filter_all. intros k _. apply not_elem_of_nil.
    + intros k _. exists true. by rewrite lowered_true.
    + by intros k entry ?%elem_of_nil.
  - destruct (close_effect n w) as (w1 & Hc & Hgone & _ & Hev & Hother & Hkeys & [new1 Hnew1]).
    destruct (IH w1) as (w2 & new2 & Hrest & Hnew2 & Hkeys2 & Hother2 & Hev2).
    exists w2, (new1 ++ new2). split; [|split; [|split; [|split]]].
    + cbn [closeEach]. unfold bind. by rewrite Hc.
    + by rewrite Hnew2, Hnew1, app_assoc.
    + rewrite Hkeys2, Hkeys, list_filter_filter. apply list_filter_iff.
      intros k. rewrite not_elem_of_cons. tauto.
    + intros k [Hkn Hk]%not_elem_of_cons.
      destruct (Hother2 k Hk) as [a Ha]. destruct (Hother k Hkn) as [b Hb].
      exists (b && a). by rewrite Ha, Hb, lowered_lowered.
    + intros k entry Hk Hget. apply elem_of_app.
      destruct (decide (k = n)) as [->|Hne].
      * left. specialize (Hev entry Hget). rewrite Hnew1 in Hev.
        apply app_inv_head in Hev as ->. apply list_elem_of_here.
      * right. apply elem_of_cons in Hk as [?|Hk]; [done|].
        destruct (Hother k Hne) as [b Hb]. rewrite Hget in Hb.
        by apply (Hev2 k _ Hk Hb).
Qed.

Lemma closeAll_effect (w : World) :
  ∃ w' new, closeAll E w = (Return tt, w') ∧ clients w' = [] ∧
    trace w' = trace w ++ new ∧
    (∀ k entry, JsMap.get k (clients w) = Some entry →
                EvTransportClose (transport entry) ∈ new).
Proof.
  destruct (closeEach_effect (JsMap.keys (clients w)) w)
    as (w' & new & Hc & Hnew & Hkeys & _ & Hev).
  exists w', new. split; [done|]. split; [|split; [done|]].
  - assert (JsMap.keys (clients w') = []) as Hnil.
    { rewrite Hkeys. apply filter_none. by intros k Hk Hn. }
    unfold JsMap.keys in Hnil. by apply fmap_nil_inv in Hnil.
  - intros k entry Hget. apply (Hev k entry); [|done].
    destruct (decide (k ∈ JsMap.keys (clients w))) as [|Hn]; [done|].
    apply get_None_keys in Hn. congruence.
Qed.

(** C6.  [close] never throws: it returns whatever the [close] of the
    transport does, the entry of the name is gone afterwards, a name with no
    entry leaves the pool as it is, and the entries of the other names stay,
    at most with a lowered health flag.  [closeAll] never throws either and
    leaves the registry empty, after a call of [close] on the transport of
    every entry, whichever of these calls throw. *)
Theorem close_never_throws :
  (∀ serverName w,
     ∃ w', close E serverName w = (Return tt, w') ∧
       JsMap.get serverName (clients w') = None ∧
       (JsMap.get serverName (clients w) = None → w' = w) ∧
       (∀ entry, JsMap.get serverName (clients w) = Some entry →
                 trace w' = trace w ++ [EvTransportClose (transport entry)]) ∧
       (∀ other, other ≠ serverName →
          ∃ keep,
            JsMap.get other (clients w') = lowered keep <$> JsMap.get other (clients w))) ∧
  (∀ w,
     ∃ w' new, closeAll E w = (Return tt, w') ∧ clients w' = [] ∧
       trace w' = trace w ++ new ∧
       (∀ k entry, JsMap.get k (clients w) = Some entry →
                   EvTransportClose (transport entry) ∈ new)).
Proof.
  split.
  - intros n w. destruct (close_effect n w) as (w' & ? & ? & ? & ? & ? & _).
    by exists w'.
  - exact closeAll_effect.
Qed.
End Closing.

(** What each method may add to the trace.  [p] counts events; the numbers
    bound what one event of each kind weighs. *)
Section Budget.
Import JsString JsError JSON McpClientPool Spec.
Variable E : Env.
Variable p : event → bool.
Variables (a b c d e : nat).
Hypothesis Hbuild : ∀ ev, isBuildEvent ev = true → p ev = false.
Hypothesis Ha : ∀ x, (weight p (EvNewClient x) ≤ a)%nat.
Variable allowed : Config.ServerConfig → bool → Prop.
Hypothesis allowed_unforced : ∀ cfg, allowed cfg false.
Hypothesis allowed_auth : ∀ cfg, usesAuthTokenCommand cfg = true → allowed cfg true.
Hypothesis Hb : ∀ cfg f, allowed cfg f → (weight p (EvCreateTransport cfg f) ≤ b)%nat.
Hypothesis Hc : ∀ x y, (weight p (EvClientConnect x y) ≤ c)%nat.
Hypothesis Hd : ∀ t, (weight p (EvTransportClose t) ≤ d)%nat.
Hypothesis He : ∀ ev, isOperation ev = true → (weight p ev ≤ e)%nat.

Lemma build_weight (ev : event) : isBuildEvent ev = true → (weight p ev ≤ 0)%nat.
Proof. intros H. unfold weight. by rewrite (Hbuild ev H). Qed.

Lemma budget_now : atMost p 0 (now E).
Proof. intros w. eapply extends_event; [done | by apply build_weight]. Qed.

Lemma budget_runTokenCommand command args env :
  atMost p 0 (runTokenCommand E command args env).
Proof.
  intros w. unfold runTokenCommand. cbv zeta.
  destruct (execFile E _ _ _ _) as [r hooks]. simpl.
  eapply extends_event; [by rewrite trace_fireHooks | by apply build_weight].
Qed.

Lemma budget_getAuthToken config forceRefresh :
  atMost p 0 (getAuthToken E config forceRefresh).
Proof.
  unfold getAuthToken.
  eapply (atMost_bind _ 0 0); [apply atMost_gets | | lia]. intros cache.
  eapply (atMost_bind _ 0 0); [apply budget_now | | lia]. intros t. cbv zeta.
  assert (atMost p 0
            (emit (EvConsoleLog
                     ("[mcp-adapter] " +:+ Config.name config +:+
                      ": requesting OAuth token" +:+
                      (if forceRefresh then " (forced refresh)" else EmptyString))) ;;
             let* token :=
               runTokenCommand E (default EmptyString (Config.authTokenCommand config))
                 (default [] (Config.authTokenArgs config) ++
                  (if forceRefresh then default [] (Config.authTokenRefreshArgs config)
                   else []))
                 (Config.env config) in
             modify (with_tokenCache
                       <[Config.name config := {| token := token; fetchedAtMs := t |}]>) ;;
             ret token)) as Hrefresh.
  { eapply (atMost_bind _ 0 0); [apply atMost_emit, build_weight; done | | lia]. intros _.
    eapply (atMost_bind _ 0 0); [apply budget_runTokenCommand | | lia]. intros token.
    eapply (atMost_bind _ 0 0); [by apply atMost_modify | | lia]. intros _.
    apply atMost_ret. }
  destruct cache as [c0|]; [|exact Hrefresh].
  destruct (negb forceRefresh && _); [apply atMost_ret | exact Hrefresh].
Qed.

Lemma budget_buildHttpHeaders config options :
  atMost p 0 (buildHttpHeaders E config options).
Proof.
  unfold buildHttpHeaders. cbv zeta.
  destruct (negb (usesAuthTokenCommand config)); [apply atMost_ret|].
  eapply (atMost_bind _ 0 0); [apply budget_getAuthToken | | lia]. intros token.
  apply atMost_ret.
Qed.

Lemma budget_new_URL url : atMost p 0 (new_URL E url).
Proof.
  unfold new_URL. cbv zeta. destruct (URL_valid E _); [apply atMost_ret | apply atMost_throw].
Qed.

Lemma budget_newTransport spec : atMost p 0 (newTransport spec).
Proof.
  unfold newTransport.
  eapply (atMost_bind _ 0 0); [apply atMost_gets | | lia]. intros t.
  eapply (atMost_bind _ 0 0); [by apply atMost_modify | | lia]. intros _.
  eapply (atMost_bind _ 0 0); [apply atMost_emit, build_weight; done | | lia]. intros _.
  apply atMost_ret.
Qed.

Lemma budget_createTransport config options :
  allowed config (forced options) →
  atMost p b (createTransport E config options).
Proof.
  intros Hf. unfold createTransport.
  eapply (atMost_bind _ b 0); [apply atMost_emit, Hb, Hf | | lia]. intros _.
  destruct (Config.transport config).
  - apply budget_newTransport.
  - eapply (atMost_bind _ 0 0); [apply budget_buildHttpHeaders | | lia]. intros headers.
    eapply (atMost_bind _ 0 0); [apply budget_new_URL | | lia]. intros url.
    apply budget_newTransport.
Qed.

Lemma budget_newClient : atMost p a (newClient).
Proof.
  unfold newClient.
  eapply (atMost_bind _ 0 a); [apply atMost_gets | | lia]. intros x.
  eapply (atMost_bind _ a 0); [| intros _; apply atMost_ret | lia].
  intros w. eapply extends_event; [done | apply Ha].
Qed.

Lemma budget_closeIgnoringErrors t : atMost p d (closeIgnoringErrors E t).
Proof.
  unfold closeIgnoringErrors.
  eapply (atMost_tryCatch _ d 0); [apply atMost_await, Hd | | lia].
  intros _. apply atMost_ret.
Qed.

Lemma budget_setHooks t serverName : atMost p 0 (setHooks t serverName).
Proof. by apply atMost_modify. Qed.

Lemma budget_connect config options :
  allowed config (forced options) →
  atMost p (a + (b + (c + (d + (b + c))))) (connect E config options).
Proof.
  intros Hf. unfold connect.
  eapply atMost_bind; [apply budget_newClient | | reflexivity]. intros client.
  eapply atMost_bind; [by apply budget_createTransport | | reflexivity]. intros t0.
  eapply (atMost_bind _ (c + (d + (b + c))) 0); [| | lia].
  - eapply atMost_tryCatch; [| | reflexivity].
    + eapply (atMost_bind _ c 0); [apply atMost_await, Hc | | lia].
      intros _. apply atMost_ret.
    + intros err.
      destruct (usesAuthTokenCommand config) eqn:Hauth; simpl; [|apply atMost_throw].
      destruct (isAuthError err && negb (forced options)); [|apply atMost_throw].
      eapply atMost_bind; [apply budget_closeIgnoringErrors | | reflexivity]. intros _.
      eapply atMost_bind; [by apply budget_createTransport, allowed_auth | | reflexivity].
      intros t1.
      eapply (atMost_bind _ c 0); [apply atMost_await, Hc | | lia].
      intros _. apply atMost_ret.
  - intros t.
    eapply (atMost_bind _ 0 0); [apply atMost_gets | | lia]. intros obj.
    eapply (atMost_bind _ 0 0); [| | lia].
    + destruct (from_option _ _ _); [apply budget_setHooks | apply atMost_ret].
    + intros _. eapply (atMost_bind _ 0 0); [by apply atMost_modify | | lia].
      intros _. apply atMost_ret.
Qed.

Lemma budget_reconnect serverName options w :
  (∀ entry, JsMap.get serverName (clients w) = Some entry →
            allowed (config entry) (forced options)) →
  extends p (d + (a + (b + (c + (d + (b + c)))))) w (reconnect E serverName options w).2.
Proof.
  intros Hok. rewrite reconnect_eq.
  destruct (JsMap.get serverName (clients w)) as [entry|]; [|apply extends_refl].
  cbv zeta.
  eapply extends_trans; [| |reflexivity].
  - eapply extends_event; [apply resumed_trace | apply Hd].
  - pose proof (budget_connect (config entry) options (Hok entry eq_refl)
                  (resumed (EvTransportClose (transport entry))
                     (fired (transport_close E (trace w) (transport entry))) w)) as Hconn.
    by destruct (connect E (config entry) options _) as [[x|err] w2].
Qed.

Lemma budget_retriedOnce {A} serverName options (ev : nat → event)
    (ask : nat → list event → answer A) w :
  (∀ x, isOperation (ev x) = true) →
  (∀ entry, JsMap.get serverName (clients w) = Some entry →
            allowed (config entry) (forced options)) →
  extends p (d + (a + (b + (c + (d + (b + c))))) + e) w
    (retriedOnce E serverName options ev ask w).2.
Proof.
  intros Hev Hok. unfold retriedOnce.
  pose proof (budget_reconnect serverName options w Hok) as Hr.
  destruct (reconnect E serverName options w) as [[[]|err] w2]; cbn [snd] in *.
  - destruct (JsMap.get serverName (clients w2)) as [refreshed|]; cbn [snd].
    + eapply extends_trans; [exact Hr | | reflexivity].
      eapply extends_event; [apply resumed_trace | apply He, Hev].
    + eapply extends_mono; [exact Hr | lia].
  - eapply extends_mono; [exact Hr | lia].
Qed.

Lemma budget_close serverName : atMost p d (close E serverName).
Proof.
  intros w. rewrite close_eq.
  destruct (JsMap.get serverName (clients w)) as [entry|]; [|apply extends_refl].
  eapply extends_event; [apply resumed_trace | apply Hd].
Qed.

Lemma budget_closeEach names : atMost p (length names * d) (closeEach E names).
Proof.
  induction names as [|n names IH]; [apply atMost_ret|].
  cbn [closeEach length]. eapply atMost_bind; [apply budget_close | intros _; exact IH |].
  lia.
Qed.

Lemma budget_closeAll w :
  extends p (length (JsMap.keys (clients w)) * d) w (closeAll E w).2.
Proof. unfold closeAll, bind, gets. cbn. apply budget_closeEach. Qed.

Lemma budget_withRecovery {A} serverName (ev : nat → event)
    (ask : nat → list event → answer A) :
  (∀ x, isOperation (ev x) = true) →
  atMost p (e + (d + (a + (b + (c + (d + (b + c))))) + e)) (withRecovery E serverName ev ask).
Proof.
  intros Hev w. pose proof (withRecovery_policy E serverName ev ask w) as Hpol.
  unfold RecoveryPolicy in Hpol.
  destruct (JsMap.get serverName (clients w)) as [entry|] eqn:Hget;
    [|rewrite Hpol; apply extends_refl].
  cbv zeta in Hpol.
  set (w1 := resumed (ev (client entry)) (fired (ask (client entry) (trace w))) w) in *.
  assert (extends p e w w1) as Hfirst.
  { eapply extends_event; [apply resumed_trace | apply He, Hev]. }
  assert (∀ entry1, JsMap.get serverName (clients w1) = Some entry1 →
                    config entry1 = config entry) as Hsame.
  { intros entry1. destruct (resumed_get (ev (client entry))
                               (fired (ask (client entry) (trace w))) serverName w)
      as [keep Hk].
    fold w1 in Hk. rewrite Hk, Hget. by intros [= <-]. }
  destruct (outcome (ask (client entry) (trace w))) as [err|v].
  - destruct (usesAuthTokenCommand (config entry) && isAuthError err) eqn:Hauth.
    + rewrite Hpol. eapply extends_trans; [exact Hfirst | | reflexivity].
      apply budget_retriedOnce; [done|]. intros entry1 H1.
      rewrite (Hsame entry1 H1). apply allowed_auth.
      by apply andb_true_iff in Hauth as [? _].
    + destruct (negb (getStatus serverName w1) || isConnectionError err).
      * rewrite Hpol. eapply extends_trans; [exact Hfirst | | reflexivity].
        apply budget_retriedOnce; [done|]. intros entry1 _. apply allowed_unforced.
      * rewrite Hpol. eapply extends_mono; [exact Hfirst | lia].
  - rewrite Hpol. eapply extends_mono; [exact Hfirst | lia].
Qed.
End Budget.

(** ** The token cache and the request headers *)

Section Credentials.
Import JsString JsError JSON McpClientPool Spec.
Variable E : Env.

Lemma invocations_new (w w' : World) (new : list event) :
  trace w' = trace w ++ new → invocations w w' = tally isExecFile new.
Proof. intros H. unfold invocations. by rewrite H, drop_app_length. Qed.

(** A fetch that does not use the cache: the events it adds. *)
Lemma refresh_trace (config : Config.ServerConfig) (forceRefresh : bool) (w : World) :
  (forceRefresh = true ∨
   ∀ c, tokenCache w !! Config.name config = Some c →
        (Date_now E (trace w) - fetchedAtMs c <? getTokenTtlMs config)%float = false) →
  ∃ line,
    trace (getAuthToken E config forceRefresh w).2 =
    trace w ++ [EvDateNow; EvConsoleLog line;
                EvExecFile (default EmptyString (Config.authTokenCommand config))
                  (tokenArgs config forceRefresh)
                  (default ∅ (Config.env config) ∪ process_env E)].
Proof.
  intros Hmiss. eexists.
  unfold getAuthToken, bind, gets, now, emit, modify, ret, runTokenCommand. cbv zeta.
  cbn [fst snd].
  assert (match tokenCache w !! Config.name config with
          | Some c => negb forceRefresh &&
                      (Date_now E (trace w) - fetchedAtMs c <? getTokenTtlMs config)%float
          | None => false
          end = false) as Hfresh.
  { destruct (tokenCache w !! Config.name config) as [c|]; [|done].
    destruct Hmiss as [->|Hm]; [done|].
    apply andb_false_iff. right. by apply Hm. }
  destruct (tokenCache w !! Config.name config) as [c|].
  - rewrite Hfresh. cbn [trace with_trace].
    destruct (execFile E _ _ _ _) as [r hooks].
    destruct (tokenCommandCallback r); cbn [snd]; unfold with_tokenCache; cbn [trace];
      rewrite trace_fireHooks; cbn [trace with_trace]; rewrite <- !app_assoc; reflexivity.
  - cbn [trace with_trace].
    destruct (execFile E _ _ _ _) as [r hooks].
    destruct (tokenCommandCallback r); cbn [snd]; unfold with_tokenCache; cbn [trace];
      rewrite trace_fireHooks; cbn [trace with_trace]; rewrite <- !app_assoc; reflexivity.
Qed.

(** A fetch that uses the cache. *)
Lemma cached_fetch (config : Config.ServerConfig) (w : World) (c : TokenCacheEntry) :
  tokenCache w !! Config.name config = Some c →
  (Date_now E (trace w) - fetchedAtMs c <? getTokenTtlMs config)%float = true →
  getAuthToken E config false w =
  (Return (token c), with_trace (fun tr => tr ++ [EvDateNow]) w).
Proof.
  intros Hc Hfresh. unfold getAuthToken, bind, gets, now, ret. cbv zeta. cbn [fst snd].
  rewrite Hc. cbn [negb andb]. by rewrite Hfresh.
Qed.


End Credentials.

(** ** What the methods keep of the registry *)

Section Keeping.
Import JsString JsError JSON McpClientPool Spec.



Lemma kept_trans (w1 w2 w3 : World) : kept w1 w2 → kept w2 w3 → kept w1 w3.
Proof.
  intros [H12 Hn12] [H23 Hn23]. split; [|lia]. intros k.
  destruct (H12 k) as [a Ha]. destruct (H23 k) as [b Hb].
  exists (a && b). by rewrite Hb, Ha, lowered_lowered.
Qed.

Lemma kept_resumed (ev : event) (hooks : list (HookKind * nat)) (w : World) :
  kept w (resumed ev hooks w).
Proof. split; [intros k; apply resumed_get | by rewrite resumed_nextClient]. Qed.

Lemma kept_fireHook (h : HookKind * nat) (w : World) : kept w (fireHook h w).
Proof.
  split; [intros k; apply fireHook_get|].
  destruct (fireHook_frame h w) as (_ & _ & _ & -> & _). done.
Qed.


Context {A B : Type}.





Lemma keeps_tryCatch (m : M A) (handler : thrown → M A) :
  keeps m → (∀ err, keeps (handler err)) → keeps (tryCatch m handler).
Proof.
  intros Hm Hk w. unfold tryCatch. specialize (Hm w).
  destruct (m w) as [[a|err] w1]; [done|].
  eapply kept_trans; [exact Hm | apply Hk].
Qed.

Lemma keeps_await (ev : event) (ask : list event → answer A) : keeps (await ev ask).
Proof. intros w. rewrite await_eq. apply kept_resumed. Qed.
End Keeping.

Section KeepingMethods.
Import JsString JsError JSON McpClientPool Spec.
Variable E : Env.














End KeepingMethods.

Section Headers.
Import JsString JsError JSON McpClientPool Spec.
Variable E : Env.

Lemma headerName_spec (config : Config.ServerConfig) :
  match Config.authTokenHeader config with
  | Some h => if truthy h then h else "Authorization"
  | None => "Authorization"
  end = authHeaderName config.
Proof. unfold authHeaderName. by destruct (Config.authTokenHeader config) as [[]|]. Qed.

Lemma headerValue_spec (config : Config.ServerConfig) (token : utf16) :
  (if truthy (default "Bearer" (Config.authTokenPrefix config))
   then utf16_of (default "Bearer" (Config.authTokenPrefix config) +:+ " ") ++ token
   else token) = authHeaderValue config token.
Proof. unfold authHeaderValue. by destruct (Config.authTokenPrefix config) as [[]|]. Qed.


(** The headers [buildHttpHeaders] returns. *)
Lemma buildHttpHeaders_eq (config : Config.ServerConfig) (options : option ConnectOptions)
    (w : World) :
  buildHttpHeaders E config options w =
  if usesAuthTokenCommand config then
    match getAuthToken E config (forced options) w with
    | (Return token, w') =>
        (Return (Some (assign (authHeaderName config) (authHeaderValue config token)
                         (headersOf (Config.headers config)))), w')
    | (Throw err, w') => (Throw err, w')
    end
  else
    (Return (if bool_decide (headersOf (Config.headers config) = ∅) then None
             else Some (headersOf (Config.headers config))), w).
Proof.
  unfold buildHttpHeaders, headersOf. cbv zeta.
  destruct (usesAuthTokenCommand config); cbn [negb]; [|done].
  unfold bind. destruct (getAuthToken E config (forced options) w) as [[token|err] w'];
    [|done].
  unfold ret. by rewrite headerName_spec, headerValue_spec.
Qed.


Lemma assign_proto {V} (value : V) (obj : gmap string V) :
  assign "__proto__" value obj =
  match obj !! "__proto__" with
  | Some _ => <["__proto__" := value]> obj
  | None => obj
  end.
Proof.
  unfold assign. rewrite String.eqb_refl. cbn [andb].
  destruct (obj !! "__proto__") as [v|].
  - rewrite bool_decide_eq_true_2; [done | by eexists].
  - rewrite bool_decide_eq_false_2; [done | by intros [? ?]].
Qed.


End Headers.

(** ** The retry policies *)

Section Counts.
Import JsString JsError JSON McpClientPool Spec.
Variable E : Env.

(** Side conditions of the budget lemmas for a predicate that looks at the
    kind of an event only. *)
Ltac kind_budget :=
  let x := fresh "x" in
  let Hx := fresh "Hx" in
  first
    [ intros; exact I
    | intros x Hx; destruct x; simpl in *; congruence
    | intros; unfold weight; simpl; lia
    | intros x Hx; destruct x; simpl in Hx; try discriminate Hx;
      unfold weight; simpl; lia ].

Lemma connect_counts (config : Config.ServerConfig) (options : option ConnectOptions)
    (w : World) :
  extends isNewClient 1 w (connect E config options w).2 ∧
  extends isClientConnect 2 w (connect E config options w).2 ∧
  extends isTransportClose 1 w (connect E config options w).2 ∧
  extends isOperation 0 w (connect E config options w).2.
Proof.
  repeat split.
  - eapply extends_mono;
      [eapply (budget_connect E isNewClient 1 0 0 0) with (allowed := fun _ _ => True); kind_budget | simpl; lia].
  - eapply extends_mono;
      [eapply (budget_connect E isClientConnect 0 0 1 0) with (allowed := fun _ _ => True); kind_budget
      | simpl; lia].
  - eapply extends_mono;
      [eapply (budget_connect E isTransportClose 0 0 0 1) with (allowed := fun _ _ => True); kind_budget
      | simpl; lia].
  - eapply extends_mono;
      [eapply (budget_connect E isOperation 0 0 0 0) with (allowed := fun _ _ => True); kind_budget
      | simpl; lia].
Qed.

End Counts.

Section Policies.
Import JsString JsError JSON McpClientPool Spec.
Variable E : Env.

Lemma grows (p : event → bool) (n : nat) (w w' : World) :
  extends p n w w' → ∃ new, trace w' = trace w ++ new.
Proof. intros (new & H & _). by exists new. Qed.

Lemma createTransport_first_event (config : Config.ServerConfig)
    (options : option ConnectOptions) (w : World) :
  ∃ new, trace (createTransport E config options w).2 =
         trace w ++ EvCreateTransport config (forced options) :: new.
Proof.
  unfold createTransport. unfold bind at 1, emit at 1, modify at 1. cbn [fst snd].
  set (w0 := with_trace _ w).
  assert (∀ {A} (m : M A), atMost (fun _ => false) 0 m →
            ∃ new, trace (m w0).2 = trace w ++ EvCreateTransport config (forced options) :: new)
    as Hrest.
  { intros A m Hm. destruct (grows _ _ _ _ (Hm w0)) as [new Hnew].
    exists new. rewrite Hnew. subst w0. cbn. by rewrite <- app_assoc. }
  apply Hrest. destruct (Config.transport config).
  - by apply budget_newTransport.
  - eapply (atMost_bind _ 0 0); [by apply (budget_buildHttpHeaders E) | | lia].
    intros headers.
    eapply (atMost_bind _ 0 0); [by apply (budget_new_URL E) | | lia]. intros url.
    by apply budget_newTransport.
Qed.

Lemma connect_first_events (config : Config.ServerConfig)
    (options : option ConnectOptions) (w : World) :
  ∃ new, trace (newClient w).2 = trace w ++ [EvNewClient (nextClient w)] ∧
         trace (connect E config options w).2 =
           trace (newClient w).2 ++ EvCreateTransport config (forced options) :: new.
Proof.
  destruct (createTransport_first_event config options (newClient w).2) as [new1 Hnew1].
  assert (∀ w', (∃ more, trace w' = trace (createTransport E config options (newClient w).2).2
                                    ++ more) →
                ∃ new, trace w' = trace (newClient w).2 ++
                                  EvCreateTransport config (forced options) :: new) as Hext.
  { intros w' [more Hmore]. exists (new1 ++ more).
    rewrite Hmore, Hnew1, <- app_assoc. done. }
  enough (∃ more, trace (connect E config options w).2 =
                  trace (createTransport E config options (newClient w).2).2 ++ more)
    as Hmore.
  { destruct (Hext _ Hmore) as [new Hnew]. by exists new. }
  rewrite connect_eq. cbv zeta.
  destruct (createTransport E config options _) as [[t0|e] w1]; cbn [snd];
    [|exists []; by rewrite app_nil_r].
  destruct (outcome (client_connect E (trace w1) (nextClient w) t0)) as [err|[]].
  - destruct (_ && _ && _); cbn [snd]; [|eexists; apply resumed_trace].
    set (w2 := resumed (EvClientConnect _ _) _ w1).
    set (w3 := resumed (EvTransportClose _) _ w2).
    assert (∃ new3, trace (createTransport E config forcedOptions w3).2 = trace w3 ++ new3)
      as [new3 Hnew3].
    { eapply grows.
      eapply (budget_createTransport E (fun _ => false) 0) with (allowed := fun _ _ => True);
        done. }
    assert (trace w3 = trace w1 ++ [EvClientConnect (nextClient w) t0; EvTransportClose t0])
      as Hw3.
    { subst w3 w2. rewrite !resumed_trace, <- app_assoc. done. }
    destruct (createTransport E config forcedOptions w3) as [[t1|e] w4]; cbn [snd] in *.
    + destruct (outcome (client_connect E (trace w4) (nextClient w) t1)) as [e|[]];
        cbn [snd]; rewrite ?installed_trace, resumed_trace, Hnew3, Hw3, <- !app_assoc;
        eexists; reflexivity.
    + rewrite Hnew3, Hw3, <- !app_assoc. eexists; reflexivity.
  - cbn [snd]. rewrite installed_trace. eexists. apply resumed_trace.
Qed.

(** C2, amended.  [connect] builds a new session (the next one of the store, which
    no entry of a well-formed registry holds) and a transport, and tries to
    establish the session over it.  When that fails, the server uses the
    token command, the failure is an auth error and the refresh was not
    forced already, the transport is closed, whatever its [close] does, and
    the connect is run again with the refresh forced, over the session that
    is there: a transport is built with the refresh forced and the session
    is tried over it, and a failure of this build or of this attempt is the
    result as it is.  Any other failure of the first attempt is the result
    as it is.  No run of [connect] makes more than one session, more than
    two attempts, or more than one close. *)
Theorem connect_retry_policy (config : Config.ServerConfig)
    (options : option ConnectOptions) (w : World) :
  let c := nextClient w in
  connect E config options w = connectOver E c config options (newClient w).2 ∧
  (wellFormed w → ∀ k e, JsMap.get k (clients w) = Some e → client e ≠ c) ∧
  (∀ e w1, createTransport E config options (newClient w).2 = (Throw e, w1) →
           connect E config options w = (Throw e, w1)) ∧
  (∀ t0 w1,
     createTransport E config options (newClient w).2 = (Return t0, w1) →
     let a := client_connect E (trace w1) c t0 in
     let w2 := resumed (EvClientConnect c t0) (fired a) w1 in
     (outcome a = inr tt →
      connect E config options w = (Return c, installed config c t0 w2)) ∧
     (∀ err, outcome a = inl err →
        usesAuthTokenCommand config && isAuthError err && negb (forced options) = false →
        connect E config options w = (Throw err, w2)) ∧
     (∀ err, outcome a = inl err →
        usesAuthTokenCommand config = true → isAuthError err = true →
        forced options = false →
        let w3 := resumed (EvTransportClose t0)
                    (fired (transport_close E (trace w2) t0)) w2 in
        connect E config options w = connectOver E c config forcedOptions w3 ∧
        (∀ e w4, createTransport E config forcedOptions w3 = (Throw e, w4) →
                 connect E config options w = (Throw e, w4)) ∧
        (∀ t1 w4,
           createTransport E config forcedOptions w3 = (Return t1, w4) →
           let a' := client_connect E (trace w4) c t1 in
           let w5 := resumed (EvClientConnect c t1) (fired a') w4 in
           (outcome a' = inr tt →
            connect E config options w = (Return c, installed config c t1 w5)) ∧
           (∀ e, outcome a' = inl e → connect E config options w = (Throw e, w5))))) ∧
  (∃ new, trace (newClient w).2 = trace w ++ [EvNewClient c] ∧
          trace (connect E config options w).2 =
            trace (newClient w).2 ++ EvCreateTransport config (forced options) :: new) ∧
  extends isNewClient 1 w (connect E config options w).2 ∧
  extends isClientConnect 2 w (connect E config options w).2 ∧
  extends isTransportClose 1 w (connect E config options w).2.
Proof.
  cbv zeta. split; [apply connect_connectOver|]. split; [|split; [|split; [|split]]].
  - intros Hwf k e He Heq. destruct (Hwf k e He) as [_ Hlt]. lia.
  - intros e w1 Hct. by rewrite connect_eq, Hct.
  - intros t0 w1 Hct. split; [|split].
    + intros Ha. rewrite connect_eq, Hct. cbv zeta. by rewrite Ha.
    + intros err Ha Hcond. rewrite connect_eq, Hct. cbv zeta. by rewrite Ha, Hcond.
    + intros err Ha Hauth Herr Hforced.
      assert (connect E config options w =
              connectOver E (nextClient w) config forcedOptions
                (resumed (EvTransportClose t0)
                   (fired (transport_close E
                             (trace (resumed (EvClientConnect (nextClient w) t0)
                                       (fired (client_connect E (trace w1) (nextClient w) t0))
                                       w1)) t0))
                   (resumed (EvClientConnect (nextClient w) t0)
                      (fired (client_connect E (trace w1) (nextClient w) t0)) w1)))
        as Hretry.
      { rewrite connectOver_forced, connect_eq, Hct. cbv zeta.
        by rewrite Ha, Hauth, Herr, Hforced. }
      split; [exact Hretry|]. rewrite Hretry, connectOver_forced. split.
      * intros e w4 Hct2. by rewrite Hct2.
      * intros t1 w4 Hct2. rewrite Hct2. cbv zeta. split.
        -- by intros ->.
        -- by intros e ->.
  - apply connect_first_events.
  - pose proof (connect_counts E config options w). tauto.
Qed.


(** The builds with the refresh forced are builds for servers that use
    the token command, whatever the pool is asked to do. *)
Lemma perform_unforced (c : call) (w : World) :
  extends forcedWithoutAuth 0 w (perform E c w).
Proof.
  assert (∀ ev, isBuildEvent ev = true → forcedWithoutAuth ev = false) as Hbuild
    by (intros ev Hev; destruct ev; simpl in *; congruence).
  assert (∀ cfg f, (f = true → usesAuthTokenCommand cfg = true) →
                   (weight forcedWithoutAuth (EvCreateTransport cfg f) ≤ 0)%nat) as Hb.
  { intros cfg [] Hf; unfold weight; simpl; [rewrite Hf by done|]; simpl; lia. }
  assert (∀ ev, isOperation ev = true → (weight forcedWithoutAuth ev ≤ 0)%nat) as He.
  { intros ev Hev. destruct ev; simpl in Hev; try discriminate Hev; unfold weight; simpl; lia. }
  destruct c as [config|serverName|serverName toolName args|serverName| |kind t];
    cbn [perform].
  - eapply extends_mono;
      [eapply (budget_connect E forcedWithoutAuth 0 0 0 0)
         with (allowed := fun cfg f => f = true → usesAuthTokenCommand cfg = true);
       first [done | exact Hb | intros; unfold weight; simpl; lia]
      | simpl; lia].
  - rewrite listTools_scheme. eapply extends_mono;
      [eapply (budget_withRecovery E forcedWithoutAuth 0 0 0 0 0)
         with (allowed := fun cfg f => f = true → usesAuthTokenCommand cfg = true);
       first [done | exact Hb | exact He | intros; unfold weight; simpl; lia]
      | simpl; lia].
  - rewrite callTool_scheme. eapply extends_mono;
      [eapply (budget_withRecovery E forcedWithoutAuth 0 0 0 0 0)
         with (allowed := fun cfg f => f = true → usesAuthTokenCommand cfg = true);
       first [done | exact Hb | exact He | intros; unfold weight; simpl; lia]
      | simpl; lia].
  - eapply (budget_close E forcedWithoutAuth 0). intros. unfold weight. simpl. lia.
  - eapply extends_mono;
      [eapply (budget_closeAll E forcedWithoutAuth 0); intros; unfold weight; simpl; lia
      | lia].
  - apply extends_same. apply fireHook_frame.
Qed.

Lemma performAll_unforced (calls : list call) (w : World) :
  extends forcedWithoutAuth 0 w (performAll E calls w).
Proof.
  unfold performAll. revert w. induction calls as [|c calls IH]; intros w.
  - apply extends_refl.
  - cbn [foldl]. eapply extends_trans; [apply perform_unforced | apply IH | lia].
Qed.

(** C7.  Whatever sequence of [connect], [listTools], [callTool], [close]
    and [closeAll] the pool runs, with hooks running in between, no
    transport is built with the refresh forced for a server that does not
    use the token command.  For such a server a failed call is recovered
    on the connection path only: a reconnect without forced refresh when
    the health flag is down or the failure is a connection error, and
    nothing otherwise, also when the failure is an auth error. *)
Theorem no_forced_refresh_without_auth (calls : list call) (w : World) :
  (∀ cfg, usesAuthTokenCommand cfg = false →
          EvCreateTransport cfg true ∉
            drop (length (trace w)) (trace (performAll E calls w))) ∧
  (∀ serverName entry err,
     JsMap.get serverName (clients w) = Some entry →
     usesAuthTokenCommand (config entry) = false →
     outcome (client_listTools E (trace w) (client entry)) = inl err →
     let w1 := resumed (EvClientListTools (client entry))
                 (fired (client_listTools E (trace w) (client entry))) w in
     listTools E serverName w =
     if negb (getStatus serverName w1) || isConnectionError err
     then retriedOnce E serverName None EvClientListTools
            (fun c tr => client_listTools E tr c) w1
     else (Throw err, w1)) ∧
  (∀ serverName toolName args entry err,
     JsMap.get serverName (clients w) = Some entry →
     usesAuthTokenCommand (config entry) = false →
     outcome (client_callTool E (trace w) (client entry) toolName args) = inl err →
     let w1 := resumed (EvClientCallTool (client entry) toolName args)
                 (fired (client_callTool E (trace w) (client entry) toolName args)) w in
     callTool E serverName toolName args w =
     if negb (getStatus serverName w1) || isConnectionError err
     then retriedOnce E serverName None (fun c => EvClientCallTool c toolName args)
            (fun c tr => client_callTool E tr c toolName args) w1
     else (Throw err, w1)).
Proof.
  split; [|split].
  - intros cfg Hcfg Hin.
    destruct (performAll_unforced calls w) as (new & Hnew & Hzero).
    rewrite Hnew, drop_app_length in Hin.
    assert (tally forcedWithoutAuth new = 0%nat) as Hz by lia.
    pose proof (tally_zero_not_in _ _ _ Hz Hin) as Hbad.
    simpl in Hbad. by rewrite Hcfg in Hbad.
  - intros serverName entry err Hget Hno Hout. cbv zeta.
    rewrite listTools_scheme, withRecovery_eq, Hget. cbv zeta.
    rewrite Hout, Hno. cbn [andb].
    by destruct (negb _ || _).
  - intros serverName toolName args entry err Hget Hno Hout. cbv zeta.
    rewrite callTool_scheme, withRecovery_eq, Hget. cbv zeta.
    rewrite Hout, Hno. cbn [andb].
    by destruct (negb _ || _).
Qed.
End Policies.

(** ** Placeholders in the configuration *)

Section Placeholders.
Import JsString Interpolation.
Variable getenv : string → option string.

Lemma includes_char (p c : ascii) (s : string) :
  includes (String c s) (String p EmptyString) =
  Ascii.eqb p c || includes s (String p EmptyString).
Proof. cbn [includes startsWith]. by destruct s; rewrite andb_true_r. Qed.

Lemma upToBrace_length (s name rest : string) :
  upToBrace s = Some (name, rest) →
  (String.length name + String.length rest < String.length s)%nat.
Proof.
  revert name. induction s as [|c s IH]; intros name; [done|]. simpl.
  destruct (isCloseBrace c).
  - intros [= <- <-]. simpl. lia.
  - destruct (upToBrace s) as [[n r]|]; [|done].
    intros [= <- <-]. specialize (IH n eq_refl). simpl. lia.
Qed.

(** The group is what stands before the first closing brace. *)
Lemma upToBrace_app (name rest : string) :
  includes name "}" = false → upToBrace (name +:+ "}" +:+ rest) = Some (name, rest).
Proof.
  induction name as [|c name IH]; [done|]. rewrite includes_char, app_cons.
  intros [Hc Hn]%orb_false_iff. cbn [upToBrace]. unfold isCloseBrace.
  rewrite Ascii.eqb_sym, Hc. by rewrite IH.
Qed.

Lemma upToBrace_None (s : string) : includes s "}" = false → upToBrace s = None.
Proof.
  induction s as [|c s IH]; [done|]. rewrite includes_char.
  intros [Hc Hs]%orb_false_iff. cbn [upToBrace]. unfold isCloseBrace.
  rewrite Ascii.eqb_sym, Hc. by rewrite IH.
Qed.

Lemma matchAt_length (v name rest : string) :
  matchAt v = Some (name, rest) → (String.length rest < String.length v)%nat.
Proof.
  destruct v as [|a [|b s]]; try done; [by destruct a as [[] [] [] [] [] [] [] []]|].
  unfold matchAt.
  destruct (Ascii.ascii_dec a "$") as [->|Ha];
    [|by destruct a as [[] [] [] [] [] [] [] []]].
  destruct (Ascii.ascii_dec b "{") as [->|Hb];
    [|by destruct b as [[] [] [] [] [] [] [] []]].
  destruct (upToBrace s) as [[[|c n] r]|] eqn:Hs; try done.
  intros [= <- <-]. apply upToBrace_length in Hs. simpl in *. lia.
Qed.

Lemma matchAt_placeholder (name rest : string) :
  name ≠ EmptyString → includes name "}" = false →
  matchAt ("${" +:+ name +:+ "}" +:+ rest) = Some (name, rest).
Proof.
  intros Hne Hn. change (matchAt (String "$" (String "{" (name +:+ "}" +:+ rest)))
                         = Some (name, rest)).
  unfold matchAt. rewrite upToBrace_app by done. by destruct name.
Qed.

(** No match starts where no dollar sign with an opening brace stands. *)
Lemma matchAt_None (v : string) : startsWith v "${" = false → matchAt v = None.
Proof.
  destruct v as [|a [|b s]]; try done; [by destruct a as [[] [] [] [] [] [] [] []]|].
  cbn [startsWith]. unfold matchAt.
  destruct (Ascii.ascii_dec a "$") as [->|Ha];
    [|by destruct a as [[] [] [] [] [] [] [] []]].
  destruct (Ascii.ascii_dec b "{") as [->|Hb];
    [|by destruct b as [[] [] [] [] [] [] [] []]].
  by destruct s.
Qed.

Lemma matchAt_unclosed (v : string) : includes v "}" = false → matchAt v = None.
Proof.
  intros Hv. destruct (matchAt v) as [[name rest]|] eqn:Hm; [|done].
  destruct v as [|a [|b s]]; try done; [by destruct a as [[] [] [] [] [] [] [] []]|].
  rewrite !includes_char in Hv.
  apply orb_false_iff in Hv as [_ [_ Hs]%orb_false_iff].
  unfold matchAt in Hm. rewrite (upToBrace_None s Hs) in Hm.
  destruct a as [[] [] [] [] [] [] [] []]; try done.
  by destruct b as [[] [] [] [] [] [] [] []].
Qed.

Lemma replaceAll_fuel (n m : nat) (v : string) :
  (String.length v ≤ n)%nat → (String.length v ≤ m)%nat →
  replaceAll getenv n v = replaceAll getenv m v.
Proof.
  revert m v. induction n as [|n IH]; intros m v Hn Hm.
  - destruct v; [|simpl in Hn; lia]. by destruct m.
  - destruct m as [|m].
    + destruct v; [done | simpl in Hm; lia].
    + cbn [replaceAll]. destruct (matchAt v) as [[name rest]|] eqn:Hmatch.
      * apply matchAt_length in Hmatch. f_equal. apply IH; lia.
      * destruct v as [|c v]; [done|]. f_equal. simpl in *. apply IH; lia.
Qed.

(** [interpolateString], one step of the search after the other. *)
Lemma interpolateString_step (v : string) :
  interpolateString getenv v =
  match matchAt v with
  | Some (name, rest) => default EmptyString (getenv name) +:+ interpolateString getenv rest
  | None =>
      match v with
      | EmptyString => EmptyString
      | String c v' => String c (interpolateString getenv v')
      end
  end.
Proof.
  unfold interpolateString. destruct v as [|c v]; [done|].
  change (String.length (String c v)) with (S (String.length v)).
  cbn [replaceAll]. destruct (matchAt (String c v)) as [[name rest]|] eqn:Hm; [|done].
  apply matchAt_length in Hm. simpl in Hm. f_equal.
  apply replaceAll_fuel; lia.
Qed.

Lemma includes_cons_false (c : ascii) (s p : string) :
  includes (String c s) p = false → startsWith (String c s) p = false ∧ includes s p = false.
Proof. cbn [includes]. by intros ?%orb_false_iff. Qed.

Lemma interpolateString_plain (v : string) :
  includes v "${" = false → interpolateString getenv v = v.
Proof.
  induction v as [|c v IH]; [done|].
  intros [Hs Hv]%includes_cons_false.
  rewrite interpolateString_step, (matchAt_None _ Hs). by rewrite IH.
Qed.

Lemma interpolateString_unclosed (v : string) :
  includes v "}" = false → interpolateString getenv v = v.
Proof.
  induction v as [|c v IH]; [done|]. intros Hv.
  rewrite interpolateString_step, (matchAt_unclosed _ Hv).
  apply includes_cons_false in Hv as [_ Hv]. by rewrite IH.
Qed.

Lemma interpolateString_placeholder (a name b : string) :
  includes a "${" = false → name ≠ EmptyString → includes name "}" = false →
  interpolateString getenv (a +:+ "${" +:+ name +:+ "}" +:+ b) =
  a +:+ default EmptyString (getenv name) +:+ interpolateString getenv b.
Proof.
  intros Ha Hne Hn. induction a as [|c a IH].
  - rewrite !app_empty_l, interpolateString_step. by rewrite matchAt_placeholder.
  - apply includes_cons_false in Ha as [Hs Ha].
    rewrite !(app_cons c a), interpolateString_step, matchAt_None; [by rewrite IH|].
    destruct a as [|c' a].
    2:{ rewrite (app_cons c' a). cbn [startsWith] in Hs |- *.
        destruct (Ascii.eqb "$" c); [|done]. destruct (Ascii.eqb "{" c'); [|done].
        by destruct a. }
    rewrite app_empty_l.
    change ("${" +:+ name +:+ "}" +:+ b) with (String "$" (String "{" (name +:+ "}" +:+ b))).
    cbn [startsWith]. by destruct (Ascii.eqb "$" c).
Qed.

(** X1.  [interpolateString] replaces a placeholder, a dollar sign and a
    name in braces, by what [process.env] holds under that name, as text,
    and by nothing when it holds nothing there; the name is everything up
    to the next closing brace and is not empty.  What is put in is not
    searched for placeholders again.  A text with no dollar sign before
    an opening brace, or with no closing brace, comes back as it is, and
    so do empty braces after a dollar sign. *)
Theorem interpolateString_placeholders :
  (∀ a name b,
     includes a "${" = false → name ≠ EmptyString → includes name "}" = false →
     interpolateString getenv (a +:+ "${" +:+ name +:+ "}" +:+ b) =
     a +:+ default EmptyString (getenv name) +:+ interpolateString getenv b) ∧
  (∀ v, includes v "${" = false → interpolateString getenv v = v) ∧
  (∀ v, includes v "}" = false → interpolateString getenv v = v) ∧
  (∀ b, interpolateString getenv ("${}" +:+ b) = "${}" +:+ interpolateString getenv b).
Proof.
  split; [exact interpolateString_placeholder|].
  split; [exact interpolateString_plain|].
  split; [exact interpolateString_unclosed|].
  intros b. reflexivity.
Qed.

(** X2.  [interpolateEnv] keeps the keys of the object and interpolates
    each value, but for the key [__proto__], which the result never has.
    An object without that key whose values hold no placeholder comes back
    as it is. *)
Theorem interpolateEnv_entries :
  (∀ obj k,
     interpolateEnv getenv obj !! k =
     if decide (k = "__proto__") then None else interpolateString getenv <$> obj !! k) ∧
  (∀ obj,
     obj !! "__proto__" = None →
     (∀ k v, obj !! k = Some v → includes v "${" = false) →
     interpolateEnv getenv obj = obj).
Proof.
  split.
  - intros obj k. unfold interpolateEnv. rewrite lookup_fmap.
    destruct (decide (k = "__proto__")) as [->|Hne].
    + by rewrite lookup_delete_eq.
    + by rewrite lookup_delete_ne.
  - intros obj Hproto Hplain. unfold interpolateEnv.
    rewrite delete_id by done. apply map_eq. intros k. rewrite lookup_fmap.
    destruct (obj !! k) as [v|] eqn:Hk; [|done]. simpl.
    by rewrite interpolateString_plain by eauto.
Qed.
End Placeholders.

(** ** The lines of the output of the token command *)

Section Lines.
Import JsString JsError JSON McpClientPool Spec.

Lemma trimEnd_app_ws (s : string) (c : ascii) :
  isWhiteSpace c = true → trimEnd (s +:+ String c EmptyString) = trimEnd s.
Proof.
  intros Hc. induction s as [|x s IH].
  - rewrite app_empty_l. simpl. by rewrite Hc.
  - rewrite app_cons. cbn [trimEnd]. by rewrite IH.
Qed.

Lemma trimStart_app (s t : string) :
  trimStart (s +:+ t) = if blank s then trimStart t else trimStart s +:+ t.
Proof.
  induction s as [|x s IH]; [done|]. rewrite app_cons. simpl.
  destruct (isWhiteSpace x); [exact IH | done].
Qed.

(** A carriage return at the end of a line is trimmed away. *)
Lemma trim_app_CR (s : string) : trim (s +:+ CR) = trim s.
Proof.
  unfold trim. rewrite trimStart_app. destruct (blank s) eqn:Hb.
  - apply trimStart_empty in Hb as ->. done.
  - by apply trimEnd_app_ws.
Qed.

Lemma consHead_app (c : ascii) (h : string) (init rest : list string) :
  consHead c ((h :: init) ++ rest) = consHead c (h :: init) ++ rest.
Proof. reflexivity. Qed.

(** The pieces of a text with a line feed in it: those of what stands
    before the line feed, the last one without the carriage return that
    may end it, and then those of what stands behind. *)
Lemma splitLines_app (a b : string) :
  ∃ init l l',
    splitLines a = init ++ [l] ∧
    splitLines (a +:+ LF +:+ b) = init ++ [l'] ++ splitLines b ∧
    (l = l' ∨ l = l' +:+ CR).
Proof.
  enough ((∃ init l l',
             splitLines a = init ++ [l] ∧
             splitLines (a +:+ LF +:+ b) = init ++ [l'] ++ splitLines b ∧
             (l = l' ∨ l = l' +:+ CR)) ∧
          ∀ c, ∃ init l l',
             splitLines (String c a) = init ++ [l] ∧
             splitLines (String c a +:+ LF +:+ b) = init ++ [l'] ++ splitLines b ∧
             (l = l' ∨ l = l' +:+ CR)) by tauto.
  induction a as [|c' a [IH1 IH2]].
  - split.
    + exists [], EmptyString, EmptyString. by split; [|split; [|left]].
    + intros c. rewrite app_cons, app_empty_l.
      change (LF +:+ b) with (String "010" b).
      rewrite !(splitLines_cons c). destruct (isLF c) eqn:Hc.
      * exists [EmptyString], EmptyString, EmptyString. by split; [|split; [|left]].
      * change (isLF "010") with true. rewrite andb_true_r.
        destruct (isCR c) eqn:Hcr.
        -- apply Ascii.eqb_eq in Hcr as ->.
           exists [], CR, EmptyString. by split; [|split; [|right]].
        -- exists [], (String c EmptyString), (String c EmptyString).
           by split; [|split; [|left]].
  - split; [apply IH2|]. intros c.
    rewrite (app_cons c), !(splitLines_cons c). destruct (isLF c) eqn:Hc.
    + destruct (IH2 c') as (init & l & l' & H1 & H2 & Hl).
      exists (EmptyString :: init), l, l'. rewrite H1, H2. by split; [|split].
    + rewrite (app_cons c' a). destruct (isCR c && isLF c') eqn:Hcc.
      * destruct IH1 as (init & l & l' & H1 & H2 & Hl).
        exists (EmptyString :: init), l, l'. rewrite H1, H2. by split; [|split].
      * rewrite <- (app_cons c' a).
        destruct (IH2 c') as (init & l & l' & H1 & H2 & Hl). rewrite H1, H2.
        destruct init as [|h init].
        -- exists [], (String c l), (String c l'). split; [done|]. split; [done|].
           destruct Hl as [->| ->]; [by left | by right].
        -- exists (String c h :: init), l, l'. by split; [|split].
Qed.

Lemma nonEmptyLines_app (a b : string) :
  nonEmptyLines (a +:+ LF +:+ b) = nonEmptyLines a ++ nonEmptyLines b.
Proof.
  unfold nonEmptyLines.
  destruct (splitLines_app a b) as (init & l & l' & -> & -> & Hl).
  rewrite !fmap_app, !filter_app, <- app_assoc. do 2 f_equal.
  destruct Hl as [->| ->]; [done|]. cbn [fmap list_fmap]. by rewrite trim_app_CR.
Qed.

Lemma includes_LF (c : ascii) (s : string) :
  includes (String c s) LF = isLF c || includes s LF.
Proof.
  unfold LF, isLF. cbn [includes startsWith].
  rewrite Ascii.eqb_sym. by destruct s; rewrite andb_true_r.
Qed.

(** A text without line feed is one piece. *)
Lemma splitLines_one (line : string) :
  includes line LF = false → splitLines line = [line].
Proof.
  induction line as [|c s IH]; [done|]. rewrite includes_LF.
  intros [Hc Hs]%orb_false_iff. rewrite splitLines_cons, Hc, (IH Hs).
  destruct s as [|c' s]; [done|].
  rewrite includes_LF in Hs. apply orb_false_iff in Hs as [-> _].
  by rewrite andb_false_r.
Qed.

Lemma scanCandidates_app (l1 l2 : list string) (t : utf16) :
  scanCandidates l1 = Some t → scanCandidates (l1 ++ l2) = Some t.
Proof.
  induction l1 as [|c l1 IH]; [done|]. simpl.
  by destruct (fromJson c).
Qed.

(** X3.  What the token command prints before its last lines does not
    matter once these lines hold a token in JSON: the lines of an output
    with a line feed in it are the lines of what stands before it and
    then the lines of what stands behind, also when a carriage return
    stands before the line feed; so when the lines behind it yield a
    token from a JSON object, this is the token of the whole output; in
    particular a last line that is a JSON object with a token decides. *)
Theorem final_lines_decide :
  (∀ a b, nonEmptyLines (a +:+ LF +:+ b) = nonEmptyLines a ++ nonEmptyLines b) ∧
  (∀ a b t,
     scanCandidates (rev (nonEmptyLines b)) = Some t →
     extractToken (a +:+ LF +:+ b) = Some t) ∧
  (∀ a line t,
     includes line LF = false → fromJson (trim line) = Some t →
     extractToken (a +:+ LF +:+ line) = Some t).
Proof.
  split; [exact nonEmptyLines_app|].
  assert (∀ a b t,
            scanCandidates (rev (nonEmptyLines b)) = Some t →
            extractToken (a +:+ LF +:+ b) = Some t) as Hlines.
  { intros a b t Hb. unfold extractToken. cbv zeta.
    rewrite nonEmptyLines_app, rev_app_distr.
    by rewrite (scanCandidates_app _ _ t Hb). }
  split; [exact Hlines|].
  intros a line t Hline Ht. apply Hlines.
  unfold nonEmptyLines. rewrite (splitLines_one line Hline). cbn [map].
  rewrite filter_cons.
  destruct (decide (truthy (trim line) = true)) as [_|Hempty].
  - simpl. by rewrite Ht.
  - apply not_true_is_false, truthy_false in Hempty. by rewrite Hempty in Ht.
Qed.
End Lines.

(** ** What the methods leave alone *)

Section Frames.
Import JsString JsError JSON McpClientPool Spec.

Lemma sameButFlag_refl (a : string * ClientEntry) : sameButFlag a a.
Proof.
  split; [done|]. exists true. destruct a as [k []]. unfold lowered. simpl.
  by rewrite andb_true_r.
Qed.

Lemma sameButFlag_trans (a b c : string * ClientEntry) :
  sameButFlag a b → sameButFlag b c → sameButFlag a c.
Proof.
  intros [Hk1 [x Hx]] [Hk2 [y Hy]]. split; [congruence|].
  exists (x && y). rewrite Hy, Hx. unfold lowered. simpl. by rewrite andb_assoc.
Qed.

Lemma Forall2_sameButFlag_refl (m : list (string * ClientEntry)) : Forall2 sameButFlag m m.
Proof. induction m; constructor; [apply sameButFlag_refl | done]. Qed.

Lemma Forall2_sameButFlag_trans (m1 m2 m3 : list (string * ClientEntry)) :
  Forall2 sameButFlag m1 m2 → Forall2 sameButFlag m2 m3 → Forall2 sameButFlag m1 m3.
Proof.
  intros H12. revert m3. induction H12 as [|a b m1 m2 Hab _ IH]; intros m3 H23.
  - by inversion H23.
  - inversion H23 as [|? c ? m3' Hbc H23']; subst. constructor.
    + by eapply sameButFlag_trans.
    + by apply IH.
Qed.

Lemma Forall2_sameButFlag_get (m m' : list (string * ClientEntry)) (k : string) :
  Forall2 sameButFlag m m' →
  ∃ keep, JsMap.get k m' = lowered keep <$> JsMap.get k m.
Proof.
  induction 1 as [|[k1 e1] [k2 e2] m m' [Hk [keep He]] _ IH].
  - by exists true.
  - simpl in Hk, He. subst k2 e2. simpl. destruct (String.eqb k1 k); [|exact IH].
    by exists keep.
Qed.

Lemma Forall2_sameButFlag_keys (m m' : list (string * ClientEntry)) :
  Forall2 sameButFlag m m' → JsMap.keys m' = JsMap.keys m.
Proof.
  unfold JsMap.keys. induction 1 as [|a b m m' [Hk _] _ IH]; [done|].
  simpl. by rewrite Hk, IH.
Qed.

Lemma Forall2_sameButFlag_sessions (m m' : list (string * ClientEntry)) :
  Forall2 sameButFlag m m' →
  map (fun p => client p.2) m' = map (fun p => client p.2) m ∧
  map (fun p => transport p.2) m' = map (fun p => transport p.2) m.
Proof.
  induction 1 as [|a b m m' [_ [keep Hb]] _ [IH1 IH2]]; [done|].
  simpl. rewrite Hb, IH1, IH2. done.
Qed.

Lemma markDisconnected_sameButFlag (n : string) (m : list (string * ClientEntry)) :
  Forall2 sameButFlag m
    (JsMap.update n
       (fun entry => {| config := config entry; client := client entry;
                        transport := transport entry; connected := false |}) m).
Proof.
  induction m as [|[k e] m IH]; simpl; [constructor|].
  destruct (String.eqb k n).
  - constructor; [|apply Forall2_sameButFlag_refl]. split; [done|].
    exists false. unfold lowered. simpl. by rewrite andb_false_r.
  - constructor; [apply sameButFlag_refl | exact IH].
Qed.

Lemma flagsOnly_refl (w : World) : flagsOnly w w.
Proof.
  split; [apply Forall2_sameButFlag_refl|]. split; [done|].
  exists []. by rewrite app_nil_r.
Qed.

Lemma flagsOnly_trans (w1 w2 w3 : World) : flagsOnly w1 w2 → flagsOnly w2 w3 → flagsOnly w1 w3.
Proof.
  intros (Hc1 & Hn1 & more1 & Ht1) (Hc2 & Hn2 & more2 & Ht2).
  split; [by eapply Forall2_sameButFlag_trans|]. split; [lia|].
  exists (more1 ++ more2). by rewrite Ht2, Ht1, app_assoc.
Qed.

Lemma flagsOnly_fireHook (h : HookKind * nat) (w : World) : flagsOnly w (fireHook h w).
Proof.
  unfold fireHook. destruct (transports w !! h.2) as [obj|]; [|apply flagsOnly_refl].
  destruct (hookOf h.1 obj) as [n|]; [|apply flagsOnly_refl].
  split; [apply markDisconnected_sameButFlag|]. split; [done|].
  exists []. by rewrite app_nil_r.
Qed.

Lemma flagsOnly_fireHooks (hs : list (HookKind * nat)) (w : World) :
  flagsOnly w (fireHooks hs w).
Proof.
  unfold fireHooks. revert w. induction hs as [|h hs IH]; intros w; [apply flagsOnly_refl|].
  simpl. eapply flagsOnly_trans; [apply flagsOnly_fireHook | apply IH].
Qed.

Lemma flagsOnly_resumed (ev : event) (hooks : list (HookKind * nat)) (w : World) :
  flagsOnly w (resumed ev hooks w).
Proof.
  unfold resumed.
  apply (flagsOnly_trans w (with_trace (fun tr => tr ++ [ev]) w));
    [|apply flagsOnly_fireHooks].
  split; [apply Forall2_sameButFlag_refl|]. split; [done|].
  exists []. by rewrite app_nil_r.
Qed.

Lemma flagsOnly_lookup (w w' : World) (t : nat) (obj : TransportObject) :
  flagsOnly w w' → transports w !! t = Some obj → transports w' !! t = Some obj.
Proof. intros (_ & _ & more & ->) Ht. by apply lookup_app_l_Some. Qed.

Lemma flagsOnly_kept (w w' : World) : flagsOnly w w' → kept w w'.
Proof.
  intros (Hc & Hn & _). split; [|done]. intros k.
  by apply Forall2_sameButFlag_get.
Qed.

(** *** The invariant *)

Lemma sound_flagsOnly (w w' : World) : flagsOnly w w' → sound w → sound w'.
Proof.
  intros Hf (Hkeys & Hs & Ht & Hentries).
  pose proof Hf as (Hc & Hn & more & Hmore).
  destruct (Forall2_sameButFlag_sessions _ _ Hc) as [Hs' Ht'].
  split; [by rewrite (Forall2_sameButFlag_keys _ _ Hc)|].
  split; [by rewrite Hs'|]. split; [by rewrite Ht'|].
  intros k e' He'. destruct (Forall2_sameButFlag_get _ _ k Hc) as [keep Hkeep].
  rewrite Hkeep in He'. destruct (JsMap.get k (clients w)) as [e|] eqn:He; [|done].
  injection He' as <-. destruct (Hentries k e He) as (Hname & Hlt & obj & Hobj & Hrest).
  split; [done|]. split; [simpl; lia|]. exists obj. split; [|done].
  simpl. by eapply flagsOnly_lookup.
Qed.

Lemma sound_emptyPool : sound emptyPool.
Proof. split; [constructor|]. split; [constructor|]. split; [constructor|]. done. Qed.

Lemma get_elem_of {V} (k : string) (v : V) (m : list (string * V)) :
  JsMap.get k m = Some v → (k, v) ∈ m.
Proof.
  induction m as [|[k' v'] m IH]; [done|]. simpl.
  destruct (String.eqb k' k) eqn:Hk.
  - apply String.eqb_eq in Hk as ->. intros [= ->]. left.
  - intros H. right. by apply IH.
Qed.

Lemma elem_of_get {V} (k : string) (v : V) (m : list (string * V)) :
  NoDup (JsMap.keys m) → (k, v) ∈ m → JsMap.get k m = Some v.
Proof.
  unfold JsMap.keys. induction m as [|[k' v'] m IH]; [by intros _ ?%elem_of_nil|].
  simpl. intros [Hnot Hnd]%NoDup_cons [[= -> ->]|Hin]%elem_of_cons.
  - by rewrite String.eqb_refl.
  - destruct (String.eqb k' k) eqn:Hk; [|by apply IH].
    apply String.eqb_eq in Hk as ->. exfalso. apply Hnot.
    apply list_elem_of_fmap. by exists (k, v).
Qed.

Lemma elem_of_set {V} (k : string) (v : V) (m : list (string * V)) (p : string * V) :
  p ∈ JsMap.set k v m → p = (k, v) ∨ p ∈ m.
Proof.
  induction m as [|[k' v'] m IH]; simpl.
  - intros ?%list_elem_of_singleton. by left.
  - destruct (String.eqb k' k).
    + intros [->|Hin]%elem_of_cons; [by left | right; by right].
    + intros [->|Hin]%elem_of_cons; [right; left|].
      destruct (IH Hin) as [->|?]; [by left | right; by right].
Qed.

(** [set] puts a new key last and leaves a key that is there in its
    place. *)
Lemma keys_set {V} (k : string) (v : V) (m : list (string * V)) :
  JsMap.keys (JsMap.set k v m) =
  if decide (k ∈ JsMap.keys m) then JsMap.keys m else JsMap.keys m ++ [k].
Proof.
  unfold JsMap.keys. induction m as [|[k' v'] m IH].
  - cbn [JsMap.set map fst].
    destruct (decide (k ∈ [])) as [Hin|_]; [by apply elem_of_nil in Hin | done].
  - cbn [JsMap.set map fst]. destruct (String.eqb k' k) eqn:Hk.
    + apply String.eqb_eq in Hk as ->. cbn [map fst].
      destruct (decide (k ∈ k :: map fst m)) as [_|Hnot]; [done|].
      exfalso. apply Hnot. left.
    + apply String.eqb_neq in Hk. cbn [map fst]. rewrite IH.
      destruct (decide (k ∈ map fst m)) as [Hin|Hnot];
        destruct (decide (k ∈ k' :: map fst m)) as [Hin'|Hnot']; try done.
      * exfalso. apply Hnot'. by right.
      * apply elem_of_cons in Hin' as [?|?]; [congruence | done].
Qed.

Lemma NoDup_map_set {V B} (g : V → B) (k : string) (v : V) (m : list (string * V)) :
  NoDup (map (fun p => g p.2) m) → g v ∉ map (fun p => g p.2) m →
  NoDup (map (fun p => g p.2) (JsMap.set k v m)).
Proof.
  induction m as [|[k' v'] m IH]; simpl.
  - intros _ _. apply NoDup_singleton.
  - intros [Hnot Hnd]%NoDup_cons [Hne Hv]%not_elem_of_cons.
    destruct (String.eqb k' k); simpl.
    + apply NoDup_cons. done.
    + apply NoDup_cons. split; [|by apply IH].
      intros (p & Hp & [->|Hin]%elem_of_set)%list_elem_of_fmap.
      * simpl in Hp. congruence.
      * apply Hnot. apply list_elem_of_fmap. by exists p.
Qed.

Lemma delete_filter {V} (k : string) (m : list (string * V)) :
  JsMap.delete k m = filter (fun p => p.1 ≠ k) m.
Proof.
  induction m as [|[k' v'] m IH]; [done|]. simpl. rewrite filter_cons. simpl.
  destruct (String.eqb k' k) eqn:Hk.
  - apply String.eqb_eq in Hk as ->. by rewrite decide_False by tauto.
  - apply String.eqb_neq in Hk. by rewrite decide_True, IH by done.
Qed.

Lemma NoDup_map_filter {A B} (f : A → B) (P : A → Prop) `{!∀ x, Decision (P x)}
    (l : list A) :
  NoDup (map f l) → NoDup (map f (filter P l)).
Proof.
  induction l as [|x l IH]; [done|]. simpl. intros [Hnot Hnd]%NoDup_cons.
  rewrite filter_cons. destruct (decide (P x)); [|by apply IH].
  simpl. apply NoDup_cons. split; [|by apply IH].
  intros (y & Hy & [_ Hin]%list_elem_of_filter)%list_elem_of_fmap.
  apply Hnot. apply list_elem_of_fmap. by exists y.
Qed.

Lemma installed_nextClient config c t w : nextClient (installed config c t w) = nextClient w.
Proof.
  unfold installed. destruct (transports w !! t) as [obj|]; [|done].
  by destruct (isStdio (built obj)).
Qed.

Lemma installed_clients config c t w :
  clients (installed config c t w) =
  JsMap.set (Config.name config)
    {| config := config; client := c; transport := t; connected := true |} (clients w).
Proof.
  unfold installed. destruct (transports w !! t) as [obj|]; [|done].
  by destruct (isStdio (built obj)).
Qed.

Lemma installed_tokenCache config c t w :
  tokenCache (installed config c t w) = tokenCache w.
Proof.
  unfold installed. destruct (transports w !! t) as [obj|]; [|done].
  by destruct (isStdio (built obj)).
Qed.

(** [installed] touches the transport it is given, and no other. *)
Lemma installed_lookup_ne config c t t' w :
  t' ≠ t → transports (installed config c t w) !! t' = transports w !! t'.
Proof.
  intros Hne. unfold installed. destruct (transports w !! t) as [obj|]; [|done].
  destruct (isStdio (built obj)); [|done]. simpl.
  by apply list_lookup_insert_ne.
Qed.

Lemma installed_lookup config c t w obj :
  transports w !! t = Some obj → freshFor config obj →
  ∃ obj', transports (installed config c t w) !! t = Some obj' ∧
          isStdio (built obj') = isStdioKind config ∧
          onerror obj' = hookFor (Config.name config) (built obj') ∧
          onclose obj' = hookFor (Config.name config) (built obj').
Proof.
  intros Hobj (Herr & Hcl & Hkind). destruct (isStdio (built obj)) eqn:Hstdio.
  - rewrite (installed_hooks _ _ _ _ obj Hobj Hstdio). eexists. split; [done|].
    unfold hookFor. simpl. by rewrite Hstdio.
  - exists obj. unfold installed. rewrite Hobj, Hstdio. simpl.
    split; [done|]. split; [by rewrite <- Hkind|]. unfold hookFor. by rewrite Hstdio.
Qed.

(** The invariant after the last step of [connect]: the session and the
    transport of the new entry are new, so they serve no other entry. *)
Lemma sound_installed config c t obj (w wi : World) :
  sound w → flagsOnly w wi →
  (nextClient w ≤ c < nextClient wi)%nat →
  (length (transports w) ≤ t)%nat →
  transports wi !! t = Some obj → freshFor config obj →
  sound (installed config c t wi).
Proof.
  intros Hsound Hf Hc Ht Hobj Hfresh.
  pose proof (sound_flagsOnly w wi Hf Hsound) as (Hkeys & Hs & Htr & Hentries).
  destruct Hsound as (_ & _ & _ & Hentries0).
  pose proof Hf as (Hcl & _ & _).
  destruct (Forall2_sameButFlag_sessions _ _ Hcl) as [Hs' Ht'].
  assert (∀ p, p ∈ clients wi →
               (client p.2 < nextClient w)%nat ∧ (transport p.2 < length (transports w))%nat)
    as Hold.
  { intros [k e'] Hin. apply elem_of_get in Hin; [|done].
    destruct (Forall2_sameButFlag_get _ _ k Hcl) as [keep Hkeep].
    rewrite Hkeep in Hin. destruct (JsMap.get k (clients w)) as [e|] eqn:He; [|done].
    injection Hin as <-. destruct (Hentries0 k e He) as (_ & Hlt & o & Ho & _).
    simpl. split; [done|]. by eapply lookup_lt_Some. }
  rewrite <- (installed_nextClient config c t wi) in Hc.
  split; [|split; [|split]].
  - rewrite installed_clients, keys_set. destruct (decide _) as [Hin|Hnot]; [done|].
    apply NoDup_app. split; [done|]. split; [|apply NoDup_singleton].
    intros k Hk ->%list_elem_of_singleton. done.
  - rewrite installed_clients. apply (NoDup_map_set client); [done|]. simpl.
    intros (p & Hp & Hin)%list_elem_of_fmap. destruct (Hold p Hin) as [Hlt _].
    rewrite installed_nextClient in Hc. lia.
  - rewrite installed_clients. apply (NoDup_map_set transport); [done|]. simpl.
    intros (p & Hp & Hin)%list_elem_of_fmap. destruct (Hold p Hin) as [_ Hlt]. lia.
  - intros k e He. destruct (decide (Config.name config = k)) as [<-|Hne].
    + rewrite installed_get in He. injection He as <-.
      unfold entrySound. cbn [McpClientPool.config McpClientPool.client McpClientPool.transport].
      split; [done|]. split; [lia|]. by apply (installed_lookup _ _ _ _ obj).
    + rewrite installed_get_ne in He by done.
      destruct (Hentries k e He) as (Hname & Hlt & o & Ho & Hrest).
      split; [done|]. split; [rewrite installed_nextClient; lia|].
      exists o. split; [|done]. rewrite installed_lookup_ne; [done|].
      apply get_elem_of in He. destruct (Hold _ He) as [_ Hlt']. simpl in Hlt'. lia.
Qed.

Lemma sound_delete (serverName : string) (w : World) :
  sound w → sound (with_clients (JsMap.delete serverName) w).
Proof.
  intros (Hkeys & Hs & Ht & Hentries). unfold sound. simpl.
  rewrite delete_filter. unfold JsMap.keys.
  split; [by apply NoDup_map_filter|]. split; [by apply NoDup_map_filter|].
  split; [by apply NoDup_map_filter|].
  intros k e He. rewrite <- delete_filter in He.
  destruct (decide (serverName = k)) as [<-|Hne]; [by rewrite get_delete_eq in He|].
  rewrite get_delete_ne in He by done. by apply Hentries.
Qed.

(** *** Steps that preserve *)

Context {A B : Type}.

Lemma preserves_ret (I : World → Prop) (a : A) : preserves I (ret a).
Proof. by intros w. Qed.

Lemma preserves_throw (I : World → Prop) (err : thrown) : preserves I (throw (A := A) err).
Proof. by intros w. Qed.

Lemma preserves_gets (I : World → Prop) (f : World → A) : preserves I (gets f).
Proof. by intros w. Qed.

Lemma preserves_bind (I : World → Prop) (m : M A) (k : A → M B) :
  preserves I m → (∀ a, preserves I (k a)) → preserves I (bind m k).
Proof.
  intros Hm Hk w Hw. unfold bind. specialize (Hm w Hw).
  destruct (m w) as [[a|err] w1]; [by apply Hk | done].
Qed.

Lemma preserves_tryCatch (I : World → Prop) (m : M A) (handler : thrown → M A) :
  preserves I m → (∀ err, preserves I (handler err)) → preserves I (tryCatch m handler).
Proof.
  intros Hm Hk w Hw. unfold tryCatch. specialize (Hm w Hw).
  destruct (m w) as [[a|err] w1]; [done | by apply Hk].
Qed.
End Frames.

(** ** A [connect] under way *)

Section Underway.
Import JsString JsError JSON McpClientPool Spec.
Variable E : Env.
Variable config : Config.ServerConfig.
Variable w0 : World.

Lemma flagsOnly_same (w w' : World) :
  clients w' = clients w → nextClient w' = nextClient w → transports w' = transports w →
  flagsOnly w w'.
Proof.
  intros Hc Hn Ht. split; [rewrite Hc; apply Forall2_sameButFlag_refl|].
  split; [lia|]. exists []. by rewrite app_nil_r.
Qed.

Lemma underway_refl : underway E config w0 w0.
Proof.
  split; [apply flagsOnly_refl|]. split; [exists []; by rewrite app_nil_r|].
  split; [done|]. split; [done|]. exists []. by rewrite app_nil_r.
Qed.

(** One more step of a [connect] under way. *)
Lemma underway_step (w w' : World) :
  underway E config w0 w → flagsOnly w w' →
  (∃ more, transports w' = transports w ++ more ∧ Forall (freshFor config) more) →
  (∀ k, k ≠ Config.name config → tokenCache w' !! k = tokenCache w !! k) →
  (is_Some (tokenCache w !! Config.name config) →
   is_Some (tokenCache w' !! Config.name config)) →
  (∃ new, trace w' = trace w ++ new ∧
          Forall (ownEvent E config (nextClient w0) (length (transports w0))) new) →
  underway E config w0 w'.
Proof.
  intros (Hf & (more & Hmore & Hfresh) & Hother & Hown & new & Hnew & Hevents)
         Hf' (more' & Hmore' & Hfresh') Hother' Hown' (new' & Hnew' & Hevents').
  split; [by eapply flagsOnly_trans|]. split; [|split; [|split]].
  - exists (more ++ more'). split; [by rewrite Hmore', Hmore, app_assoc|].
    by apply Forall_app.
  - intros k Hk. by rewrite Hother', Hother.
  - auto.
  - exists (new ++ new'). split; [by rewrite Hnew', Hnew, app_assoc|].
    by apply Forall_app.
Qed.

(** A step that leaves the store and the cache alone. *)
Lemma underway_quiet (w w' : World) (new : list event) :
  underway E config w0 w → flagsOnly w w' →
  transports w' = transports w → tokenCache w' = tokenCache w →
  trace w' = trace w ++ new →
  Forall (ownEvent E config (nextClient w0) (length (transports w0))) new →
  underway E config w0 w'.
Proof.
  intros Hu Hf Ht Hc Hnew Hown. apply (underway_step w w' Hu Hf).
  - exists []. by rewrite app_nil_r.
  - intros k _. by rewrite Hc.
  - by rewrite Hc.
  - by exists new.
Qed.

Lemma underway_resumed (w : World) (ev : event) (hooks : list (HookKind * nat)) :
  underway E config w0 w →
  ownEvent E config (nextClient w0) (length (transports w0)) ev →
  underway E config w0 (resumed ev hooks w).
Proof.
  intros Hu Hev. apply (underway_quiet w _ [ev] Hu).
  - apply flagsOnly_resumed.
  - apply resumed_transports.
  - apply resumed_tokenCache.
  - apply resumed_trace.
  - by apply Forall_singleton.
Qed.

Lemma underway_base (w : World) :
  underway E config w0 w → (length (transports w0) ≤ length (transports w))%nat.
Proof. intros (_ & (more & -> & _) & _). rewrite length_app. lia. Qed.

(** The transports made since the [connect] began are for its server and
    carry no hook. *)
Lemma underway_lookup (w : World) (t : nat) :
  underway E config w0 w →
  (length (transports w0) ≤ t < length (transports w))%nat →
  ∃ obj, transports w !! t = Some obj ∧ freshFor config obj.
Proof.
  intros (_ & (more & Hmore & Hfresh) & _) [Hge Hlt].
  destruct (transports w !! t) as [obj|] eqn:Hobj;
    [|apply lookup_ge_None in Hobj; lia].
  exists obj. split; [done|]. rewrite Hmore in Hobj.
  rewrite lookup_app_r in Hobj by done.
  rewrite Forall_forall in Hfresh. apply Hfresh. by eapply list_elem_of_lookup_2.
Qed.

Lemma preserves_emit (ev : event) :
  ownEvent E config (nextClient w0) (length (transports w0)) ev →
  preserves (underway E config w0) (emit ev).
Proof.
  intros Hev w Hu. apply (underway_quiet w _ [ev] Hu); try done.
  - by apply flagsOnly_same.
  - by apply Forall_singleton.
Qed.

Lemma preserves_await {A} (ev : event) (ask : list event → answer A) :
  ownEvent E config (nextClient w0) (length (transports w0)) ev →
  preserves (underway E config w0) (await ev ask).
Proof. intros Hev w Hu. rewrite await_eq. by apply underway_resumed. Qed.

Lemma preserves_now : preserves (underway E config w0) (now E).
Proof.
  intros w Hu. apply (underway_quiet w _ [EvDateNow] Hu); try done.
  - by apply flagsOnly_same.
  - by apply Forall_singleton.
Qed.

Lemma preserves_runTokenCommand (forceRefresh : bool) :
  usesAuthTokenCommand config = true →
  preserves (underway E config w0)
    (runTokenCommand E (default EmptyString (Config.authTokenCommand config))
       (tokenArgs config forceRefresh) (Config.env config)).
Proof.
  intros Huses w Hu. unfold runTokenCommand. cbv zeta.
  destruct (execFile E _ _ _ _) as [r hooks]. cbn [snd].
  apply (underway_resumed w (EvExecFile _ _ _) hooks Hu).
  split; [done|]. split; [|split; [by exists forceRefresh | done]].
  unfold usesAuthTokenCommand in Huses.
  destruct (Config.transport config); [done|].
  by destruct (Config.authTokenCommand config).
Qed.

Lemma preserves_cache (entry : TokenCacheEntry) :
  preserves (underway E config w0)
    (modify (with_tokenCache <[Config.name config := entry]>)).
Proof.
  intros w Hu. apply (underway_step w _ Hu).
  - by apply flagsOnly_same.
  - exists []. by rewrite app_nil_r.
  - intros k Hk. cbn. by rewrite lookup_insert_ne.
  - intros _. cbn. rewrite lookup_insert_eq. by eexists.
  - exists []. by rewrite app_nil_r.
Qed.

Lemma preserves_getAuthToken (forceRefresh : bool) :
  usesAuthTokenCommand config = true →
  preserves (underway E config w0) (getAuthToken E config forceRefresh).
Proof.
  intros Huses. unfold getAuthToken.
  apply preserves_bind; [apply preserves_gets|]. intros cache.
  apply preserves_bind; [apply preserves_now|]. intros t. cbv zeta.
  assert (preserves (underway E config w0)
            (emit (EvConsoleLog
                     ("[mcp-adapter] " +:+ Config.name config +:+
                      ": requesting OAuth token" +:+
                      (if forceRefresh then " (forced refresh)" else EmptyString))) ;;
             let* token :=
               runTokenCommand E (default EmptyString (Config.authTokenCommand config))
                 (default [] (Config.authTokenArgs config) ++
                  (if forceRefresh then default [] (Config.authTokenRefreshArgs config)
                   else []))
                 (Config.env config) in
             modify (with_tokenCache
                       <[Config.name config := {| token := token; fetchedAtMs := t |}]>) ;;
             ret token)) as Hrefresh.
  { apply preserves_bind; [by apply preserves_emit|]. intros _.
    apply preserves_bind; [by apply (preserves_runTokenCommand forceRefresh)|]. intros token.
    apply preserves_bind; [apply preserves_cache|]. intros _. apply preserves_ret. }
  destruct cache as [c0|]; [|exact Hrefresh].
  destruct (negb forceRefresh && _); [apply preserves_ret | exact Hrefresh].
Qed.

Lemma preserves_newTransport (spec : TransportSpec) :
  isStdio spec = isStdioKind config →
  preserves (underway E config w0) (newTransport spec).
Proof.
  intros Hkind w Hu. unfold newTransport, bind, gets, modify, emit, ret. cbn [fst snd].
  apply (underway_step w _ Hu).
  - split; [apply Forall2_sameButFlag_refl|]. split; [done|]. by eexists.
  - eexists. split; [reflexivity|]. by apply Forall_singleton.
  - done.
  - done.
  - eexists. split; [reflexivity|]. apply Forall_singleton.
    split; [|done]. cbn. by apply underway_base.
Qed.

Lemma preserves_buildHttpHeaders (options : option ConnectOptions) :
  preserves (underway E config w0) (buildHttpHeaders E config options).
Proof.
  unfold buildHttpHeaders. cbv zeta.
  destruct (usesAuthTokenCommand config) eqn:Huses; [|apply preserves_ret].
  apply preserves_bind; [by apply preserves_getAuthToken|]. intros token.
  apply preserves_ret.
Qed.

Lemma preserves_createTransport (options : option ConnectOptions) :
  preserves (underway E config w0) (createTransport E config options).
Proof.
  unfold createTransport. apply preserves_bind; [by apply preserves_emit|]. intros _.
  unfold isStdioKind in *.
  destruct (Config.transport config) eqn:Hk.
  - apply preserves_newTransport. unfold isStdioKind. by rewrite Hk.
  - apply preserves_bind; [apply preserves_buildHttpHeaders|]. intros headers.
    apply preserves_bind.
    + unfold new_URL. cbv zeta.
      destruct (URL_valid E _); [apply preserves_ret | apply preserves_throw].
    + intros url. apply preserves_newTransport. unfold isStdioKind. by rewrite Hk.
Qed.
End Underway.

Section ConnectUnderway.
Import JsString JsError JSON McpClientPool Spec.
Variable E : Env.

(** The credential fetch and the headers make no transport. *)
Lemma transports_buildHttpHeaders config options (w : World) :
  transports (buildHttpHeaders E config options w).2 = transports w.
Proof.
  rewrite buildHttpHeaders_eq. destruct (usesAuthTokenCommand config); [|done].
  assert (transports (getAuthToken E config (forced options) w).2 = transports w) as H.
  { unfold getAuthToken, bind, gets, now, emit, modify, ret, runTokenCommand. cbv zeta.
    cbn [fst snd].
    destruct (tokenCache w !! Config.name config) as [c|];
      [destruct (negb (forced options) && _); [done|]|];
      cbn [trace with_trace]; destruct (execFile E _ _ _ _) as [r hooks];
      destruct (tokenCommandCallback r); cbn [snd]; unfold with_tokenCache;
      cbn [transports]; by rewrite transports_fireHooks. }
  by destruct (getAuthToken E config (forced options) w) as [[token|err] w'].
Qed.

(** The transport that [createTransport] returns is the one object it
    adds to the store. *)
Lemma createTransport_fresh config options (w w1 : World) (t : nat) :
  createTransport E config options w = (Return t, w1) →
  t = length (transports w) ∧ length (transports w1) = S t.
Proof.
  unfold createTransport. unfold bind at 1, emit at 1, modify at 1. cbn [fst snd].
  set (wm := with_trace _ w).
  assert (∀ spec wx, transports wx = transports w →
            newTransport spec wx = (Return t, w1) →
            t = length (transports w) ∧ length (transports w1) = S t) as Hnew.
  { intros spec wx Hwx. unfold newTransport, bind, gets, modify, emit, ret. cbn [fst snd].
    intros [= <- <-]. cbn. rewrite Hwx, length_app. simpl. lia. }
  destruct (Config.transport config); [by apply Hnew|].
  unfold bind at 1. pose proof (transports_buildHttpHeaders config options wm) as Hh.
  destruct (buildHttpHeaders E config options wm) as [[headers|err] wh]; [|done].
  cbn [snd] in Hh. unfold bind at 1, new_URL. cbv zeta.
  destruct (URL_valid E _); [|done]. unfold ret at 1. by apply Hnew.
Qed.

(** [connect], in terms of what it leaves alone: it either throws with
    the registry as it was but for health flags, or returns its new
    session and stores the entry over a transport it has made. *)
Lemma connect_underway (config : Config.ServerConfig) (options : option ConnectOptions)
    (w : World) :
  match connect E config options w with
  | (Throw _, w') => underway E config w w'
  | (Return c, w') =>
      c = nextClient w ∧
      ∃ t wi obj,
        underway E config w wi ∧ (nextClient w < nextClient wi)%nat ∧
        (length (transports w) ≤ t)%nat ∧
        transports wi !! t = Some obj ∧ freshFor config obj ∧
        w' = installed config c t wi
  end.
Proof.
  rewrite connect_eq. cbv zeta.
  set (wn := (newClient w).2).
  assert (underway E config w wn) as H0.
  { apply (underway_quiet E config w w wn [EvNewClient (nextClient w)]);
      [apply underway_refl | | done | done | done | by apply Forall_singleton].
    split; [apply Forall2_sameButFlag_refl|]. split; [simpl; lia|].
    exists []. by rewrite app_nil_r. }
  assert (∀ options wa t wb,
            underway E config w wa → (nextClient w < nextClient wa)%nat →
            createTransport E config options wa = (Return t, wb) →
            (nextClient w < nextClient wb)%nat ∧
            (length (transports w) ≤ t)%nat ∧ length (transports wb) = S t) as Hbuilt.
  { intros o wa t wb Hu Hlt Hc.
    pose proof (preserves_createTransport E config wa o wa (underway_refl E config wa))
      as (( _ & Hn & _) & _).
    rewrite Hc in Hn. cbn [snd] in Hn.
    apply createTransport_fresh in Hc as [-> Hlen].
    split; [lia|]. split; [by apply (underway_base E config w)|done]. }
  assert (∀ wa t, underway E config w wa → (nextClient w < nextClient wa)%nat →
            (length (transports w) ≤ t)%nat → length (transports wa) = S t →
            ∃ obj, transports wa !! t = Some obj ∧ freshFor config obj) as Hobj.
  { intros wa t Hu _ Hge Hlen. apply (underway_lookup E config w wa t Hu). lia. }
  pose proof (preserves_createTransport E config w options wn H0) as H1.
  destruct (createTransport E config options wn) as [[t0|e] w1] eqn:Hc1; cbn [snd] in H1;
    [|done].
  destruct (Hbuilt options wn t0 w1 H0) as (Hlt1 & Hge0 & Hlen1); [simpl; lia | done |].
  set (w2 := resumed (EvClientConnect (nextClient w) t0) _ w1).
  assert (underway E config w w2) as H2 by (by apply underway_resumed).
  assert (nextClient w < nextClient w2)%nat as Hlt2
    by (subst w2; by rewrite resumed_nextClient).
  destruct (outcome (client_connect E (trace w1) (nextClient w) t0)) as [err|[]].
  - destruct (_ && _ && _); [|done].
    set (w3 := resumed (EvTransportClose t0) _ w2).
    assert (underway E config w w3) as H3 by (by apply underway_resumed).
    pose proof (preserves_createTransport E config w forcedOptions w3 H3) as H4.
    destruct (createTransport E config forcedOptions w3) as [[t1|e] w4] eqn:Hc4;
      cbn [snd] in H4; [|done].
    destruct (Hbuilt forcedOptions w3 t1 w4 H3) as (Hlt4 & Hge1 & Hlen4);
      [subst w3; by rewrite resumed_nextClient | done |].
    set (w5 := resumed (EvClientConnect (nextClient w) t1) _ w4).
    assert (underway E config w w5) as H5 by (by apply underway_resumed).
    destruct (outcome (client_connect E (trace w4) (nextClient w) t1)) as [e|[]]; [done|].
    split; [done|].
    destruct (Hobj w5 t1 H5) as (obj & Ho & Hfresh);
      [subst w5; by rewrite resumed_nextClient | done
      | subst w5; by rewrite resumed_transports |].
    exists t1, w5, obj. split; [done|]. split; [|done].
    subst w5. by rewrite resumed_nextClient.
  - split; [done|].
    destruct (Hobj w2 t0 H2) as (obj & Ho & Hfresh);
      [done | done | subst w2; by rewrite resumed_transports |].
    by exists t0, w2, obj.
Qed.

(** *** The invariant, method by method *)

Lemma sound_connect config options w : sound w → sound (connect E config options w).2.
Proof.
  intros Hs. pose proof (connect_underway config options w) as H.
  destruct (connect E config options w) as [[c|err] w']; cbn [snd].
  - destruct H as (-> & t & wi & obj & (Hf & _) & Hlt & Hge & Hobj & Hfresh & ->).
    apply (sound_installed config (nextClient w) t obj w wi); try done.
  - destruct H as (Hf & _). by eapply sound_flagsOnly.
Qed.

Lemma sound_resumed ev hooks w : sound w → sound (resumed ev hooks w).
Proof. apply sound_flagsOnly, flagsOnly_resumed. Qed.

Lemma sound_reconnect serverName options w :
  sound w → sound (reconnect E serverName options w).2.
Proof.
  intros Hs. rewrite reconnect_eq.
  destruct (JsMap.get serverName (clients w)) as [entry|]; [|done]. cbv zeta.
  set (w1 := resumed _ _ w).
  pose proof (sound_connect (config entry) options w1 (sound_resumed _ _ w Hs)) as H.
  by destruct (connect E (config entry) options w1) as [[c|err] w2].
Qed.

Lemma sound_withRecovery {A} serverName (ev : nat → event)
    (ask : nat → list event → answer A) w :
  sound w → sound (withRecovery E serverName ev ask w).2.
Proof.
  intros Hs. rewrite withRecovery_eq.
  destruct (JsMap.get serverName (clients w)) as [entry|]; [|done]. cbv zeta.
  set (w1 := resumed _ _ w).
  assert (sound w1) as Hs1 by by apply sound_resumed.
  assert (∀ options, sound (retriedOnce E serverName options ev ask w1).2) as Hretry.
  { intros options. unfold retriedOnce.
    pose proof (sound_reconnect serverName options w1 Hs1) as H.
    destruct (reconnect E serverName options w1) as [[[]|err] w2]; [|done].
    destruct (JsMap.get serverName (clients w2)) as [refreshed|]; [|done].
    cbn [snd] in *. by apply sound_resumed. }
  destruct (outcome (ask (client entry) (trace w))) as [err|v]; [|done].
  destruct (_ && _); [apply Hretry|].
  destruct (_ || _); [apply Hretry | done].
Qed.

Lemma sound_close serverName w : sound w → sound (close E serverName w).2.
Proof.
  intros Hs. rewrite close_eq.
  destruct (JsMap.get serverName (clients w)) as [entry|]; [|done]. cbn [snd].
  by apply sound_delete, sound_resumed.
Qed.

Lemma sound_closeEach names w : sound w → sound (closeEach E names w).2.
Proof.
  revert w. induction names as [|n names IH]; intros w Hs; [done|].
  cbn [closeEach]. unfold bind.
  pose proof (sound_close n w Hs) as H.
  destruct (close E n w) as [[[]|err] w1]; [|done]. by apply IH.
Qed.

Lemma sound_perform (c : call) (w : World) : sound w → sound (perform E c w).
Proof.
  intros Hs. destruct c; cbn [perform].
  - by apply sound_connect.
  - rewrite listTools_scheme. by apply sound_withRecovery.
  - rewrite callTool_scheme. by apply sound_withRecovery.
  - by apply sound_close.
  - unfold closeAll, bind, gets. cbn. by apply sound_closeEach.
  - eapply sound_flagsOnly; [apply flagsOnly_fireHook | done].
Qed.

Lemma sound_performAll (calls : list call) (w : World) :
  sound w → sound (performAll E calls w).
Proof.
  unfold performAll. revert w. induction calls as [|c calls IH]; intros w Hs; [done|].
  cbn [foldl]. by apply IH, sound_perform.
Qed.
End ConnectUnderway.

(** ** The registry over the life of a pool *)

Section Lifecycle.
Import JsString JsError JSON McpClientPool Spec.
Variable E : Env.

Lemma NoDup_map_eq {A B} (f : A → B) (l : list A) (x y : A) :
  NoDup (map f l) → x ∈ l → y ∈ l → f x = f y → x = y.
Proof.
  induction l as [|a l IH]; intros Hnd Hx Hy Hf; [by apply elem_of_nil in Hx|].
  simpl in Hnd. apply NoDup_cons in Hnd as [Hnot Hnd].
  apply elem_of_cons in Hx as [->|Hx]; apply elem_of_cons in Hy as [->|Hy].
  - done.
  - exfalso. apply Hnot. rewrite Hf. apply list_elem_of_fmap. by exists y.
  - exfalso. apply Hnot. rewrite <- Hf. apply list_elem_of_fmap. by exists x.
  - by apply IH.
Qed.

(** In a sound pool two names have two sessions and two transports. *)
Lemma sound_distinct (w : World) (k k' : string) (e e' : ClientEntry) :
  sound w → JsMap.get k (clients w) = Some e → JsMap.get k' (clients w) = Some e' →
  k ≠ k' → client e ≠ client e' ∧ transport e ≠ transport e'.
Proof.
  intros (_ & Hs & Ht & _) He%get_elem_of He'%get_elem_of Hne. split; intros Heq.
  - pose proof (NoDup_map_eq (fun p => client p.2) _ _ _ Hs He He' Heq). congruence.
  - pose proof (NoDup_map_eq (fun p => transport p.2) _ _ _ Ht He He' Heq). congruence.
Qed.

Lemma sound_bounds (w : World) (k : string) (e : ClientEntry) :
  sound w → JsMap.get k (clients w) = Some e →
  (client e < nextClient w)%nat ∧ (transport e < length (transports w))%nat.
Proof.
  intros (_ & _ & _ & Hentries) He.
  destruct (Hentries k e He) as (_ & Hlt & obj & Hobj & _).
  split; [done|]. by eapply lookup_lt_Some.
Qed.

(** X4.  Whatever calls a pool has seen, of [connect], [listTools],
    [callTool], [close] and [closeAll], and whatever hooks have run: no
    name has two entries; every entry is stored under the name of its
    descriptor, with a session the pool has made and a transport object
    of the class of its descriptor, which carries both hooks with that
    name when it is a subprocess transport and no hook otherwise; and
    the entries of two names share neither session nor transport. *)
Theorem reachable_registry (calls : list call) :
  sound (performAll E calls emptyPool) ∧
  ∀ k k' e e',
    JsMap.get k (clients (performAll E calls emptyPool)) = Some e →
    JsMap.get k' (clients (performAll E calls emptyPool)) = Some e' →
    k ≠ k' → client e ≠ client e' ∧ transport e ≠ transport e'.
Proof.
  assert (sound (performAll E calls emptyPool)) as Hs
    by apply sound_performAll, sound_emptyPool.
  split; [done|]. intros k k' e e'. by apply sound_distinct.
Qed.

Lemma fireHook_set (kind : HookKind) (t : nat) (w : World) (obj : TransportObject)
    (k : string) :
  transports w !! t = Some obj → hookOf kind obj = Some k →
  fireHook (kind, t) w = markDisconnected k w.
Proof. intros Hobj Hk. unfold fireHook. cbn [fst snd]. by rewrite Hobj, Hk. Qed.

Lemma fireHook_unset (kind : HookKind) (t : nat) (w : World) (obj : TransportObject) :
  transports w !! t = Some obj → hookOf kind obj = None → fireHook (kind, t) w = w.
Proof. intros Hobj Hk. unfold fireHook. cbn [fst snd]. by rewrite Hobj, Hk. Qed.

(** X5.  In a pool that calls have made, a hook of the transport of an
    entry of a subprocess server, once it runs, leaves that server
    unhealthy, whatever the pool did since its [connect]; a hook of the
    transport of an entry of an http server changes nothing. *)
Theorem hooks_of_entries (calls : list call) (k : string) (e : ClientEntry)
    (kind : HookKind) :
  JsMap.get k (clients (performAll E calls emptyPool)) = Some e →
  match Config.transport (config e) with
  | Config.stdio =>
      getStatus k (fireHook (kind, transport e) (performAll E calls emptyPool)) = false
  | Config.http =>
      fireHook (kind, transport e) (performAll E calls emptyPool) =
      performAll E calls emptyPool
  end.
Proof.
  intros He.
  destruct (sound_performAll E calls emptyPool sound_emptyPool) as (_ & _ & _ & Hentries).
  destruct (Hentries k e He) as (_ & _ & obj & Hobj & Hkind & Herr & Hcl).
  unfold isStdioKind in Hkind. unfold hookFor in Herr, Hcl. rewrite Hkind in Herr, Hcl.
  destruct (Config.transport (config e)).
  - rewrite (fireHook_set kind _ _ obj k Hobj); [apply getStatus_markDisconnected|].
    by destruct kind.
  - apply (fireHook_unset kind _ _ obj Hobj). by destruct kind.
Qed.

(** What [connect] does to the registry and to the store. *)
Lemma connect_result (config : Config.ServerConfig) (options : option ConnectOptions)
    (w : World) :
  match connect E config options w with
  | (Return c, w') =>
      c = nextClient w ∧
      (∃ t, (length (transports w) ≤ t)%nat ∧
            JsMap.get (Config.name config) (clients w') =
            Some {| config := config; client := c; transport := t; connected := true |}) ∧
      JsMap.keys (clients w') =
        (if decide (Config.name config ∈ JsMap.keys (clients w))
         then JsMap.keys (clients w)
         else JsMap.keys (clients w) ++ [Config.name config]) ∧
      (∀ k, k ≠ Config.name config →
            ∃ keep, JsMap.get k (clients w') = lowered keep <$> JsMap.get k (clients w)) ∧
      (∀ t obj, transports w !! t = Some obj → transports w' !! t = Some obj)
  | (Throw _, w') =>
      JsMap.keys (clients w') = JsMap.keys (clients w) ∧
      ∀ k, ∃ keep, JsMap.get k (clients w') = lowered keep <$> JsMap.get k (clients w)
  end.
Proof.
  pose proof (connect_underway E config options w) as H.
  destruct (connect E config options w) as [[c|err] w'].
  - destruct H as (-> & t & wi & obj & (Hf & _) & Hlt & Hge & Hobj & Hfresh & ->).
    pose proof Hf as (Hcl & _ & _).
    split; [done|]. split; [exists t; split; [done | apply installed_get]|].
    split; [|split].
    + by rewrite installed_clients, keys_set, (Forall2_sameButFlag_keys _ _ Hcl).
    + intros k Hk. rewrite installed_get_ne by done.
      by apply Forall2_sameButFlag_get.
    + intros t' o Ho. rewrite installed_lookup_ne.
      * by eapply flagsOnly_lookup.
      * apply lookup_lt_Some in Ho. lia.
  - destruct H as ((Hcl & _ & _) & _).
    split; [by apply Forall2_sameButFlag_keys|]. intros k.
    by apply Forall2_sameButFlag_get.
Qed.

(** X6.  A [connect] that returns has stored, under the name of the
    descriptor, an entry with that descriptor, the new session it
    returns, a transport made by this call and the health flag set; a
    name that had an entry keeps its place among the keys and a new name
    comes last; the entries of the other names are as they were, but for
    health flags that went down, no transport object that was in the
    store has changed, and the server is healthy.  A [connect] that
    throws leaves the keys and all entries as they were, but for such
    flags. *)
Theorem connect_registers (config : Config.ServerConfig) (options : option ConnectOptions)
    (w : World) :
  match connect E config options w with
  | (Return c, w') =>
      c = nextClient w ∧
      (∃ t, (length (transports w) ≤ t)%nat ∧
            JsMap.get (Config.name config) (clients w') =
            Some {| config := config; client := c; transport := t; connected := true |}) ∧
      JsMap.keys (clients w') =
        (if decide (Config.name config ∈ JsMap.keys (clients w))
         then JsMap.keys (clients w)
         else JsMap.keys (clients w) ++ [Config.name config]) ∧
      (∀ k, k ≠ Config.name config →
            ∃ keep, JsMap.get k (clients w') = lowered keep <$> JsMap.get k (clients w)) ∧
      (∀ t obj, transports w !! t = Some obj → transports w' !! t = Some obj) ∧
      getStatus (Config.name config) w' = true
  | (Throw _, w') =>
      JsMap.keys (clients w') = JsMap.keys (clients w) ∧
      ∀ k, ∃ keep, JsMap.get k (clients w') = lowered keep <$> JsMap.get k (clients w)
  end.
Proof.
  pose proof (connect_result config options w) as H.
  destruct (connect E config options w) as [[c|err] w']; [|exact H].
  destruct H as (Hc & (t & Hge & Hentry) & Hkeys & Hother & Hstore).
  split; [done|]. split; [by exists t|]. split; [done|]. split; [done|].
  split; [done|]. unfold getStatus. by rewrite Hentry.
Qed.

Lemma own_not_uses (config : Config.ServerConfig) (c base : nat) (o : ClientEntry)
    (ev : event) :
  (client o < c)%nat → (transport o < base)%nat →
  ownEvent E config c base ev → ¬ uses o ev.
Proof. intros Hc Ht. destruct ev; simpl; try done; lia. Qed.

(** The trace and the cache at the end of [connect]. *)
Lemma connect_events (config : Config.ServerConfig) (options : option ConnectOptions)
    (w : World) :
  (∃ new, trace (connect E config options w).2 = trace w ++ new ∧
          Forall (ownEvent E config (nextClient w) (length (transports w))) new) ∧
  (∀ k, k ≠ Config.name config →
        tokenCache (connect E config options w).2 !! k = tokenCache w !! k) ∧
  (is_Some (tokenCache w !! Config.name config) →
   is_Some (tokenCache (connect E config options w).2 !! Config.name config)).
Proof.
  pose proof (connect_underway E config options w) as H.
  destruct (connect E config options w) as [[c|err] w']; cbn [snd].
  - destruct H as (-> & t & wi & obj & (_ & _ & Hother & Hown & Hnew) & _ & _ & _ & _ & ->).
    by rewrite installed_trace, installed_tokenCache.
  - by destruct H as (_ & _ & Hother & Hown & Hnew).
Qed.

(** X7.  The events of a [connect], whether it returns or throws, are
    its own: they concern the descriptor it was given, the one session
    it made and transports made by this call; the token command runs
    only when the server uses it, and then it is the configured command
    with the configured arguments and environment; the cached tokens of
    the other names are as they were.  So in a sound pool no event of a
    [connect] is about the session or the transport of an entry that was
    there, not even of the entry it replaces: that transport is not
    closed. *)
Theorem connect_confined (config : Config.ServerConfig) (options : option ConnectOptions)
    (w : World) :
  ∃ new,
    trace (connect E config options w).2 = trace w ++ new ∧
    Forall (ownEvent E config (nextClient w) (length (transports w))) new ∧
    (∀ k, k ≠ Config.name config →
          tokenCache (connect E config options w).2 !! k = tokenCache w !! k) ∧
    (sound w → ∀ k o, JsMap.get k (clients w) = Some o →
                      Forall (fun ev => ¬ uses o ev) new).
Proof.
  destruct (connect_events config options w) as ((new & Hnew & Hown) & Hother & _).
  exists new. split; [done|]. split; [done|]. split; [done|].
  intros Hs k o Ho. destruct (sound_bounds w k o Hs Ho) as [Hc Ht].
  eapply Forall_impl; [exact Hown|]. intros ev. by apply own_not_uses.
Qed.

(** X8.  [reconnect] of a name without entry returns and does nothing.
    For a name with an entry it first closes the transport of the entry,
    whatever this [close] does, and then connects the descriptor of the
    entry; when that [connect] throws, the error is the result and the
    registry still holds the entry, with its session and the transport
    just closed; when it returns, the name, when it is the name of the
    descriptor as in every sound pool, holds a new entry with the new
    session and a transport made by this call. *)
Theorem reconnect_outcomes (serverName : string) (options : option ConnectOptions)
    (w : World) :
  match JsMap.get serverName (clients w) with
  | None => reconnect E serverName options w = (Return tt, w)
  | Some entry =>
      let w1 := resumed (EvTransportClose (transport entry))
                  (fired (transport_close E (trace w) (transport entry))) w in
      (∃ new, trace (reconnect E serverName options w).2 =
              trace w ++ EvTransportClose (transport entry) :: new ∧
              Forall (ownEvent E (config entry) (nextClient w) (length (transports w)))
                new) ∧
      match connect E (config entry) options w1 with
      | (Throw err, w2) =>
          reconnect E serverName options w = (Throw err, w2) ∧
          ∃ keep, JsMap.get serverName (clients w2) = Some (lowered keep entry)
      | (Return c, w2) =>
          reconnect E serverName options w = (Return tt, w2) ∧
          (Config.name (config entry) = serverName →
           ∃ t, JsMap.get serverName (clients w2) =
                Some {| config := config entry; client := nextClient w; transport := t;
                        connected := true |} ∧
                (length (transports w) ≤ t)%nat)
      end
  end.
Proof.
  rewrite reconnect_eq.
  destruct (JsMap.get serverName (clients w)) as [entry|] eqn:Hget; [|done]. cbv zeta.
  set (w1 := resumed _ _ w).
  assert (nextClient w1 = nextClient w) as Hn by apply resumed_nextClient.
  assert (transports w1 = transports w) as Ht by apply resumed_transports.
  destruct (connect_events (config entry) options w1) as ((new & Hnew & Hown) & _).
  pose proof (connect_result (config entry) options w1) as Hreg.
  rewrite Hn, Ht in Hown.
  destruct (connect E (config entry) options w1) as [[c|err] w2]; cbn [snd] in *.
  - split.
    + exists new. split; [|done].
      subst w1. rewrite Hnew, resumed_trace, <- app_assoc. done.
    + split; [done|]. intros Hname.
      destruct Hreg as (-> & (t & Hge & Hentry) & _). exists t.
      rewrite Hname, Hn in Hentry. rewrite Ht in Hge. done.
  - split.
    + exists new. split; [|done].
      subst w1. rewrite Hnew, resumed_trace, <- app_assoc. done.
    + split; [done|]. destruct Hreg as (_ & Hkept).
      destruct (Hkept serverName) as [a Ha].
      destruct (resumed_get (EvTransportClose (transport entry))
                  (fired (transport_close E (trace w) (transport entry))) serverName w)
        as [b Hb].
      fold w1 in Hb. rewrite Ha, Hb, Hget. simpl. exists (b && a).
      unfold lowered. simpl. by rewrite andb_assoc.
Qed.

(** X9.  The hooks of a replaced transport stay live.  After a
    [reconnect] of a subprocess server has returned, the server is
    healthy and its entry has a new transport; a hook of the old
    transport that runs from then on leaves the server unhealthy all
    the same, since the hook marks by name. *)
Theorem stale_hook_after_reconnect (serverName : string)
    (options : option ConnectOptions) (w w' : World) (entry : ClientEntry)
    (kind : HookKind) :
  sound w → JsMap.get serverName (clients w) = Some entry →
  Config.transport (config entry) = Config.stdio →
  reconnect E serverName options w = (Return tt, w') →
  getStatus serverName w' = true ∧
  (∃ entry', JsMap.get serverName (clients w') = Some entry' ∧
             transport entry' ≠ transport entry) ∧
  getStatus serverName (fireHook (kind, transport entry) w') = false.
Proof.
  intros Hs Hget Hk Hre.
  pose proof Hs as (_ & _ & _ & Hentries).
  destruct (Hentries serverName entry Hget) as (Hname & _ & obj & Hobj & Hkind & Herr & Hcl).
  rewrite reconnect_eq, Hget in Hre. cbv zeta in Hre.
  pose proof (connect_result (config entry) options
                (resumed (EvTransportClose (transport entry))
                   (fired (transport_close E (trace w) (transport entry))) w)) as Hreg.
  destruct (connect E (config entry) options _) as [[c|err] w2]; [|done].
  injection Hre as <-.
  destruct Hreg as (-> & (t & Hge & Hentry) & _ & _ & Hstore).
  rewrite Hname in Hentry. rewrite resumed_transports in Hge.
  assert (transport entry < length (transports w))%nat as Hlt
    by by eapply lookup_lt_Some.
  split; [unfold getStatus; by rewrite Hentry|].
  split; [eexists; split; [exact Hentry | simpl; lia]|].
  specialize (Hstore (transport entry) obj).
  rewrite resumed_transports in Hstore. specialize (Hstore Hobj).
  rewrite (fireHook_set kind _ _ obj serverName Hstore);
    [apply getStatus_markDisconnected|].
  unfold isStdioKind in Hkind. rewrite Hk in Hkind.
  unfold hookFor in Herr, Hcl. rewrite Hkind in Herr, Hcl. by destruct kind.
Qed.

(** *** The token cache *)

Lemma tokenCache_close (serverName : string) (w : World) :
  tokenCache (close E serverName w).2 = tokenCache w.
Proof.
  rewrite close_eq. destruct (JsMap.get serverName (clients w)) as [entry|]; [|done].
  cbn. apply resumed_tokenCache.
Qed.

Lemma tokenCache_closeEach (names : list string) (w : World) :
  tokenCache (closeEach E names w).2 = tokenCache w.
Proof.
  revert w. induction names as [|n names IH]; intros w; [done|].
  cbn [closeEach]. unfold bind. pose proof (tokenCache_close n w) as H.
  destruct (close E n w) as [[[]|err] w1]; cbn [snd] in H; [|done].
  by rewrite IH.
Qed.

Lemma tokenCache_connect (config : Config.ServerConfig) (options : option ConnectOptions)
    (w : World) (k : string) :
  is_Some (tokenCache w !! k) → is_Some (tokenCache (connect E config options w).2 !! k).
Proof.
  destruct (connect_events config options w) as (_ & Hother & Hown).
  destruct (decide (k = Config.name config)) as [->|Hne]; [done|].
  by rewrite Hother.
Qed.

Lemma tokenCache_withRecovery {A} (serverName : string) (ev : nat → event)
    (ask : nat → list event → answer A) (w : World) (k : string) :
  is_Some (tokenCache w !! k) →
  is_Some (tokenCache (withRecovery E serverName ev ask w).2 !! k).
Proof.
  intros Hk. rewrite withRecovery_eq.
  destruct (JsMap.get serverName (clients w)) as [entry|]; [|done]. cbv zeta.
  set (w1 := resumed _ _ w).
  assert (is_Some (tokenCache w1 !! k)) as Hk1
    by (subst w1; by rewrite resumed_tokenCache).
  assert (∀ options, is_Some (tokenCache (retriedOnce E serverName options ev ask w1).2 !! k))
    as Hretry.
  { intros options. unfold retriedOnce. rewrite reconnect_eq.
    destruct (JsMap.get serverName (clients w1)) as [e1|].
    - cbv zeta. set (w2 := resumed _ _ w1).
      assert (is_Some (tokenCache w2 !! k)) as Hk2
        by (subst w2; by rewrite resumed_tokenCache).
      pose proof (tokenCache_connect (config e1) options w2 k Hk2) as H.
      destruct (connect E (config e1) options w2) as [[c|err] w3]; [|done].
      cbn [snd] in H.
      destruct (JsMap.get serverName (clients w3)) as [refreshed|]; [|done].
      cbn [snd]. by rewrite resumed_tokenCache.
    - destruct (JsMap.get serverName (clients w1)) as [refreshed|]; [|done].
      cbn [snd]. by rewrite resumed_tokenCache. }
  destruct (outcome (ask (client entry) (trace w))) as [err|v]; [|done].
  destruct (_ && _); [apply Hretry|].
  destruct (_ || _); [apply Hretry | done].
Qed.

(** X10.  The pool never drops a cached token: whatever call is made,
    and whatever hook runs, a name that has a token in the cache has
    one afterwards.  [close] and [closeAll] leave the cache as it is, so
    the token of a closed server is there for its next [connect]; and a
    [connect] leaves the tokens of the other names as they are. *)
Theorem token_cache_kept :
  (∀ c w k, is_Some (tokenCache w !! k) → is_Some (tokenCache (perform E c w) !! k)) ∧
  (∀ serverName w, tokenCache (close E serverName w).2 = tokenCache w) ∧
  (∀ w, tokenCache (closeAll E w).2 = tokenCache w) ∧
  (∀ config options w k,
     k ≠ Config.name config →
     tokenCache (connect E config options w).2 !! k = tokenCache w !! k).
Proof.
  assert (∀ w, tokenCache (closeAll E w).2 = tokenCache w) as Hall.
  { intros w. unfold closeAll, bind, gets. cbn [fst snd]. apply tokenCache_closeEach. }
  split; [|split; [exact tokenCache_close | split; [exact Hall|]]].
  - intros c w k Hk. destruct c; cbn [perform].
    + by apply tokenCache_connect.
    + rewrite listTools_scheme. by apply tokenCache_withRecovery.
    + rewrite callTool_scheme. by apply tokenCache_withRecovery.
    + by rewrite tokenCache_close.
    + by rewrite Hall.
    + destruct (fireHook_frame (kind, t) w) as (_ & _ & -> & _). done.
  - intros config options w k Hk.
    by destruct (connect_events config options w) as (_ & Hother & _); apply Hother.
Qed.

(** A fetch that does not use the cache: what it does to the cache. *)
Lemma refresh_cache (config : Config.ServerConfig) (forceRefresh : bool) (w : World) :
  (forceRefresh = true ∨
   ∀ c, tokenCache w !! Config.name config = Some c →
        (Date_now E (trace w) - fetchedAtMs c <? getTokenTtlMs config)%float = false) →
  match getAuthToken E config forceRefresh w with
  | (Return tok, w1) =>
      tokenCache w1 =
      <[Config.name config := {| token := tok; fetchedAtMs := Date_now E (trace w) |}]>
        (tokenCache w)
  | (Throw _, w1) => tokenCache w1 = tokenCache w
  end.
Proof.
  intros Hmiss.
  unfold getAuthToken, bind, gets, now, emit, modify, ret, runTokenCommand. cbv zeta.
  cbn [fst snd].
  assert (∀ c, tokenCache w !! Config.name config = Some c →
               negb forceRefresh &&
               (Date_now E (trace w) - fetchedAtMs c <? getTokenTtlMs config)%float = false)
    as Hcond.
  { intros c Hc. destruct Hmiss as [->|Hm]; [done|].
    apply andb_false_iff. right. by apply Hm. }
  destruct (tokenCache w !! Config.name config) as [c|] eqn:Hc.
  - rewrite (Hcond c eq_refl). cbn [trace with_trace].
    destruct (execFile E _ _ _ _) as [r hooks].
    destruct (tokenCommandCallback r); cbn [snd fst]; unfold with_tokenCache;
      cbn [tokenCache]; by rewrite tokenCache_fireHooks.
  - cbn [trace with_trace].
    destruct (execFile E _ _ _ _) as [r hooks].
    destruct (tokenCommandCallback r); cbn [snd fst]; unfold with_tokenCache;
      cbn [tokenCache]; by rewrite tokenCache_fireHooks.
Qed.

(** X11.  A credential fetch that returns leaves in the cache, for the
    name of the server, the token it returns; when it ran the command,
    the entry is stamped with the time read before the command ran.
    From any pool that holds this entry, a fetch without forced refresh
    at a time less than the time to live after the stamp returns the
    same token and does nothing but read the clock.  A fetch that
    throws leaves the cache as it was. *)
Theorem fetch_then_cached (config : Config.ServerConfig) (forceRefresh : bool)
    (w : World) :
  match getAuthToken E config forceRefresh w with
  | (Return tok, w1) =>
      ∃ c, tokenCache w1 !! Config.name config = Some c ∧ token c = tok ∧
           (invocations w w1 = 1%nat →
            fetchedAtMs c = Date_now E (trace w) ∧
            tokenCache w1 = <[Config.name config := c]> (tokenCache w)) ∧
           (invocations w w1 = 0%nat → tokenCache w1 = tokenCache w) ∧
           ∀ w2, tokenCache w2 !! Config.name config = Some c →
                 (Date_now E (trace w2) - fetchedAtMs c <? getTokenTtlMs config)%float
                 = true →
                 getAuthToken E config false w2 =
                 (Return tok, with_trace (fun tr => tr ++ [EvDateNow]) w2)
  | (Throw _, w1) => tokenCache w1 = tokenCache w
  end.
Proof.
  assert ((forceRefresh = false ∧
           ∃ c, tokenCache w !! Config.name config = Some c ∧
                (Date_now E (trace w) - fetchedAtMs c <? getTokenTtlMs config)%float
                = true) ∨
          (forceRefresh = true ∨
           ∀ c, tokenCache w !! Config.name config = Some c →
                (Date_now E (trace w) - fetchedAtMs c <? getTokenTtlMs config)%float
                = false))
    as [[-> (c & Hc & Hfresh)]|Hmiss].
  { destruct forceRefresh; [right; by left|].
    destruct (tokenCache w !! Config.name config) as [c|] eqn:Hc.
    - destruct (Date_now E (trace w) - fetchedAtMs c <? getTokenTtlMs config)%float
        eqn:Hlt.
      + left. split; [done|]. by exists c.
      + right. right. by intros ? [= <-].
    - right. right. by intros ? [=]. }
  - rewrite (cached_fetch E config w c Hc Hfresh). exists c.
    split; [done|]. split; [done|].
    rewrite (invocations_new _ _ [EvDateNow]) by done.
    split; [done|]. split; [done|].
    intros w2 Hc2 Hfresh2. by apply cached_fetch.
  - destruct (refresh_trace E config forceRefresh w Hmiss) as [line Hline].
    pose proof (refresh_cache config forceRefresh w Hmiss) as Hcache.
    destruct (getAuthToken E config forceRefresh w) as [[tok|err] w1]; [|done].
    cbn [snd] in Hline. rewrite (invocations_new _ _ _ Hline).
    exists {| token := tok; fetchedAtMs := Date_now E (trace w) |}.
    split; [by rewrite Hcache, lookup_insert_eq|]. split; [done|].
    split; [done|]. split; [done|].
    intros w2 Hc2 Hfresh2. by rewrite (cached_fetch E config w2 _ Hc2 Hfresh2).
Qed.
End Lifecycle.

(** ** One server at a time *)

Section Isolation.
Import JsString JsError JSON McpClientPool Spec.
Variable E : Env.

Lemma own_recovery (e : ClientEntry) (c base : nat) (ev : event) :
  ownEvent E (config e) c base ev → recoveryEvent E e c base ev.
Proof. destruct ev; simpl; try done. by right. Qed.

Lemma confinedTo_refl (e : ClientEntry) (w : World) : confinedTo E e w w.
Proof.
  split; [exists []; by rewrite app_nil_r|]. split; [done|].
  intros k o _ Ho. exists true. rewrite Ho. f_equal.
  destruct o. unfold lowered. simpl. by rewrite andb_true_r.
Qed.

(** One more step of a call on [e]. *)
Lemma confinedTo_step (e : ClientEntry) (w wa wb : World) (new : list event) :
  confinedTo E e w wa →
  trace wb = trace wa ++ new →
  Forall (recoveryEvent E e (nextClient w) (length (transports w))) new →
  (∀ k, k ≠ Config.name (config e) → tokenCache wb !! k = tokenCache wa !! k) →
  (∀ k, k ≠ Config.name (config e) →
        ∃ keep, JsMap.get k (clients wb) = lowered keep <$> JsMap.get k (clients wa)) →
  confinedTo E e w wb.
Proof.
  intros ((new0 & Hnew0 & Hev0) & Hcache0 & Hreg0) Hnew Hev Hcache Hreg.
  split; [|split].
  - exists (new0 ++ new). split; [by rewrite Hnew, Hnew0, app_assoc | by apply Forall_app].
  - intros k Hk. by rewrite Hcache, Hcache0.
  - intros k o Hk Ho. destruct (Hreg0 k o Hk Ho) as [a Ha].
    destruct (Hreg k Hk) as [b Hb]. rewrite Ha in Hb. simpl in Hb.
    exists (a && b). rewrite Hb. f_equal. unfold lowered. simpl. by rewrite andb_assoc.
Qed.

Lemma confinedTo_resumed (e : ClientEntry) (w wa : World) (ev : event)
    (hooks : list (HookKind * nat)) :
  confinedTo E e w wa →
  recoveryEvent E e (nextClient w) (length (transports w)) ev →
  confinedTo E e w (resumed ev hooks wa).
Proof.
  intros Hc Hev. apply (confinedTo_step e w wa _ [ev] Hc).
  - apply resumed_trace.
  - by apply Forall_singleton.
  - intros k _. by rewrite resumed_tokenCache.
  - intros k _. apply resumed_get.
Qed.

Lemma confinedTo_connect (e : ClientEntry) (options : option ConnectOptions)
    (w wa : World) :
  confinedTo E e w wa →
  nextClient wa = nextClient w → length (transports wa) = length (transports w) →
  confinedTo E e w (connect E (config e) options wa).2.
Proof.
  intros Hc Hn Hlen.
  destruct (connect_events E (config e) options wa) as ((new & Hnew & Hown) & Hcache & _).
  rewrite Hn, Hlen in Hown.
  apply (confinedTo_step e w wa _ new Hc Hnew).
  - eapply Forall_impl; [exact Hown|]. intros ev. apply own_recovery.
  - exact Hcache.
  - intros k Hk. pose proof (connect_result E (config e) options wa) as Hreg.
    destruct (connect E (config e) options wa) as [[c|err] wb]; cbn [snd].
    + destruct Hreg as (_ & _ & _ & Hother & _). by apply Hother.
    + destruct Hreg as (_ & Hall). apply Hall.
Qed.

(** [listTools] and [callTool] are one scheme: this is what it leaves
    alone. *)
Lemma withRecovery_confined {A} (serverName : string) (ev : nat → event)
    (ask : nat → list event → answer A) (w : World) (e : ClientEntry) :
  (∀ c, ev c = EvClientListTools c ∨ ∃ toolName args, ev c = EvClientCallTool c toolName args) →
  JsMap.get serverName (clients w) = Some e →
  Config.name (config e) = serverName →
  confinedTo E e w (withRecovery E serverName ev ask w).2.
Proof.
  intros Hev Hget Hname.
  assert (∀ c, c = client e ∨ c = nextClient w →
               recoveryEvent E e (nextClient w) (length (transports w)) (ev c)) as Hop.
  { intros c Hc. by destruct (Hev c) as [->|(toolName & args & ->)]. }
  rewrite withRecovery_eq, Hget. cbv zeta.
  set (w1 := resumed _ _ w).
  assert (confinedTo E e w w1) as H1.
  { apply confinedTo_resumed; [apply confinedTo_refl|]. apply Hop. by left. }
  assert (∀ options, confinedTo E e w (retriedOnce E serverName options ev ask w1).2)
    as Hretry.
  { intros options. unfold retriedOnce. rewrite reconnect_eq.
    destruct (resumed_get (ev (client e)) (fired (ask (client e) (trace w))) serverName w)
      as [keep Hkeep].
    fold w1 in Hkeep. rewrite Hget in Hkeep. simpl in Hkeep. rewrite Hkeep. cbv zeta.
    cbn [lowered McpClientPool.transport McpClientPool.config].
    set (w2 := resumed (EvTransportClose (transport e)) _ w1).
    assert (confinedTo E e w w2) as H2.
    { apply confinedTo_resumed; [done|]. by left. }
    assert (nextClient w2 = nextClient w) as Hn
      by (subst w2 w1; by rewrite !resumed_nextClient).
    assert (length (transports w2) = length (transports w)) as Hlen
      by (subst w2 w1; by rewrite !resumed_transports).
    pose proof (confinedTo_connect e options w w2 H2 Hn Hlen) as H3.
    pose proof (connect_result E (config e) options w2) as Hreg.
    destruct (connect E (config e) options w2) as [[c|err] w3]; cbn [snd] in H3; [|done].
    destruct Hreg as (-> & (t & _ & Hentry) & _). rewrite Hname in Hentry.
    rewrite Hentry. cbn [snd McpClientPool.client].
    apply confinedTo_resumed; [done|]. apply Hop. right. by rewrite Hn. }
  destruct (outcome (ask (client e) (trace w))) as [err|v]; [|done].
  destruct (_ && _); [apply Hretry|].
  destruct (_ || _); [apply Hretry | done].
Qed.

(** X12.  In a sound pool, a [listTools] or a [callTool] on a server,
    however it ends, is busy with that server only: its events are calls
    on the session of the entry or on the one new session, the close of
    the transport of the entry, and the events of a [connect] of the
    descriptor of the entry; so none of them is about the session or the
    transport of the entry of another name; and the entries and the
    cached tokens of the other names are as they were, but for health
    flags that went down. *)
Theorem calls_confined (serverName : string) (w : World) (e : ClientEntry) :
  sound w → JsMap.get serverName (clients w) = Some e →
  confinedTo E e w (listTools E serverName w).2 ∧
  (∀ toolName args, confinedTo E e w (callTool E serverName toolName args w).2) ∧
  (∀ k o ev, k ≠ serverName → JsMap.get k (clients w) = Some o →
             recoveryEvent E e (nextClient w) (length (transports w)) ev → ¬ uses o ev).
Proof.
  intros Hs Hget.
  pose proof Hs as (_ & _ & _ & Hentries).
  destruct (Hentries serverName e Hget) as (Hname & _).
  split; [|split].
  - rewrite listTools_scheme. apply withRecovery_confined; [by left | done | done].
  - intros toolName args. rewrite callTool_scheme.
    apply withRecovery_confined; [right; by exists toolName, args | done | done].
  - intros k o ev Hk Ho Hev.
    destruct (sound_bounds w k o Hs Ho) as [Hc Ht].
    destruct (sound_distinct w k serverName o e Hs Ho Hget Hk) as [Hce Hte].
    destruct ev; simpl in *; try (intros ?; lia); try done.
    all: intros Hu; destruct Hev; try lia; try congruence.
Qed.

(** *** The order of [closeAll] *)

Lemma keys_cons_inv (k : string) (ks : list string) (m : list (string * ClientEntry)) :
  JsMap.keys m = k :: ks → ∃ e rest, m = (k, e) :: rest ∧ JsMap.keys rest = ks.
Proof.
  destruct m as [|[k' e] rest]; [done|]. unfold JsMap.keys. simpl.
  intros [= -> <-]. by exists e, rest.
Qed.

Lemma closeEach_order (ks : list string) :
  ∀ w, JsMap.keys (clients w) = ks → NoDup ks →
       trace (closeEach E ks w).2 =
       trace w ++ map (fun p => EvTransportClose (transport p.2)) (clients w).
Proof.
  induction ks as [|k ks IH]; intros w Hkeys Hnd.
  - unfold JsMap.keys in Hkeys. apply fmap_nil_inv in Hkeys. rewrite Hkeys. simpl.
    by rewrite app_nil_r.
  - destruct (keys_cons_inv k ks _ Hkeys) as (e & rest & Hm & Hrest).
    apply NoDup_cons in Hnd as [Hnot Hnd].
    cbn [closeEach]. unfold bind. rewrite close_eq, Hm. cbn [JsMap.get].
    rewrite String.eqb_refl.
    set (w1 := resumed (EvTransportClose (transport e)) _ w).
    destruct (flagsOnly_resumed (EvTransportClose (transport e))
                (fired (transport_close E (trace w) (transport e))) w) as (Hcl & _).
    fold w1 in Hcl. rewrite Hm in Hcl.
    inversion Hcl as [|? [k1 e1] ? rest1 [Hk1 [keep He1]] Hrest1 Heq1 Heq2]. subst.
    simpl in Hk1, He1. subst k1.
    assert (JsMap.keys rest1 = JsMap.keys rest) as Hkeys1
      by by apply Forall2_sameButFlag_keys.
    assert (JsMap.delete k (clients w1) = rest1) as Hdel.
    { rewrite <- Heq2. cbn [JsMap.delete]. rewrite String.eqb_refl.
      apply delete_absent. apply get_None_keys. by rewrite Hkeys1. }
    rewrite IH; [|cbn; by rewrite Hdel | done].
    cbn [trace with_clients clients]. rewrite Hdel. subst w1.
    rewrite resumed_trace, <- app_assoc. cbn [map fst snd app]. do 2 f_equal.
    rewrite <- !(map_map (fun p : string * ClientEntry => transport p.2) EvTransportClose).
    f_equal. by apply (Forall2_sameButFlag_sessions rest rest1).
Qed.

(** X13.  [closeAll] closes the transports in the order in which the
    names came into the registry, one [close] for each entry and nothing
    else, whatever these calls of [close] do. *)
Theorem closeAll_order (w : World) :
  NoDup (JsMap.keys (clients w)) →
  closeAll E w = (Return tt, (closeAll E w).2) ∧
  clients (closeAll E w).2 = [] ∧
  trace (closeAll E w).2 =
  trace w ++ map (fun p => EvTransportClose (transport p.2)) (clients w).
Proof.
  intros Hnd. destruct (closeAll_effect E w) as (w' & new & Hc & Hnil & _).
  rewrite Hc. cbn [snd]. split; [done|]. split; [done|].
  replace w' with (closeAll E w).2 by by rewrite Hc.
  unfold closeAll, bind, gets. cbn [fst snd]. by apply closeEach_order.
Qed.

(** *** [markDisconnected] *)

Lemma update_update {V} (k : string) (f : V → V) (m : list (string * V)) :
  (∀ v, f (f v) = f v) → JsMap.update k f (JsMap.update k f m) = JsMap.update k f m.
Proof.
  intros Hf. induction m as [|[k' v] m IH]; [done|]. simpl.
  destruct (String.eqb k' k) eqn:Hk; simpl; rewrite Hk; [by rewrite Hf | by rewrite IH].
Qed.

Lemma update_absent {V} (k : string) (f : V → V) (m : list (string * V)) :
  JsMap.get k m = None → JsMap.update k f m = m.
Proof.
  induction m as [|[k' v] m IH]; [done|]. simpl.
  destruct (String.eqb k' k); [done|]. intros H. by rewrite IH.
Qed.

(** X14.  [markDisconnected] lowers the health flag of the entry of the
    name and does nothing else: the entry keeps its descriptor, session
    and transport, the other entries and the order of the keys are as
    they were, and so are the store, the cache and the trace.  On a name
    without entry it does nothing at all, and doing it twice is doing it
    once.  So hooks, which do nothing but this, never raise a flag. *)
Theorem markDisconnected_flag (serverName : string) (w : World) :
  getStatus serverName (markDisconnected serverName w) = false ∧
  (∀ k, JsMap.get k (clients (markDisconnected serverName w)) =
        lowered (negb (String.eqb serverName k)) <$> JsMap.get k (clients w)) ∧
  JsMap.keys (clients (markDisconnected serverName w)) = JsMap.keys (clients w) ∧
  (transports (markDisconnected serverName w) = transports w ∧
   tokenCache (markDisconnected serverName w) = tokenCache w ∧
   trace (markDisconnected serverName w) = trace w) ∧
  (JsMap.get serverName (clients w) = None → markDisconnected serverName w = w) ∧
  markDisconnected serverName (markDisconnected serverName w) =
    markDisconnected serverName w ∧
  (∀ hooks k, getStatus k (fireHooks hooks w) = true → getStatus k w = true).
Proof.
  split; [apply getStatus_markDisconnected|].
  split; [intros k; apply markDisconnected_get|].
  split; [unfold markDisconnected; simpl; apply keys_update|].
  split; [done|]. split; [|split].
  - intros Hnone. unfold markDisconnected, with_clients.
    rewrite update_absent by done. by destruct w.
  - unfold markDisconnected, with_clients. cbn [clients tokenCache transports nextClient trace].
    by rewrite update_update.
  - intros hooks k. unfold getStatus.
    destruct (fireHooks_get hooks k w) as [keep ->].
    destruct (JsMap.get k (clients w)) as [o|]; [|done]. simpl.
    by intros [? _]%andb_true_iff.
Qed.
End Isolation.

(** ** Output without JSON *)

Section PlainOutput.
Import JsString JsError JSON McpClientPool Spec.

Lemma parseElements_array (fuel : nat) (s : string) (acc : list json) (v : json)
    (rest : string) :
  parseElements fuel s acc = Some (v, rest) → ∃ items, v = JArray items.
Proof.
  revert s acc. induction fuel as [|fuel IH]; intros s acc; [done|].
  cbn [parseElements].
  destruct (parseValue fuel s) as [[v1 r1]|]; [|done]. cbn.
  destruct (skipWs r1) as [|c2 r2]; [done|].
  destruct (Ascii.eqb c2 ","); [apply IH|].
  destruct (Ascii.eqb c2 "]"); [|done]. intros [= <- _]. by eexists.
Qed.

(** An object starts with an opening brace. *)
Lemma parseValue_object (fuel : nat) (s : string) (members : list (utf16 * json))
    (rest : string) :
  parseValue fuel s = Some (JObject members, rest) → ∃ r, s = String "{" r.
Proof.
  destruct fuel as [|fuel]; [done|]. cbn [parseValue].
  destruct s as [|c r]; [done|].
  destruct (Ascii.eqb c "{") eqn:Hc.
  { apply Ascii.eqb_eq in Hc as ->. by eexists. }
  destruct (Ascii.eqb c "[").
  { destruct (skipWs r) as [|c1 r1]; [done|].
    destruct (Ascii.eqb c1 "]"); [done|].
    by intros (items & [=])%parseElements_array. }
  destruct (Ascii.eqb c dquote).
  { destruct (parseChars r) as [[str rest']|]; [|done]. done. }
  destruct (Ascii.eqb c "t").
  { destruct (keyword "true" (String c r)); [|done]. done. }
  destruct (Ascii.eqb c "f").
  { destruct (keyword "false" (String c r)); [|done]. done. }
  destruct (Ascii.eqb c "n").
  { destruct (keyword "null" (String c r)); [|done]. done. }
  destruct (parseNumber (String c r)) as [[lexeme rest']|]; [|done]. done.
Qed.

Lemma includes_skipWs (s p : string) :
  includes (skipWs s) p = true → includes s p = true.
Proof.
  induction s as [|c s IH]; [done|]. simpl skipWs.
  destruct (isJsonWs c); [|done]. intros H. cbn [includes]. rewrite (IH H).
  apply orb_true_r.
Qed.

(** A text that yields a token from JSON has an opening brace. *)
Lemma fromJson_brace (text : string) (t : utf16) :
  fromJson text = Some t → includes text "{" = true.
Proof.
  unfold fromJson, parse. intros H.
  destruct (parseValue _ (skipWs text)) as [[v rest]|] eqn:Hv; [|done]. cbn in H.
  destruct (skipWs rest); [|done]. destruct v; try done.
  apply parseValue_object in Hv as [r Hr]. apply includes_skipWs. rewrite Hr.
  by rewrite includes_char.
Qed.

Lemma includes_trimStart (s p : string) :
  includes (trimStart s) p = true → includes s p = true.
Proof.
  induction s as [|c s IH]; [done|]. simpl trimStart.
  destruct (isWhiteSpace c); [|done]. intros H. cbn [includes]. rewrite (IH H).
  apply orb_true_r.
Qed.

Lemma includes_trimEnd (s : string) (p : ascii) :
  includes (trimEnd s) (String p EmptyString) = true →
  includes s (String p EmptyString) = true.
Proof.
  induction s as [|c s IH]; [done|]. cbn [trimEnd]. rewrite (includes_char p c s).
  destruct (trimEnd s) as [|x t] eqn:Ht.
  - destruct (isWhiteSpace c); [done|]. rewrite includes_char.
    intros [->|H]%orb_true_iff; [done | done].
  - rewrite includes_char. intros [->|H]%orb_true_iff; [done|].
    rewrite (IH H). apply orb_true_r.
Qed.

Lemma includes_trim (s : string) (p : ascii) :
  includes (trim s) (String p EmptyString) = true →
  includes s (String p EmptyString) = true.
Proof. unfold trim. by intros H%includes_trimEnd%includes_trimStart. Qed.

Lemma elem_of_consHead (c : ascii) (pieces : list string) (l : string) :
  l ∈ consHead c pieces →
  (∃ h, l = String c h ∧ (h = EmptyString ∨ h ∈ pieces)) ∨ l ∈ pieces.
Proof.
  destruct pieces as [|h t]; simpl.
  - intros Hl%list_elem_of_singleton. subst l. left. exists EmptyString.
    by split; [|left].
  - intros [->|Hin]%elem_of_cons; [|right; by right].
    left. exists h. split; [done|]. right. left.
Qed.

(** The pieces of a split hold code units of the text only. *)
Lemma includes_splitLines (s l : string) (p : ascii) :
  l ∈ splitLines s → includes l (String p EmptyString) = true →
  includes s (String p EmptyString) = true.
Proof.
  enough ((∀ l, l ∈ splitLines s → includes l (String p EmptyString) = true →
                includes s (String p EmptyString) = true) ∧
          ∀ c l, l ∈ splitLines (String c s) →
                 includes l (String p EmptyString) = true →
                 includes (String c s) (String p EmptyString) = true) as [H _]
    by apply H.
  clear l. induction s as [|c' s [IH1 IH2]].
  - split; [intros l Hl%list_elem_of_singleton; by subst l|].
    intros c l. rewrite splitLines_cons. destruct (isLF c).
    + intros [->|Hl%list_elem_of_singleton]%elem_of_cons; [done | by subst l].
    + simpl. intros Hl%list_elem_of_singleton. by subst l.
  - split; [apply IH2|]. intros c l. rewrite (splitLines_cons c).
    rewrite (includes_char p c). destruct (isLF c).
    + intros [->|Hin]%elem_of_cons Hl; [done|].
      rewrite (IH2 c' l Hin Hl). apply orb_true_r.
    + destruct (isCR c && isLF c').
      * intros [->|Hin]%elem_of_cons Hl; [done|].
        rewrite (includes_char p c'), (IH1 l Hin Hl). by rewrite !orb_true_r.
      * intros [(h & -> & Hh)|Hin]%elem_of_consHead Hl.
        -- rewrite includes_char in Hl. apply orb_true_iff in Hl as [->|Hl]; [done|].
           destruct Hh as [->|Hh]; [done|].
           rewrite (IH2 c' h Hh Hl). apply orb_true_r.
        -- rewrite (IH2 c' l Hin Hl). apply orb_true_r.
Qed.

Lemma scanCandidates_None (candidates : list string) :
  (∀ l, l ∈ candidates → fromJson l = None) → scanCandidates candidates = None.
Proof.
  induction candidates as [|c cs IH]; [done|]. intros H. simpl.
  rewrite (H c) by left. apply IH. intros l Hl. apply H. by right.
Qed.

Lemma extractToken_plain (raw : string) :
  includes raw "{" = false → extractToken raw = utf16_of <$> last (nonEmptyLines raw).
Proof.
  intros Hraw. unfold extractToken. cbv zeta.
  rewrite scanCandidates_None.
  - destruct (fromJson raw) as [t|] eqn:Ht; [|done].
    apply fromJson_brace in Ht. congruence.
  - intros l Hl. destruct (fromJson l) as [t|] eqn:Ht; [|done].
    apply fromJson_brace in Ht. rewrite rev_alt in Hl.
    apply (proj1 (elem_of_reverse _ _)) in Hl.
    unfold nonEmptyLines in Hl. apply list_elem_of_filter in Hl as [_ Hl].
    apply list_elem_of_fmap in Hl as (piece & -> & Hpiece).
    apply includes_trim in Ht. apply (includes_splitLines raw piece "{" Hpiece) in Ht.
    congruence.
Qed.

(** X15.  An output of the token command without opening brace holds no
    JSON object, and its token is its last line that is not empty,
    without the white space around it, whatever stands before; the token
    of one line of plain text is that line without the white space
    around it. *)
Theorem plain_output_last_line :
  (∀ raw, includes raw "{" = false →
          extractToken raw = utf16_of <$> last (nonEmptyLines raw)) ∧
  (∀ a line,
     includes (a +:+ LF +:+ line) "{" = false → includes line LF = false →
     blank line = false →
     extractToken (a +:+ LF +:+ line) = Some (utf16_of (trim line))) ∧
  (∀ line,
     includes line "{" = false → includes line LF = false → blank line = false →
     extractToken line = Some (utf16_of (trim line))).
Proof.
  assert (∀ line, includes line LF = false → blank line = false →
                  nonEmptyLines line = [trim line]) as Hone.
  { intros line Hlf Hb. unfold nonEmptyLines. rewrite (splitLines_one line Hlf).
    cbn [map]. rewrite filter_cons.
    destruct (decide (truthy (trim line) = true)) as [_|Hempty]; [done|].
    apply not_true_is_false, truthy_false, trim_empty in Hempty. congruence. }
  split; [exact extractToken_plain|]. split.
  - intros a line Hraw Hlf Hb.
    rewrite (extractToken_plain _ Hraw), nonEmptyLines_app, (Hone line Hlf Hb).
    by rewrite last_snoc.
  - intros line Hraw Hlf Hb. by rewrite (extractToken_plain _ Hraw), (Hone line Hlf Hb).
Qed.
End PlainOutput.

(** ** Who raises a health flag *)

Section Health.
Import JsString JsError JSON McpClientPool Spec.
Variable E : Env.

Lemma getStatus_kept (w w' : World) (k : string) :
  kept w w' → getStatus k w' = true → getStatus k w = true.
Proof.
  intros [Hk _]. unfold getStatus. destruct (Hk k) as [keep ->].
  destruct (JsMap.get k (clients w)) as [e|]; [|done]. simpl.
  by intros [? _]%andb_true_iff.
Qed.

(** The trace of a [connect] starts with the new session. *)
Lemma connect_new_session (config : Config.ServerConfig) (options : option ConnectOptions)
    (w : World) :
  ∃ post, trace (connect E config options w).2 =
          trace w ++ EvNewClient (nextClient w) :: post.
Proof.
  destruct (connect_first_events E config options w) as (new & Hn & Hc).
  eexists. rewrite Hc, Hn, <- app_assoc. reflexivity.
Qed.

Lemma retriedOnce_new_session {A} (serverName : string) (options : option ConnectOptions)
    (ev : nat → event) (ask : nat → list event → answer A) (w : World) :
  is_Some (JsMap.get serverName (clients w)) →
  ∃ pre post, trace (retriedOnce E serverName options ev ask w).2 =
              trace w ++ pre ++ EvNewClient (nextClient w) :: post.
Proof.
  intros [e He]. unfold retriedOnce. rewrite reconnect_eq, He. cbv zeta.
  set (w1 := resumed _ _ w).
  destruct (connect_new_session (config e) options w1) as [post Hpost].
  assert (trace w1 = trace w ++ [EvTransportClose (transport e)]) as Hw1
    by apply resumed_trace.
  assert (nextClient w1 = nextClient w) as Hn by apply resumed_nextClient.
  rewrite Hw1, Hn, <- app_assoc in Hpost.
  destruct (connect E (config e) options w1) as [[c|err] w2]; cbn [snd] in Hpost.
  - destruct (JsMap.get serverName (clients w2)) as [refreshed|]; cbn [snd].
    + rewrite resumed_trace, Hpost, <- !app_assoc. by do 2 eexists.
    + rewrite Hpost. by do 2 eexists.
  - cbn [snd]. rewrite Hpost. by do 2 eexists.
Qed.

Lemma withRecovery_raises {A} (serverName : string) (ev : nat → event)
    (ask : nat → list event → answer A) (w : World) (k : string) :
  getStatus k w = false → getStatus k (withRecovery E serverName ev ask w).2 = true →
  ∃ pre post, trace (withRecovery E serverName ev ask w).2 =
              trace w ++ pre ++ EvNewClient (nextClient w) :: post.
Proof.
  intros Hdown. rewrite withRecovery_eq.
  destruct (JsMap.get serverName (clients w)) as [entry|] eqn:Hget; [|cbn; congruence].
  cbv zeta. set (w1 := resumed _ _ w).
  assert (getStatus k w1 = true → False) as Hw1.
  { intros H. apply (getStatus_kept w w1 k) in H; [congruence | apply kept_resumed]. }
  assert (∀ options, ∃ pre post,
            trace (retriedOnce E serverName options ev ask w1).2 =
            trace w ++ pre ++ EvNewClient (nextClient w) :: post) as Hretry.
  { intros options.
    destruct (retriedOnce_new_session serverName options ev ask w1) as (pre & post & H).
    - destruct (resumed_get (ev (client entry)) (fired (ask (client entry) (trace w)))
                  serverName w) as [keep Hkeep].
      fold w1 in Hkeep. rewrite Hkeep, Hget. by eexists.
    - exists (ev (client entry) :: pre), post. rewrite H. subst w1.
      rewrite resumed_trace, resumed_nextClient, <- app_assoc. done. }
  destruct (outcome (ask (client entry) (trace w))) as [err|v]; [|by intros ?%Hw1].
  destruct (_ && _); [intros _; apply Hretry|].
  destruct (_ || _); [intros _; apply Hretry | by intros ?%Hw1].
Qed.

(** X16.  Nothing but a [connect] raises a health flag.  When a server
    is unhealthy, or has no entry, before a call of the pool or the run
    of a hook, and is healthy after it, a new session was made in
    between: the call was a [connect], or a [listTools] or [callTool]
    that failed and went through [reconnect].  In particular a call that
    succeeds at once leaves an unhealthy server unhealthy. *)
Theorem health_raised_by_connect (c : call) (w : World) (k : string) :
  getStatus k w = false → getStatus k (perform E c w) = true →
  ∃ pre post, trace (perform E c w) = trace w ++ pre ++ EvNewClient (nextClient w) :: post.
Proof.
  intros Hdown Hup.
  destruct c as [cfg|serverName|serverName toolName args|serverName| |kind t];
    cbn [perform] in *.
  - destruct (connect_new_session cfg None w) as [post Hpost].
    by exists [], post.
  - rewrite listTools_scheme in *. by apply (withRecovery_raises _ _ _ _ k).
  - rewrite callTool_scheme in *. by apply (withRecovery_raises _ _ _ _ k).
  - exfalso. destruct (close_effect E serverName w) as (w' & Hc & Hgone & _ & _ & Hother & _).
    rewrite Hc in Hup. cbn [snd] in Hup. unfold getStatus in Hup, Hdown.
    destruct (decide (k = serverName)) as [->|Hne]; [by rewrite Hgone in Hup|].
    destruct (Hother k Hne) as [keep Hkeep]. rewrite Hkeep in Hup.
    destruct (JsMap.get k (clients w)) as [e|]; [|done]. simpl in Hup.
    apply andb_true_iff in Hup as [? _]. congruence.
  - exfalso. destruct (closeAll_effect E w) as (w' & new & Hc & Hnil & _).
    rewrite Hc in Hup. cbn [snd] in Hup. unfold getStatus in Hup. by rewrite Hnil in Hup.
  - exfalso. apply (getStatus_kept w _ k) in Hup; [congruence | apply kept_fireHook].
Qed.
End Health.

(** ** [parseConfig] *)

Section ParseConfigFacts.
Import JsString JsValue ParseConfig.
Variable R : Numbers.
Variable getenv : string → option string.

Lemma andThen_inr {A B} (x : failure + A) (k : A → failure + B) (b : B) :
  andThen x k = inr b → ∃ a, x = inr a ∧ k a = inr b.
Proof. destruct x as [e|a]; [done|]. intros H. by exists a. Qed.

Lemma traverse_inr {A B} (f : A → failure + B) (l : list A) (ys : list B) :
  traverse f l = inr ys → Forall2 (fun x y => f x = inr y) l ys.
Proof.
  revert ys. induction l as [|x l IH]; intros ys; simpl.
  - intros [= <-]. constructor.
  - intros (y & Hy & (ys' & Hys & [= <-])%andThen_inr)%andThen_inr.
    constructor; [done | by apply IH].
Qed.

Lemma traverse_all {A B} (f : A → failure + B) (l : list A) (ys : list B) :
  Forall2 (fun x y => f x = inr y) l ys → traverse f l = inr ys.
Proof. induction 1 as [|x y l ys Hxy _ IH]; [done|]. simpl. by rewrite Hxy, IH. Qed.

(** The first element that fails decides. *)
Lemma traverse_inl {A B} (f : A → failure + B) (before after : list A) (item : A)
    (e : failure) :
  Forall (fun x => ∃ y, f x = inr y) before → f item = inl e →
  traverse f (before ++ item :: after) = inl e.
Proof.
  intros Hb He. induction Hb as [|x before [y Hy] _ IH]; simpl.
  - by rewrite He.
  - by rewrite Hy, IH.
Qed.

Lemma textIfTruthy_inr (v : value R) (o : option string) :
  textIfTruthy R v = inr o →
  (truthy v = true ∧ ∃ t, o = Some t ∧ String_of v = Some t) ∨
  (truthy v = false ∧ o = None).
Proof.
  unfold textIfTruthy. destruct (truthy v); [|intros [= <-]; by right].
  destruct (String_of v) as [t|]; [|done]. intros [= <-]. left. split; [done|].
  by exists t.
Qed.

(** What [parseConfig] has checked of a server it lets through. *)
Lemma serverOf_checked (s : value R) (p : ParsedServer R) :
  serverOf R getenv s = inr p → checked p.
Proof.
  unfold serverOf. destruct (negb (truthy (prop "name" s))); [done|]. cbv zeta.
  set (tr := orElse (prop "transport" s) (VString "stdio")).
  destruct (isString tr "stdio" && negb (truthy (prop "command" s))) eqn:Hstdio.
  { by intros (? & ? & ?)%andThen_inr. }
  destruct (isString tr "http" && negb (truthy (prop "url" s))) eqn:Hhttp.
  { by intros (? & ? & ?)%andThen_inr. }
  intros (atc & Hatc & H)%andThen_inr.
  apply andThen_inr in H as (ata & Hata & H).
  apply andThen_inr in H as (atra & Hatra & H).
  apply andThen_inr in H as (ath & Hath & H).
  apply andThen_inr in H as (atp & Hatp & H).
  apply andThen_inr in H as (attl & Hattl & H).
  destruct ((bool_decide (is_Some ata) || bool_decide (is_Some atra) ||
             from_option JsString.truthy false ath ||
             from_option JsString.truthy false atp ||
             bool_decide (is_Some attl)) &&
            negb (from_option JsString.truthy false atc)) eqn:Hauth.
  { by apply andThen_inr in H as (? & ? & ?). }
  apply andThen_inr in H as (nm & Hnm & H).
  apply andThen_inr in H as (cmd & Hcmd & H).
  apply andThen_inr in H as (ar & Har & H).
  apply andThen_inr in H as (en & Hen & H).
  apply andThen_inr in H as (ur & Hur & H).
  apply andThen_inr in H as (hd & Hhd & H).
  injection H as <-. unfold checked, hasAuthSettings. cbn.
  split; [|split].
  - intros Htr. rewrite Htr in Hstdio. cbn in Hstdio.
    apply negb_false_iff in Hstdio.
    apply textIfTruthy_inr in Hcmd as [(_ & t & -> & _)|[Hf _]]; [by eexists | congruence].
  - intros Htr. rewrite Htr in Hhttp. cbn in Hhttp.
    apply negb_false_iff in Hhttp.
    apply andThen_inr in Hur as (text & Htext & [= <-]).
    apply textIfTruthy_inr in Htext as [(_ & t & -> & _)|[Hf _]]; [by eexists | congruence].
  - intros Hsettings.
    assert (bool_decide (is_Some ata) || bool_decide (is_Some atra) ||
            from_option JsString.truthy false ath ||
            from_option JsString.truthy false atp ||
            bool_decide (is_Some attl) = true) as Hany.
    { destruct Hsettings as [Hs|[Hs|[(h & -> & Hh)|[(x & -> & Hx)|Hs]]]].
      - by rewrite (bool_decide_eq_true_2 _ Hs).
      - rewrite (bool_decide_eq_true_2 _ Hs). by rewrite orb_true_r.
      - cbn. apply truthy_true in Hh. rewrite Hh. by rewrite !orb_true_r.
      - cbn. apply truthy_true in Hx. rewrite Hx. by rewrite !orb_true_r.
      - rewrite (bool_decide_eq_true_2 _ Hs). by rewrite !orb_true_r. }
    rewrite Hany in Hauth. cbn in Hauth. apply negb_false_iff in Hauth.
    destruct atc as [c|]; [|done]. exists c. split; [done|]. by apply truthy_true.
Qed.

Lemma parseServer_inr (s : value R) (p : ParsedServer R) :
  parseServer R getenv s = inr p → serverOf R getenv s = inr p.
Proof. by destruct s. Qed.

(** X17.  Every server of a configuration that [parseConfig] returns
    has passed its checks: with the transport [stdio], the default, it
    has a command; with the transport [http] it has a URL; and with any
    of the [authToken*] settings, an empty header or prefix not
    counting, it has a token command that is not empty.  The servers
    come out one for one in the order of the configuration. *)
Theorem parseConfig_checked (raw : value R) (servers : list (ParsedServer R))
    (toolPrefix : bool) :
  parseConfig R getenv raw = inr (servers, toolPrefix) →
  Forall checked servers ∧
  ∃ items,
    Forall2 (fun item p => parseServer R getenv item = inr p) items servers ∧
    match prop "servers" (orElse raw (VObject [])) with
    | VUndefined | VNull => items = []
    | given => iterate given = Some items
    end.
Proof.
  unfold parseConfig. cbv zeta.
  intros (items & Hitems & (ps & Hps & [= <- _])%andThen_inr)%andThen_inr.
  apply traverse_inr in Hps. split.
  - apply Forall_forall. intros p Hp.
    apply list_elem_of_lookup in Hp as [i Hi].
    destruct (Forall2_lookup_r _ _ _ _ _ Hps Hi) as (item & _ & Hitem).
    by apply (serverOf_checked item), parseServer_inr.
  - exists items. split; [done|].
    destruct (prop "servers" (orElse raw (VObject []))) eqn:Hservers;
      try (injection Hitems as <-; done);
      by destruct (iterate _) as [l|]; [injection Hitems as <-|].
Qed.

(** X18.  Without servers, [parseConfig] returns no server; the flag
    [toolPrefix] is off for the boolean [false] and on for everything
    else, also when it is absent; a [servers] that is a boolean, a
    number or an object is a [TypeError]; and the first element of [servers]
    that fails decides: its error is the error of [parseConfig], and
    nothing is returned of the elements before it. *)
Theorem parseConfig_outline :
  (∀ raw, orElse (prop "servers" (orElse raw (VObject []))) (VArray []) = VArray [] →
          ∃ toolPrefix, parseConfig R getenv raw = inr ([], toolPrefix)) ∧
  parseConfig R getenv VUndefined = inr ([], true) ∧
  parseConfig R getenv VNull = inr ([], true) ∧
  (∀ raw servers toolPrefix,
     parseConfig R getenv raw = inr (servers, toolPrefix) →
     (toolPrefix = false ↔ prop "toolPrefix" (orElse raw (VObject [])) = VBool false)) ∧
  (∀ raw given,
     prop "servers" (orElse raw (VObject [])) = given →
     (∃ b, given = VBool b) ∨ (∃ n, given = VNumber n) ∨ (∃ props, given = VObject props) →
     parseConfig R getenv raw = inl TypeError) ∧
  (∀ raw before item after e,
     prop "servers" (orElse raw (VObject [])) = VArray (before ++ item :: after) →
     Forall (fun x => ∃ p, parseServer R getenv x = inr p) before →
     parseServer R getenv item = inl e →
     parseConfig R getenv raw = inl e).
Proof.
  split; [|split; [done|split; [done|split; [|split]]]].
  - intros raw Hnone. unfold parseConfig. cbv zeta.
    destruct (prop "servers" (orElse raw (VObject []))); try done; try by eexists.
    injection Hnone as ->. by eexists.
  - intros raw servers toolPrefix. unfold parseConfig. cbv zeta.
    intros (items & _ & (ps & _ & [= _ <-])%andThen_inr)%andThen_inr.
    by destruct (prop "toolPrefix" (orElse raw (VObject []))) as [| |[]| | | |].
  - intros raw given Hservers Hgiven. unfold parseConfig. cbv zeta.
    rewrite Hservers. by destruct Hgiven as [[b ->]|[[n ->]|[props ->]]].
  - intros raw before item after e Hservers Hbefore Hitem.
    unfold parseConfig. cbv zeta. rewrite Hservers. cbn [iterate orTypeError andThen].
    by rewrite (traverse_inl _ before after item e Hbefore Hitem).
Qed.

(** *** Data of the declared types *)

Lemma traverse_texts (items : list (value R)) :
  Forall isText items →
  ∃ texts,
    traverse (fun v => andThen (orTypeError (String_of v))
                         (fun text => inr (Interpolation.interpolateString getenv text)))
      items = inr texts.
Proof.
  induction 1 as [|v items [s ->] _ [texts IH]]; [by eexists|].
  simpl. rewrite IH. by eexists.
Qed.

Lemma interpolateArray_declared (v : value R) :
  optional isTexts v → ∃ o, interpolateArray R getenv v = inr o.
Proof.
  intros [->|(items & -> & Hitems)]; [by eexists|].
  destruct (traverse_texts items Hitems) as [texts Htexts].
  unfold interpolateArray. rewrite Htexts. by eexists.
Qed.

Lemma Forall_ownProperties (P : string * value R → Prop) (props : list (string * value R)) :
  Forall P props → Forall P (ownProperties props).
Proof.
  induction 1 as [|[k v] props Hp _ IH]; [constructor|]. simpl.
  destruct (hasOwn k props); [done | by constructor].
Qed.

Lemma assignAll_texts (es : list (string * value R)) (result : gmap string string) :
  Forall (fun p => isText p.2) es → ∃ m, assignAll R getenv es result = inr m.
Proof.
  intros Hes. revert result. induction Hes as [|[k v] es [s Hs] _ IH]; intros result.
  - by eexists.
  - simpl in Hs. subst v. simpl. apply IH.
Qed.

Lemma envIfTruthy_declared (v : value R) :
  optional isRecord v → ∃ o, envIfTruthy R getenv v = inr o.
Proof.
  intros [->|(props & -> & Hprops)]; [by eexists|].
  unfold envIfTruthy, interpolateEnv. cbn [truthy entries].
  destruct (assignAll_texts (ownProperties props) ∅) as [m Hm];
    [by apply Forall_ownProperties|].
  rewrite Hm. by eexists.
Qed.

Lemma textIfTruthy_declared (v : value R) :
  optional isText v →
  ∃ o, textIfTruthy R v = inr o ∧ o ≠ Some EmptyString ∧
       (truthy v = true → is_Some o).
Proof.
  intros [->|[s ->]]; [by exists None|].
  unfold textIfTruthy. cbn. destruct s as [|c s].
  - by exists None.
  - exists (Some (String c s)). split; [done|]. split; [done|]. by eexists.
Qed.

Lemma ttlOf_declared (v : value R) : optional isNumber v → ∃ o, ttlOf R v = inr o.
Proof. intros [->|[n ->]]; by eexists. Qed.

(** A server of the declared types is let through or refused with one
    of the four errors of [parseConfig]. *)
Lemma serverOf_declared (s : value R) :
  declared s →
  (∃ message, serverOf R getenv s = inl (ConfigError message)) ∨
  (∃ p, serverOf R getenv s = inr p ∧ noEmptyText p).
Proof.
  intros (_ & [nm Hname] & Htr & Hcmd & Hargs & Henv & Hurl & Hheaders & Hatc & Hata &
          Hatra & Hath & Hatp & Hattl).
  unfold serverOf. rewrite Hname. cbn [truthy String_of orTypeError andThen].
  destruct (JsString.truthy nm) eqn:Hnm; cbn [negb]; [|left; by eexists].
  cbv zeta. destruct (isString _ "stdio" && _); [left; by eexists|].
  destruct (isString _ "http" && _); [left; by eexists|].
  destruct (textIfTruthy_declared _ Hatc) as (atc & -> & Hatc' & _).
  destruct (interpolateArray_declared _ Hata) as (ata & ->).
  destruct (interpolateArray_declared _ Hatra) as (atra & ->).
  destruct (textIfTruthy_declared _ Hath) as (ath & -> & Hath' & _).
  destruct (textIfTruthy_declared _ Hatp) as (atp & -> & Hatp' & _).
  destruct (ttlOf_declared _ Hattl) as (attl & ->).
  cbn [andThen].
  destruct (_ && _); [left; by eexists|].
  destruct (textIfTruthy_declared _ Hcmd) as (cmd & -> & Hcmd' & _).
  destruct (interpolateArray_declared _ Hargs) as (ar & ->).
  destruct (envIfTruthy_declared _ Henv) as (en & ->).
  destruct (textIfTruthy_declared _ Hurl) as (ur & -> & _).
  destruct (envIfTruthy_declared _ Hheaders) as (hd & ->).
  cbn [andThen]. right. eexists. split; [reflexivity|].
  unfold noEmptyText. cbn. split; [by apply truthy_true|]. done.
Qed.

(** X19.  On a configuration whose servers are objects with properties
    of the types that the interface declares, [parseConfig] throws no
    [TypeError]: it throws one of its four own errors or returns; and
    then no server has an empty name, command, token command, header or
    prefix: a text configured empty is a text not configured. *)
Theorem parseConfig_declared (raw : value R) (items : list (value R)) :
  prop "servers" (orElse raw (VObject [])) = VArray items →
  Forall declared items →
  (∃ message, parseConfig R getenv raw = inl (ConfigError message)) ∨
  (∃ servers toolPrefix,
     parseConfig R getenv raw = inr (servers, toolPrefix) ∧
     Forall noEmptyText servers ∧ Forall checked servers).
Proof.
  intros Hservers Hitems. unfold parseConfig. cbv zeta. rewrite Hservers.
  cbn [iterate orTypeError andThen].
  assert ((∃ message, traverse (parseServer R getenv) items = inl (ConfigError message)) ∨
          (∃ servers, traverse (parseServer R getenv) items = inr servers ∧
                      Forall noEmptyText servers ∧ Forall checked servers)) as Hall.
  { clear Hservers. induction Hitems as [|s items Hs _ IH].
    - right. exists []. by split; [|split; constructor].
    - simpl.
      assert (parseServer R getenv s = serverOf R getenv s) as ->
        by by destruct Hs as ([props ->] & _).
      destruct (serverOf_declared s Hs) as [[message Hm]|(p & Hp & Hne)].
      + left. exists message. by rewrite Hm.
      + rewrite Hp. cbn [andThen]. destruct IH as [[message Hm]|(ps & Hps & Hne' & Hch)].
        * left. exists message. by rewrite Hm.
        * right. exists (p :: ps). rewrite Hps. split; [done|].
          split; constructor; try done. by apply (serverOf_checked s). }
  destruct Hall as [[message Hm]|(ps & Hps & Hne & Hch)].
  - left. exists message. by rewrite Hm.
  - right. rewrite Hps. by eexists _, _.
Qed.
(** *** What the fields of a server hold *)

Lemma hasOwn_getOwn (key : string) (props : list (string * value R)) :
  hasOwn key props = true → is_Some (getOwn key props).
Proof.
  induction props as [|[k v] props IH]; [done|]. cbn [hasOwn existsb fst getOwn].
  destruct (getOwn key props) as [v'|]; [by eexists|].
  destruct (String.eqb k key); [by eexists|]. cbn [orb]. intros H.
  by destruct (IH H).
Qed.

Lemma getOwn_ownProperties (key : string) (props : list (string * value R)) :
  getOwn key (ownProperties props) = getOwn key props.
Proof.
  induction props as [|[k v] props IH]; [done|]. cbn [ownProperties getOwn].
  destruct (hasOwn k props) eqn:Hk.
  - rewrite IH. destruct (getOwn key props) as [v'|] eqn:Hget; [done|].
    destruct (String.eqb k key) eqn:Hkey; [|done].
    apply String.eqb_eq in Hkey as ->. apply hasOwn_getOwn in Hk as [? ?]. congruence.
  - cbn [getOwn]. by rewrite IH.
Qed.

(** The loop of [interpolateEnv] ends well on texts only, and its result
    holds for each key the text of the last property of that name,
    interpolated. *)
Lemma assignAll_inr (es : list (string * value R)) (result m : gmap string string) :
  assignAll R getenv es result = inr m →
  m !! "__proto__" = result !! "__proto__" ∧
  ∀ k, k ≠ "__proto__" →
       match getOwn k es with
       | Some v => ∃ x, v = VString x ∧
                        m !! k = Some (Interpolation.interpolateString getenv x)
       | None => m !! k = result !! k
       end.
Proof.
  revert result. induction es as [|[k0 v] es IH]; intros result.
  - intros [= <-]. by split.
  - cbn [assignAll]. destruct v as [| | | |s| |]; try done.
    intros [Hproto Hkeys]%IH. split.
    + rewrite Hproto. destruct (String.eqb k0 "__proto__") eqn:Hk0; [done|].
      apply String.eqb_neq in Hk0. by rewrite lookup_insert_ne.
    + intros k Hk. specialize (Hkeys k Hk). cbn [getOwn].
      destruct (getOwn k es) as [v'|]; [done|]. rewrite Hkeys.
      destruct (String.eqb k0 k) eqn:Hk0k.
      * apply String.eqb_eq in Hk0k as ->. exists s. split; [done|].
        apply String.eqb_neq in Hk. rewrite Hk. by rewrite lookup_insert_eq.
      * apply String.eqb_neq in Hk0k.
        destruct (String.eqb k0 "__proto__"); [done | by rewrite lookup_insert_ne].
Qed.

Lemma envIfTruthy_object (props : list (string * value R))
    (o : option (gmap string string)) :
  envIfTruthy R getenv (VObject props) = inr o →
  ∃ m, o = Some m ∧ interpolated getenv props m.
Proof.
  unfold envIfTruthy, interpolateEnv. cbn [truthy entries].
  intros (m & [Hproto Hkeys]%assignAll_inr & [= <-])%andThen_inr.
  exists m. split; [done|]. split; [done|]. intros k Hk. specialize (Hkeys k Hk).
  by rewrite getOwn_ownProperties in Hkeys.
Qed.

Lemma interpolateArray_texts (texts : list string) :
  interpolateArray R getenv (VArray (VString <$> texts)) =
  inr (Some (Interpolation.interpolateString getenv <$> texts)).
Proof.
  unfold interpolateArray.
  rewrite (traverse_all _ _ (Interpolation.interpolateString getenv <$> texts)); [done|].
  induction texts as [|t texts IH]; by constructor.
Qed.

(** The steps that a server has passed when [parseConfig] returns it. *)
Lemma serverOf_inr (s : value R) (p : ParsedServer R) :
  serverOf R getenv s = inr p →
  String_of (prop "name" s) = Some (name p) ∧
  transport p = orElse (prop "transport" s) (VString "stdio") ∧
  textIfTruthy R (prop "command" s) = inr (command p) ∧
  interpolateArray R getenv (prop "args" s) = inr (args p) ∧
  envIfTruthy R getenv (prop "env" s) = inr (env p) ∧
  (∃ text, textIfTruthy R (prop "url" s) = inr text ∧
           url p = Interpolation.interpolateString getenv <$> text) ∧
  envIfTruthy R getenv (prop "headers" s) = inr (headers p) ∧
  textIfTruthy R (prop "authTokenCommand" s) = inr (authTokenCommand p) ∧
  interpolateArray R getenv (prop "authTokenArgs" s) = inr (authTokenArgs p) ∧
  interpolateArray R getenv (prop "authTokenRefreshArgs" s) =
    inr (authTokenRefreshArgs p) ∧
  textIfTruthy R (prop "authTokenHeader" s) = inr (authTokenHeader p) ∧
  textIfTruthy R (prop "authTokenPrefix" s) = inr (authTokenPrefix p) ∧
  ttlOf R (prop "authTokenTtlSeconds" s) = inr (authTokenTtlSeconds p).
Proof.
  unfold serverOf. destruct (negb (truthy (prop "name" s))); [done|]. cbv zeta.
  destruct (isString _ "stdio" && _).
  { by intros (? & ? & ?)%andThen_inr. }
  destruct (isString _ "http" && _).
  { by intros (? & ? & ?)%andThen_inr. }
  intros (atc & Hatc & H)%andThen_inr.
  apply andThen_inr in H as (ata & Hata & H).
  apply andThen_inr in H as (atra & Hatra & H).
  apply andThen_inr in H as (ath & Hath & H).
  apply andThen_inr in H as (atp & Hatp & H).
  apply andThen_inr in H as (attl & Hattl & H).
  destruct (_ && _).
  { by apply andThen_inr in H as (? & ? & ?). }
  apply andThen_inr in H as (nm & Hnm & H).
  apply andThen_inr in H as (cmd & Hcmd & H).
  apply andThen_inr in H as (ar & Har & H).
  apply andThen_inr in H as (en & Hen & H).
  apply andThen_inr in H as (ur & Hur & H).
  apply andThen_inr in H as (hd & Hhd & H).
  apply andThen_inr in Hur as (text & Htext & [= <-]).
  injection H as <-. cbn.
  destruct (String_of (prop "name" s)) as [nm'|]; [|done]. injection Hnm as ->.
  repeat split; try done. by exists text.
Qed.

(** X20.  What [parseConfig] puts into the fields of a server it
    returns.  The name, the command and the token command are the
    texts of the configuration as they stand: no placeholder is replaced
    in them.  The URL and the elements of [args] are interpolated.  The
    [env] of an object has texts only, and holds for every name but
    [__proto__] the text of the last property of that name,
    interpolated; so have the [headers].  The transport is what the
    configuration says, and [stdio] when it says nothing. *)
Theorem parseServer_fields (s : value R) (p : ParsedServer R) :
  parseServer R getenv s = inr p →
  String_of (prop "name" s) = Some (name p) ∧
  transport p = orElse (prop "transport" s) (VString "stdio") ∧
  (∀ c, prop "command" s = VString c →
        command p = if JsString.truthy c then Some c else None) ∧
  (∀ c, prop "authTokenCommand" s = VString c →
        authTokenCommand p = if JsString.truthy c then Some c else None) ∧
  (∀ u, prop "url" s = VString u →
        url p = if JsString.truthy u
                then Some (Interpolation.interpolateString getenv u) else None) ∧
  (∀ texts, prop "args" s = VArray (VString <$> texts) →
            args p = Some (Interpolation.interpolateString getenv <$> texts)) ∧
  (∀ props, prop "env" s = VObject props →
            ∃ m, env p = Some m ∧ interpolated getenv props m) ∧
  (∀ props, prop "headers" s = VObject props →
            ∃ m, headers p = Some m ∧ interpolated getenv props m).
Proof.
  intros (Hname & Htr & Hcmd & Hargs & Henv & (text & Htext & Hurl) & Hheaders & Hatc & _)
    %parseServer_inr%serverOf_inr.
  split; [done|]. split; [done|]. split; [|split; [|split; [|split; [|split]]]].
  - intros c Hc. rewrite Hc in Hcmd. unfold textIfTruthy in Hcmd. cbn in Hcmd.
    destruct (JsString.truthy c); by injection Hcmd as <-.
  - intros c Hc. rewrite Hc in Hatc. unfold textIfTruthy in Hatc. cbn in Hatc.
    destruct (JsString.truthy c); by injection Hatc as <-.
  - intros u Hu. rewrite Hu in Htext. unfold textIfTruthy in Htext. cbn in Htext.
    rewrite Hurl. destruct (JsString.truthy u); by injection Htext as <-.
  - intros texts Ht. rewrite Ht, interpolateArray_texts in Hargs. by injection Hargs as <-.
  - intros props Hp. rewrite Hp in Henv. by apply envIfTruthy_object.
  - intros props Hp. rewrite Hp in Hheaders. by apply envIfTruthy_object.
Qed.

(** X21.  [parseConfig] does not check the transport.  A server with
    a name, a transport that is a text other than [stdio] and [http],
    and no other setting is returned as it is, without command and
    without URL. *)
Theorem transport_unchecked (s : value R) (name transport : string) :
  prop "name" s = VString name → name ≠ EmptyString →
  prop "transport" s = VString transport →
  transport ≠ "stdio" → transport ≠ "http" →
  (∀ key, key ∈ ["command"; "args"; "env"; "url"; "headers"; "authTokenCommand";
                 "authTokenArgs"; "authTokenRefreshArgs"; "authTokenHeader";
                 "authTokenPrefix"; "authTokenTtlSeconds"] →
          prop key s = VUndefined) →
  parseServer R getenv s =
  inr {| ParseConfig.name := name; ParseConfig.transport := VString transport;
         command := None; args := None; env := None; url := None; headers := None;
         authTokenCommand := None; authTokenArgs := None;
         authTokenRefreshArgs := None; authTokenHeader := None;
         authTokenPrefix := None; authTokenTtlSeconds := None |}.
Proof.
  intros Hname Hne Htr Hstdio Hhttp Hrest.
  assert (parseServer R getenv s = serverOf R getenv s) as ->.
  { destruct s; try done. }
  unfold serverOf. rewrite Hname, Htr. cbn [truthy orElse isString].
  apply truthy_true in Hne. rewrite Hne. cbn [negb].
  apply String.eqb_neq in Hstdio, Hhttp. rewrite Hstdio, Hhttp. cbn [andb].
  rewrite !Hrest by (repeat first [by left | right]).
  reflexivity.
Qed.
End ParseConfigFacts.

(** ** The properties at work on the sample servers *)

Section Witnesses.
Import JsString JsError JSON McpClientPool Spec Examples.

Lemma run_eq {A} (m : M A) (w : World) (r : completion A) :
  (m w).1 = r → m w = (r, (m w).2).
Proof. intros <-. by destruct (m w). Qed.


(** C2, as it is stated, fails.  The first attempt to reach the remote
    server is rejected with a 401.  The code then builds a transport with
    the refresh forced and tries again over the session it has: it
    returns the first session of the store, and has made one session.  A
    [connect] run again as a whole makes a session of its own, returns
    that second one, and has made two. *)
Lemma connect_keeps_its_session :
  (connect rejectedOnce remoteServer None emptyPool).1 = Return 0%nat ∧
  tally isNewClient (trace (connect rejectedOnce remoteServer None emptyPool).2) = 1%nat ∧
  (connect_stated rejectedOnce remoteServer None emptyPool).1 = Return 1%nat ∧
  tally isNewClient (trace (connect_stated rejectedOnce remoteServer None emptyPool).2)
    = 2%nat.
Proof. repeat split; vm_compute; reflexivity. Qed.

(** The first attempt to reach the remote server is rejected with a 401:
    the second attempt, over a transport built with the refresh forced,
    establishes the session. *)
Lemma connect_retry_policy_witness :
  ∃ w5, connect rejectedOnce remoteServer None emptyPool
        = (Return 0%nat, installed remoteServer 0 1 w5) ∧
        tally isClientConnect (trace w5) = 2%nat ∧
        tally isExecFile (trace w5) = 2%nat.
Proof.
  pose proof (connect_retry_policy rejectedOnce remoteServer None emptyPool) as H.
  cbv zeta in H. destruct H as (_ & _ & _ & H & _).
  specialize (H 0%nat
                (createTransport rejectedOnce remoteServer None (newClient emptyPool).2).2).
  destruct H as (_ & _ & H); [apply run_eq; vm_compute; reflexivity|].
  specialize (H unauthorized).
  destruct H as (_ & _ & H); [vm_compute; reflexivity..|].
  match type of H with
  | ∀ t1 w4, createTransport ?E ?c ?o ?w3 = _ → _ =>
      specialize (H 1%nat (createTransport E c o w3).2)
  end.
  destruct H as (H & _); [apply run_eq; vm_compute; reflexivity|].
  eexists. split; [apply H; vm_compute; reflexivity|].
  split; vm_compute; reflexivity.
Defined.



(** Two servers, and the [close] of the transport of the first one
    throws: [closeAll] returns and the registry is empty. *)
Lemma close_never_throws_witness :
  JsMap.keys (clients (twoServers stuckClose)) = ["local"; "open"] ∧
  outcome (transport_close stuckClose [] 0) = inl (newError "close failed") ∧
  ∃ w' new, closeAll stuckClose (twoServers stuckClose) = (Return tt, w') ∧
        clients w' = [] ∧
        trace w' = trace (twoServers stuckClose) ++ new ∧
        ∀ k entry, JsMap.get k (clients (twoServers stuckClose)) = Some entry →
                   EvTransportClose (transport entry) ∈ new.
Proof.
  split; [vm_compute; reflexivity|]. split; [vm_compute; reflexivity|].
  exact (proj2 (close_never_throws stuckClose) (twoServers stuckClose)).
Defined.

(** The local server is healthy after its [connect], and not any more
    once a hook of its transport has run. *)
Lemma status_reporting_witness :
  ∃ entry,
    JsMap.get "local" (clients (localPool calm)) = Some entry ∧
    getStatus "local" (localPool calm) = true ∧
    ∀ kind, getStatus "local" (fireHook (kind, transport entry) (localPool calm)) = false.
Proof.
  apply (proj2 (proj2 status_reporting) calm localServer None emptyPool 0%nat).
  - reflexivity.
  - apply run_eq. vm_compute; reflexivity.
Defined.



(** A 401 on the open server, which has no token command, is handed to
    the caller: no reconnect, no second call. *)
Lemma no_forced_refresh_without_auth_witness :
  (let w1 := resumed (EvClientListTools 1)
               (fired (client_listTools expiredOnce (trace (twoServers expiredOnce)) 1))
               (twoServers expiredOnce) in
   listTools expiredOnce "open" (twoServers expiredOnce) =
   if negb (getStatus "open" w1) || isConnectionError unauthorized
   then retriedOnce expiredOnce "open" None EvClientListTools
          (fun c tr => client_listTools expiredOnce tr c) w1
   else (Throw unauthorized, w1)) ∧
  (listTools expiredOnce "open" (twoServers expiredOnce)).1 = Throw unauthorized ∧
  tally isOperation (trace (listTools expiredOnce "open" (twoServers expiredOnce)).2)
    = 1%nat.
Proof.
  split; [|split; vm_compute; reflexivity].
  refine (proj1 (proj2 (no_forced_refresh_without_auth expiredOnce []
                          (twoServers expiredOnce)))
            "open"
            {| config := openServer; client := 1; transport := 1; connected := true |}
            unauthorized _ _ _).
  - vm_compute; reflexivity.
  - reflexivity.
  - vm_compute; reflexivity.
Defined.
End Witnesses.

(** ** More of the sample servers *)

Section MoreWitnesses.
Import JsString JsError JSON McpClientPool Spec Examples Interpolation.

(** The placeholder of the host in a URL; and a placeholder with a name
    that is no variable but inherited, which gives the text of the
    function. *)
Lemma interpolateString_placeholders_witness :
  interpolateString hostOnly ("https://" +:+ "${" +:+ "HOST" +:+ "}" +:+ "/mcp") =
  "https://" +:+ default EmptyString (hostOnly "HOST") +:+ interpolateString hostOnly "/mcp" ∧
  interpolateString hostOnly ("v=" +:+ "${" +:+ "toString" +:+ "}" +:+ EmptyString) =
  "v=" +:+ default EmptyString (hostOnly "toString") +:+
  interpolateString hostOnly EmptyString ∧
  hostOnly "toString" = Some "function toString() { [native code] }" ∧
  hostOnly "HOME" = None.
Proof.
  split; [|split; [|split; reflexivity]].
  - apply (proj1 (interpolateString_placeholders hostOnly));
      [reflexivity | done | reflexivity].
  - apply (proj1 (interpolateString_placeholders hostOnly));
      [reflexivity | done | reflexivity].
Defined.

(** An object of two plain variables comes back as it is. *)
Lemma interpolateEnv_entries_witness :
  interpolateEnv hostOnly {["PATH" := "/usr/bin"]} = {["PATH" := "/usr/bin"]}.
Proof.
  apply (proj2 (interpolateEnv_entries hostOnly)); [reflexivity|].
  intros k v [_ <-]%lookup_singleton_Some. reflexivity.
Defined.

(** A progress line before the JSON line does not matter. *)
Lemma final_lines_decide_witness :
  extractToken ("Fetching token..." +:+ LF +:+ tokenLine) = Some (utf16_of "xyz").
Proof.
  apply (proj2 (proj2 final_lines_decide)); vm_compute; reflexivity.
Defined.

(** A plain token after a progress line. *)
Lemma plain_output_last_line_witness :
  extractToken ("Fetching token..." +:+ LF +:+ "  tok-123 ") = Some (utf16_of (trim "  tok-123 ")).
Proof.
  apply (proj1 (proj2 plain_output_last_line)); vm_compute; reflexivity.
Defined.

(** The close hook of the transport of the local server. *)
Lemma hooks_of_entries_witness :
  JsMap.get "local" (clients (performAll calm [CallConnect localServer] emptyPool)) =
    Some {| config := localServer; client := 0; transport := 0; connected := true |} ∧
  getStatus "local"
    (fireHook (OnClose, 0%nat) (performAll calm [CallConnect localServer] emptyPool))
  = false.
Proof.
  split; [vm_compute; reflexivity|].
  apply (hooks_of_entries calm [CallConnect localServer] "local"
           {| config := localServer; client := 0; transport := 0; connected := true |}
           OnClose).
  vm_compute; reflexivity.
Defined.

(** The local server is reconnected; the close hook of its first
    transport then runs. *)
Lemma stale_hook_after_reconnect_witness :
  getStatus "local" (reconnect calm "local" None (localPool calm)).2 = true ∧
  (∃ entry', JsMap.get "local" (clients (reconnect calm "local" None (localPool calm)).2)
             = Some entry' ∧
             transport entry' ≠
             transport {| config := localServer; client := 0; transport := 0;
                          connected := true |}) ∧
  getStatus "local"
    (fireHook (OnClose,
               transport {| config := localServer; client := 0; transport := 0;
                            connected := true |})
       (reconnect calm "local" None (localPool calm)).2) = false.
Proof.
  apply (stale_hook_after_reconnect calm "local" None (localPool calm)).
  - apply sound_connect, sound_emptyPool.
  - vm_compute; reflexivity.
  - reflexivity.
  - apply run_eq. vm_compute; reflexivity.
Defined.

(** A rejected [listTools] on the remote server, with the local server
    in the pool. *)
Lemma calls_confined_witness :
  JsMap.keys (clients (connect expiredOnce remoteServer None (localPool expiredOnce)).2) =
    ["local"; "remote"] ∧
  (confinedTo expiredOnce
     {| config := remoteServer; client := 1; transport := 1; connected := true |}
     (connect expiredOnce remoteServer None (localPool expiredOnce)).2
     (listTools expiredOnce "remote"
        (connect expiredOnce remoteServer None (localPool expiredOnce)).2).2 ∧
   (∀ toolName args,
      confinedTo expiredOnce
        {| config := remoteServer; client := 1; transport := 1; connected := true |}
        (connect expiredOnce remoteServer None (localPool expiredOnce)).2
        (callTool expiredOnce "remote" toolName args
           (connect expiredOnce remoteServer None (localPool expiredOnce)).2).2) ∧
   (∀ k o ev, k ≠ "remote" →
      JsMap.get k (clients (connect expiredOnce remoteServer None
                              (localPool expiredOnce)).2) = Some o →
      recoveryEvent expiredOnce
        {| config := remoteServer; client := 1; transport := 1; connected := true |}
        (nextClient (connect expiredOnce remoteServer None (localPool expiredOnce)).2)
        (length (transports (connect expiredOnce remoteServer None
                               (localPool expiredOnce)).2)) ev →
      ¬ uses o ev)).
Proof.
  split; [vm_compute; reflexivity|].
  apply (calls_confined expiredOnce "remote").
  - apply sound_connect, sound_connect, sound_emptyPool.
  - vm_compute; reflexivity.
Defined.

(** Two servers: [closeAll] closes the transport of the local server
    and then that of the open server. *)
Lemma closeAll_order_witness :
  map (fun p => EvTransportClose (transport p.2)) (clients (twoServers stuckClose)) =
    [EvTransportClose 0; EvTransportClose 1] ∧
  (closeAll stuckClose (twoServers stuckClose) =
     (Return tt, (closeAll stuckClose (twoServers stuckClose)).2) ∧
   clients (closeAll stuckClose (twoServers stuckClose)).2 = [] ∧
   trace (closeAll stuckClose (twoServers stuckClose)).2 =
   trace (twoServers stuckClose) ++
   map (fun p => EvTransportClose (transport p.2)) (clients (twoServers stuckClose))).
Proof.
  split; [vm_compute; reflexivity|].
  apply (closeAll_order stuckClose (twoServers stuckClose)).
  apply (sound_connect stuckClose), sound_connect, sound_emptyPool.
Defined.
(** A hook has marked the local server; its next [listTools] fails, the
    pool reconnects, and the server is healthy again. *)
Lemma health_raised_by_connect_witness :
  (getStatus "local" (fireHook (OnClose, 0%nat) (localPool expiredOnce)) = false ∧
   getStatus "local"
     (perform expiredOnce (CallListTools "local")
        (fireHook (OnClose, 0%nat) (localPool expiredOnce))) = true) ∧
  ∃ pre post,
    trace (perform expiredOnce (CallListTools "local")
             (fireHook (OnClose, 0%nat) (localPool expiredOnce))) =
    trace (fireHook (OnClose, 0%nat) (localPool expiredOnce)) ++
    pre ++ EvNewClient (nextClient (fireHook (OnClose, 0%nat) (localPool expiredOnce))) :: post.
Proof.
  split; [split; vm_compute; reflexivity|].
  apply (health_raised_by_connect expiredOnce (CallListTools "local")
           (fireHook (OnClose, 0%nat) (localPool expiredOnce)) "local");
    vm_compute; reflexivity.
Defined.
End MoreWitnesses.

(** ** The sample configurations *)

Section ConfigWitnesses.
Import JsString JsValue ParseConfig Examples ConfigExamples.

Lemma sampleConfig_parsed :
  parseConfig wholeNumbers hostOnly sampleConfig = inr ([filesParsed; remoteParsed], true).
Proof. reflexivity. Qed.

Lemma sampleConfig_declared : Forall declared [filesEntry; remoteEntry].
Proof.
  assert (∀ s : string, isText (R := wholeNumbers) (VString s)) as Htext
    by (intros s; by exists s).
  assert (∀ texts : list string, isTexts (R := wholeNumbers) (VArray (VString <$> texts)))
    as Htexts.
  { intros texts. eexists. split; [reflexivity|].
    induction texts; constructor; [apply Htext | done]. }
  apply List.Forall_cons; [|apply List.Forall_cons; [|apply List.Forall_nil]];
    unfold declared.
  - split; [by eexists|]. split; [apply Htext|]. split; [left; reflexivity|].
    split; [right; apply Htext|].
    split; [right; apply (Htexts ["--host"; "${HOST}"])|].
    repeat split; left; reflexivity.
  - split; [by eexists|]. split; [apply Htext|]. split; [right; apply Htext|].
    do 3 (split; [left; reflexivity|]). split; [right; apply Htext|].
    split.
    { right. eexists. split; [reflexivity|].
      apply List.Forall_cons; [apply Htext | apply List.Forall_nil]. }
    repeat split; left; reflexivity.
Qed.

(** The two sample servers have passed the checks. *)
Lemma parseConfig_checked_witness :
  Forall checked [filesParsed; remoteParsed] ∧
  ∃ items,
    Forall2 (fun item p => parseServer wholeNumbers hostOnly item = inr p) items
      [filesParsed; remoteParsed] ∧
    match prop "servers" (orElse sampleConfig (VObject [])) with
    | VUndefined | VNull => items = []
    | given => iterate given = Some items
    end.
Proof.
  apply (parseConfig_checked wholeNumbers hostOnly sampleConfig
           [filesParsed; remoteParsed] true).
  exact sampleConfig_parsed.
Defined.

(** The sample configuration holds data of the declared types. *)
Lemma parseConfig_declared_witness :
  (∃ message, parseConfig wholeNumbers hostOnly sampleConfig = inl (ConfigError message)) ∨
  (∃ servers toolPrefix,
     parseConfig wholeNumbers hostOnly sampleConfig = inr (servers, toolPrefix) ∧
     Forall noEmptyText servers ∧ Forall checked servers).
Proof.
  apply (parseConfig_declared wholeNumbers hostOnly sampleConfig [filesEntry; remoteEntry]).
  - reflexivity.
  - exact sampleConfig_declared.
Defined.

(** The fields of the remote server. *)
Lemma parseServer_fields_witness :
  String_of (prop "name" remoteEntry) = Some (name remoteParsed) ∧
  transport remoteParsed = orElse (prop "transport" remoteEntry) (VString "stdio") ∧
  (∀ c, prop "command" remoteEntry = VString c →
        command remoteParsed = if JsString.truthy c then Some c else None) ∧
  (∀ c, prop "authTokenCommand" remoteEntry = VString c →
        authTokenCommand remoteParsed = if JsString.truthy c then Some c else None) ∧
  (∀ u, prop "url" remoteEntry = VString u →
        url remoteParsed =
        if JsString.truthy u
        then Some (Interpolation.interpolateString hostOnly u) else None) ∧
  (∀ texts, prop "args" remoteEntry = VArray (VString <$> texts) →
            args remoteParsed = Some (Interpolation.interpolateString hostOnly <$> texts)) ∧
  (∀ props, prop "env" remoteEntry = VObject props →
            ∃ m, env remoteParsed = Some m ∧ interpolated hostOnly props m) ∧
  (∀ props, prop "headers" remoteEntry = VObject props →
            ∃ m, headers remoteParsed = Some m ∧ interpolated hostOnly props m).
Proof.
  apply (parseServer_fields wholeNumbers hostOnly remoteEntry remoteParsed).
  reflexivity.
Defined.

(** The server with the transport [sse] comes back without command and
    without URL. *)
Lemma transport_unchecked_witness :
  parseServer wholeNumbers hostOnly eventsEntry =
  inr {| name := "events"; transport := VString "sse";
         command := None; args := None; env := None; url := None; headers := None;
         authTokenCommand := None; authTokenArgs := None;
         authTokenRefreshArgs := None; authTokenHeader := None;
         authTokenPrefix := None; authTokenTtlSeconds := None |}.
Proof.
  apply (transport_unchecked wholeNumbers hostOnly eventsEntry "events" "sse");
    try done.
  intros key Hkey.
  repeat (apply elem_of_cons in Hkey as [->|Hkey]; [reflexivity|]).
  by apply elem_of_nil in Hkey.
Defined.
End ConfigWitnesses.
